(** * Totem: frontier subsystem, engine destination lookup and APSP driver

    A shallow embedding of three source files of the Totem graph engine:
    the frontier implementation (bitmap update, parallel list compaction,
    degree boundaries), the [ENGINE_FETCH_DST] macro of the engine
    interface, and the all-pairs-shortest-path driver
    ([check_special_cases], [apsp_cpu], [apsp_gpu]).

    Part I holds the definitions, Part II the lemmas and theorems. *)

From stdpp Require Import base numbers option list gmap sorting.
From Stdlib Require Import ZArith Lia.

(* ===================================================================== *)
(** * Part I: definitions                                                *)
(* ===================================================================== *)

(** ** Shared conventions *)

(** Modelled from the spec: the vertex-id type [vid_t] is declared outside
    the given sources.  The engine interface reports vertex counts as
    [uint32_t] and the frontier kernels pass [vid_t] cells to 32-bit
    atomics, so [vid_t] arithmetic wraps modulo [2^32]. *)
Definition vid_modulus : Z := 2 ^ 32.

Definition vid_wrap (x : Z) : Z := (x mod vid_modulus)%Z.

(** Array reads and writes.  An access outside the allocation is undefined
    behaviour in the source and is reported as [None]. *)
Definition load (a : list Z) (i : Z) : option Z :=
  if decide (0 ≤ i)%Z then a !! Z.to_nat i else None.

Definition store (a : list Z) (i : Z) (x : Z) : option (list Z) :=
  if decide (0 ≤ i < Z.of_nat (length a))%Z then Some (<[Z.to_nat i := x]> a)
  else None.

(** Loops of the shape [for (i = first; ...; i++) body] over an explicit
    list of index values, threading a state through a fallible body. *)
Fixpoint for_each {I S : Type} (body : I → S → option S) (idxs : list I)
    (s : S) : option S :=
  match idxs with
  | [] => Some s
  | i :: idxs' => s' ← body i s; for_each body idxs' s'
  end.

(* ===================================================================== *)
(** ** All-pairs shortest paths (src/alg/totem_apsp.cu)                  *)
(* ===================================================================== *)

Module Apsp.
Local Open Scope Z_scope.

Inductive error_t := SUCCESS | FAILURE.

(** The fields of [graph_t] that the APSP driver reads.  [vertices] is the
    CSR offset array ([vertex_count + 1] entries), [edges] the destination
    of each edge, [weights] its weight. *)
Record graph_t := {
  vertices : list Z;
  edges : list Z;
  weights : list Z;
  vertex_count : Z;
  edge_count : Z;
  weighted : bool
}.

(** A [weight_t*] is either [NULL] or the address of a host array, whose
    contents the model carries along. *)
Abbreviation pointer := (option (list Z)).
Abbreviation NULL := (@None (list Z)).

(** Events reported by the accelerator runtime to a run of [apsp_gpu], in
    program order.  The device kernels ([sssp_kernel], [sssp_final_kernel])
    are only declared in this file, so what they compute is visible to the
    host through these answers alone. *)
Inductive dev_event :=
  | Status (ok : bool)                    (* a checked call returned *)
  | HasTrue (ok : bool) (has_true : bool) (* cudaMemcpy of [has_true_d] *)
  | RowCopy (ok : bool) (row : list Z).   (* cudaMemcpy of [distances_d] *)

(** [n] checked calls in a row ([CHK_SUCCESS] / [CHK_CU_SUCCESS]); the first
    one that fails jumps to the error handler. *)
Fixpoint checked_calls (n : nat) (tr : list dev_event)
    : option (error_t * list dev_event) :=
  match n with
  | O => Some (SUCCESS, tr)
  | S n' =>
      match tr with
      | Status true :: tr' => checked_calls n' tr'
      | Status false :: tr' => Some (FAILURE, tr')
      | _ => None
      end
  end.

(** [initialize_gpu]: graph_initialize_device and four [totem_calloc]s.  The
    error handlers free what was acquired and return [FAILURE]. *)
Definition initialize_gpu (tr : list dev_event) := checked_calls 5 tr.

(** [initialize_source_gpu]: two unchecked [totem_memset]s, then four
    checked [cudaMemset]s. *)
Definition initialize_source_gpu (tr : list dev_event) := checked_calls 4 tr.

(** The loop [while (has_true) { ... }] of [apsp_gpu]; [has_true] starts
    [true], so the body runs at least once.  Each round issues two checked
    [cudaMemset]s and one checked [cudaMemcpy] that refreshes [has_true]. *)
Fixpoint sssp_rounds (tr : list dev_event)
    : option (error_t * list dev_event) :=
  match tr with
  | Status false :: tr' => Some (FAILURE, tr')
  | Status true :: Status false :: tr' => Some (FAILURE, tr')
  | Status true :: Status true :: HasTrue false _ :: tr' =>
      Some (FAILURE, tr')
  | Status true :: Status true :: HasTrue true has_true :: tr' =>
      if has_true then sssp_rounds tr' else Some (SUCCESS, tr')
  | _ => None
  end.

(** [cudaMemcpy(base, distances_d, vertex_count * sizeof(weight_t), ...)]
    with [base = &distances[offset]]. *)
Definition copy_row (distances : list Z) (offset : Z) (row : list Z)
    : option (list Z) :=
  for_each (λ j d, x ← load row j; store d (offset + j) x)
           (seqZ 0 (Z.of_nat (length row))) distances.

(** *** Arithmetic of [weight_t] *)

(** Modelled from the spec: [weight_t] is declared outside the given
    sources; weights are 32-bit IEEE floating-point numbers.  Every finite
    value of that format is a multiple of [2^-149], so a weight [x] is
    represented by the integer [x * 2^149]: the numbers below [2^24] are
    the subnormal numbers and the lowest binade, a larger finite weight has
    a significand of 24 bits, and [2^277] (that is [2^128 * 2^149]) stands
    for infinity.  The order of weights is the order of their integers. *)
Definition weight_inf : Z := 2 ^ 277.

(** [s] rounded to a multiple of [2^e], to nearest, ties to the even
    multiple. *)
Definition round_at (e s : Z) : Z :=
  let q := s / 2 ^ e in
  let r := s mod 2 ^ e in
  if (2 ^ (e - 1) <? r) || ((r =? 2 ^ (e - 1)) && Z.odd q)
  then (q + 1) * 2 ^ e else q * 2 ^ e.

(** The weight nearest to a non-negative magnitude [s]: 24 significant
    bits are kept, and what rounds to [2^277] or more is infinite. *)
Definition round_mag (s : Z) : Z :=
  if s <? 2 ^ 24 then s
  else Z.min weight_inf (round_at (Z.log2 s - 23) s).

Definition round_weight (s : Z) : Z :=
  if s <? 0 then - round_mag (- s) else round_mag s.

(** [a + b] on [weight_t]: the exact sum, rounded.  The sum of the two
    infinities of opposite sign (not a number) is not represented. *)
Definition weight_add (a b : Z) : Z := round_weight (a + b).

Section Host.
(** [WEIGHT_MAX] is declared outside the given sources. *)
Variable WEIGHT_MAX : Z.
(** The contents of freshly allocated (uninitialised) host memory. *)
Variable uninit : nat → Z.

(** [totem_malloc(n * sizeof(weight_t), TOTEM_MEM_HOST_PINNED, &p)] under
    [CALL_SAFE]: the run only continues when the allocation succeeded. *)
Definition totem_malloc (n : Z) : list Z := uninit <$> seq 0 (Z.to_nat n).

(** One iteration of the outer loop of the edgeless special case. *)
Definition edgeless_row (v_count src : Z) (distances : list Z)
    : option (list Z) :=
  let base := vid_wrap (src * v_count) in
  d ← for_each (λ dest d, store d (base + dest) WEIGHT_MAX)
               (seqZ 0 v_count) distances;
  store d (base + src) 0.

Definition check_special_cases (graph : option graph_t)
    (distances : pointer) : option (error_t * pointer * bool) :=
  match graph with
  | None => Some (FAILURE, NULL, true)
  | Some g =>
      if negb (weighted g) || (vertex_count g <=? 0) then
        Some (FAILURE, NULL, true)
      else if vertex_count g =? 1 then
        d ← store (totem_malloc 1) 0 0;
        Some (SUCCESS, Some d, true)
      else
        let v_count := vertex_count g in
        if (0 <? v_count) && (edge_count g =? 0) then
          d ← for_each (edgeless_row v_count) (seqZ 0 v_count)
                (totem_malloc (vid_wrap (v_count * v_count)));
          Some (SUCCESS, Some d, true)
        else Some (SUCCESS, distances, false)
  end.

(** The per-source loop of [apsp_gpu]. *)
Fixpoint sources_loop (v_count : Z) (sources : list Z) (distances : list Z)
    (tr : list dev_event) : option (error_t * list Z) :=
  match sources with
  | [] => Some (SUCCESS, distances)
  | source_id :: sources' =>
      '(r1, tr1) ← initialize_source_gpu tr;
      match r1 with
      | FAILURE => Some (FAILURE, distances)
      | SUCCESS =>
          '(r2, tr2) ← sssp_rounds tr1;
          match r2 with
          | FAILURE => Some (FAILURE, distances)
          | SUCCESS =>
              match tr2 with
              | RowCopy true row :: tr3 =>
                  if decide (Z.of_nat (length row) = v_count) then
                    d ← copy_row distances
                          (vid_wrap (source_id * v_count)) row;
                    sources_loop v_count sources' d tr3
                  else None
              | RowCopy false _ :: _ => Some (FAILURE, distances)
              | _ => None
              end
          end
      end
  end.

Definition apsp_gpu (tr : list dev_event) (graph : option graph_t)
    (path_ret : pointer) : option (error_t * pointer) :=
  '(ret_val, path_ret, finished) ← check_special_cases graph path_ret;
  if (finished : bool) then Some (ret_val, path_ret)
  else
    g ← graph;
    let distances :=
      totem_malloc (vid_wrap (vertex_count g * vertex_count g)) in
    '(r, tr1) ← initialize_gpu tr;
    match r with
    | FAILURE => (* err: *) Some (FAILURE, NULL)
    | SUCCESS =>
        '(r', d) ← sources_loop (vertex_count g)
                     (seqZ 0 (vertex_count g)) distances tr1;
        match r' with
        | FAILURE => (* err_free_all: *) Some (FAILURE, NULL)
        | SUCCESS => Some (SUCCESS, Some d)
        end
    end.

(** First loop nest of [apsp_cpu]: path costs from the edge list. *)
Definition init_row (g : graph_t) (src : Z) (distances : list Z)
    : option (list Z) :=
  let v_count := vertex_count g in
  let base := vid_wrap (src * v_count) in
  d1 ← for_each (λ dest d, store d (base + dest) WEIGHT_MAX)
                (seqZ 0 v_count) distances;
  first ← load (vertices g) src;
  last ← load (vertices g) (src + 1);
  d2 ← for_each (λ edge d,
                   dst ← load (edges g) edge;
                   w ← load (weights g) edge;
                   store d (base + dst) w)
                (seqZ first (last - first)) d1;
  store d2 (base + src) 0.

(** Innermost statement of the main loop:
    [base[dest] = min(base[dest], base[mid] + mid_base[dest])]. *)
Definition relax (v_count mid src dest : Z) (distances : list Z)
    : option (list Z) :=
  let base := vid_wrap (src * v_count) in
  let mid_base := vid_wrap (mid * v_count) in
  a ← load distances (base + dest);
  b ← load distances (base + mid);
  c ← load distances (mid_base + dest);
  store distances (base + dest) (Z.min a (weight_add b c)).

Definition relax_row (v_count mid src : Z) (distances : list Z)
    : option (list Z) :=
  for_each (relax v_count mid src) (seqZ 0 v_count) distances.

Definition relax_all (v_count mid : Z) (distances : list Z)
    : option (list Z) :=
  for_each (relax_row v_count mid) (seqZ 0 v_count) distances.

Definition apsp_cpu (graph : option graph_t) (path_ret : pointer)
    : option (error_t * pointer) :=
  '(ret_val, path_ret, finished) ← check_special_cases graph path_ret;
  if (finished : bool) then Some (ret_val, path_ret)
  else
    g ← graph;
    let v_count := vertex_count g in
    let distances := totem_malloc (vid_wrap (v_count * v_count)) in
    d1 ← for_each (init_row g) (seqZ 0 v_count) distances;
    d2 ← for_each (relax_all v_count) (seqZ 0 v_count) d1;
    Some (SUCCESS, Some d2).
End Host.

(** Edges and walks of a CSR graph, for stating what [apsp_cpu] computes. *)
Definition is_edge (g : graph_t) (u v w : Z) : Prop :=
  ∃ first last e,
    load (vertices g) u = Some first ∧ load (vertices g) (u + 1) = Some last ∧
    first ≤ e < last ∧ load (edges g) e = Some v ∧ load (weights g) e = Some w.

(** [walk g u v c]: a sequence of edges leads from [u] to [v] with total
    weight [c]; the empty walk has weight [0]. *)
Inductive walk (g : graph_t) : Z → Z → Z → Prop :=
  | walk_nil u : 0 ≤ u < vertex_count g → walk g u u 0
  | walk_cons u x v w c :
      is_edge g u x w → walk g x v c → walk g u v (w + c).

Definition reachable (g : graph_t) (u v : Z) : Prop := ∃ c, walk g u v c.

(** [m] is the minimum total weight over all walks from [u] to [v]. *)
Definition shortest (g : graph_t) (u v m : Z) : Prop :=
  walk g u v m ∧ ∀ c, walk g u v c → m ≤ c.

(** Non-empty walks together with the list of their intermediate vertices,
    as the Floyd-Warshall induction needs them. *)
Inductive iwalk (g : graph_t) : Z → list Z → Z → Z → Prop :=
  | iwalk_last u v w : is_edge g u v w → iwalk g u [] v w
  | iwalk_cons u x xs v w c :
      is_edge g u x w → iwalk g x xs v c → iwalk g u (x :: xs) v (w + c).

(** [path_sum g k u v y]: [y] is the [weight_t] sum of the edge weights of
    a walk of at least one edge from [u] to [v] whose intermediate vertices
    are below [k], added in the order of the main loop of [apsp_cpu]: a
    single edge counts its weight; a longer walk is cut at its highest
    intermediate vertex [m], which it visits once, and the sums of the two
    parts, whose intermediate vertices are below [m], are added, with
    rounding. *)
Inductive path_sum (g : graph_t) : Z → Z → Z → Z → Prop :=
  | path_sum_edge k u v w : is_edge g u v w → path_sum g k u v w
  | path_sum_join k m u v b c :
      0 ≤ m < k → path_sum g m u m b → path_sum g m m v c →
      path_sum g k u v (weight_add b c).

(** Additions do not round below [WEIGHT_MAX]: when the weights of two
    consecutive walks add up to less than [WEIGHT_MAX], their [weight_t]
    sum is that number. *)
Definition exact_sums (WEIGHT_MAX : Z) (g : graph_t) : Prop :=
  ∀ u k v b c, walk g u k b → walk g k v c →
    b + c < WEIGHT_MAX → weight_add b c = b + c.

(** A CSR graph as the partitioner hands it over. *)
Record graph_wf (WEIGHT_MAX : Z) (g : graph_t) : Prop := {
  wf_vertices_len : Z.of_nat (length (vertices g)) = vertex_count g + 1;
  wf_offsets : ∀ u first last,
      0 ≤ u < vertex_count g →
      load (vertices g) u = Some first →
      load (vertices g) (u + 1) = Some last →
      0 ≤ first ≤ last ∧ last ≤ Z.of_nat (length (edges g));
  wf_weights_len : length (weights g) = length (edges g);
  wf_edge_dst : ∀ u v w, is_edge g u v w → 0 ≤ v < vertex_count g;
  wf_edge_weight : ∀ u v w, is_edge g u v w → 0 ≤ w ≤ WEIGHT_MAX;
  (** edge weights are values of [weight_t] *)
  wf_edge_float : ∀ u v w, is_edge g u v w → round_weight w = w;
  (** no parallel edges *)
  wf_simple : ∀ u v w w', is_edge g u v w → is_edge g u v w' → w = w'
}.

(** The matrix of an edgeless graph, stored row by row: zero on the
    diagonal, [WEIGHT_MAX] elsewhere. *)
Definition edgeless_matrix (WEIGHT_MAX N : Z) (d : list Z) : Prop :=
  Z.of_nat (length d) = N * N ∧
  ∀ u v, 0 ≤ u < N → 0 ≤ v < N →
    load d (u * N + v) = Some (if decide (u = v) then 0 else WEIGHT_MAX).

(** Invariants of the two loop nests of [apsp_cpu]. *)
Section Invariants.
Variable WEIGHT_MAX : Z.
Variable g : graph_t.

(** The matrix after the first loop nest. *)
Definition init_entry (u v x : Z) : Prop :=
  (u = v ∧ x = 0) ∨
  (u ≠ v ∧ ((x = WEIGHT_MAX ∧ ∀ w, ¬ is_edge g u v w) ∨ is_edge g u v x)).

(** What is known of a matrix entry: it is a value of [weight_t] between
    [0] and the sentinel, the diagonal is zero, and where additions do not
    round an entry other than the sentinel is the weight of a walk. *)
Definition sound (d : list Z) : Prop :=
  Z.of_nat (length d) = vertex_count g * vertex_count g ∧
  ∀ u v, 0 ≤ u < vertex_count g → 0 ≤ v < vertex_count g →
    ∃ x, load d (u * vertex_count g + v) = Some x ∧ 0 ≤ x ≤ WEIGHT_MAX ∧
         round_weight x = x ∧
         (u = v → x = 0) ∧
         (exact_sums WEIGHT_MAX g → x < WEIGHT_MAX → walk g u v x).

(** Entry [(u, v)] off the diagonal, when it is not the sentinel, is the
    [weight_t] sum of a walk whose intermediate vertices are below [k]. *)
Definition attained_at (k u v : Z) (d : list Z) : Prop :=
  ∀ x, load d (u * vertex_count g + v) = Some x →
    u ≠ v → x < WEIGHT_MAX → path_sum g k u v x.

Definition attained (k : Z) (d : list Z) : Prop :=
  ∀ u v, 0 ≤ u < vertex_count g → 0 ≤ v < vertex_count g →
    attained_at k u v d.

(** Inside iteration [k] of the main loop: row [k] and column [k] are as
    they were when the iteration began, the other entries may already go
    through vertex [k]. *)
Definition in_round (k : Z) (d : list Z) : Prop :=
  ∀ u v, 0 ≤ u < vertex_count g → 0 ≤ v < vertex_count g →
    attained_at (k + 1) u v d ∧ (u = k ∨ v = k → attained_at k u v d).

(** Entry [(u, v)] is at most the [weight_t] sum of every walk whose
    intermediate vertices are below [k] and, where additions do not round,
    at most the weight of every walk whose intermediate vertices are below
    [k]. *)
Definition complete_at (k u v : Z) (d : list Z) : Prop :=
  ∀ x, load d (u * vertex_count g + v) = Some x →
    (∀ y, path_sum g k u v y → x ≤ y) ∧
    (exact_sums WEIGHT_MAX g →
     ∀ xs c, iwalk g u xs v c → Forall (λ y, y < k) xs → x ≤ c).

Definition complete (k : Z) (d : list Z) : Prop :=
  ∀ u v, 0 ≤ u < vertex_count g → 0 ≤ v < vertex_count g →
    complete_at k u v d.

(** Entries only decrease: every bound that held for [d] holds for [d']. *)
Definition improves (d d' : list Z) : Prop :=
  ∀ j u v, 0 ≤ u < vertex_count g → 0 ≤ v < vertex_count g →
    complete_at j u v d → complete_at j u v d'.
End Invariants.

(** Concrete inputs used by the examples below. *)
(** [FLT_MAX], the largest finite weight: [(2^24 - 1) * 2^104], in units
    of [2^-149]. *)
Definition FLT_MAX : Z :=
  242833597054204979200408310406566737244312373222769356951406046285165034661509857280.

(** The weight with the integer value [n]. *)
Definition weight_of_Z (n : Z) : Z := n * 2 ^ 149.

Definition zeroed : nat → Z := λ _, 0.

Definition unweighted_pair : graph_t :=
  {| vertices := [0; 0; 0]; edges := []; weights := [];
     vertex_count := 2; edge_count := 0; weighted := false |}.

Definition unweighted_single : graph_t :=
  {| vertices := [0; 0]; edges := []; weights := [];
     vertex_count := 1; edge_count := 0; weighted := false |}.

(** Three vertices and two edges in a row: [0 → 1] of weight [w1] and
    [1 → 2] of weight [w2]. *)
Definition chain (w1 w2 : Z) : graph_t :=
  {| vertices := [0; 1; 2; 2]; edges := [1; 2]; weights := [w1; w2];
     vertex_count := 3; edge_count := 2; weighted := true |}.

(** Weights [3] and [4]. *)
Definition light_chain : graph_t := chain (weight_of_Z 3) (weight_of_Z 4).

(** Two edges of weight [2^127]: their sum exceeds [FLT_MAX]. *)
Definition heavy_chain : graph_t :=
  chain (weight_of_Z (2 ^ 127)) (weight_of_Z (2 ^ 127)).

(** An edge of weight [2^24] followed by an edge of weight [1]: their sum
    [2^24 + 1] is not a value of [weight_t]. *)
Definition rounding_chain : graph_t :=
  chain (weight_of_Z (2 ^ 24)) (weight_of_Z 1).

Definition weighted_pair : graph_t :=
  {| vertices := [0; 1; 1]; edges := [1]; weights := [5];
     vertex_count := 2; edge_count := 1; weighted := true |}.

(** A device run of [apsp_gpu] on [weighted_pair] that completes the first
    source and then fails in the first [cudaMemset] of the second. *)
Definition failing_trace : list dev_event :=
  [Status true; Status true; Status true; Status true; Status true;
   Status true; Status true; Status true; Status true;
   Status true; Status true; HasTrue true false;
   RowCopy true [0; 5];
   Status false].

(** *** Device answers of a run without failures *)

(** One round of the loop [while (has_true)]: two [cudaMemset]s and the
    [cudaMemcpy] that fetches [has_true]. *)
Definition round_events (has_true : bool) : list dev_event :=
  [Status true; Status true; HasTrue true has_true].

(** What the device answers while [apsp_gpu] handles one source vertex when
    no call fails: the four [cudaMemset]s of [initialize_source_gpu],
    [rounds] rounds that report a change, the round that reports none, and
    the copy of the distance row [row]. *)
Definition source_events (run : nat * list Z) : list dev_event :=
  replicate 4 (Status true) ++
  mjoin (replicate run.1 (round_events true)) ++
  round_events false ++ [RowCopy true run.2].

(** A whole run: the five calls of [initialize_gpu], then the sources in
    order. *)
Definition success_trace (runs : list (nat * list Z)) : list dev_event :=
  replicate 5 (Status true) ++ (runs ≫= source_events).

(** *** Allocations of [apsp_gpu] *)

(** The blocks that [apsp_gpu] acquires: the device graph, the four device
    arrays of [initialize_gpu], and the host matrix [distances]. *)
Inductive resource :=
  | Graph_d | Distances_d | New_distances_d | Changed_d | Has_true_d
  | Distances.

#[global] Instance resource_eq_dec : EqDecision resource.
Proof. solve_decision. Defined.

#[global] Instance resource_countable : Countable resource.
Proof.
  refine (inj_countable'
    (λ r, match r with
          | Graph_d => 0%nat | Distances_d => 1%nat
          | New_distances_d => 2%nat | Changed_d => 3%nat
          | Has_true_d => 4%nat | Distances => 5%nat
          end)
    (λ n, match n with
          | 0%nat => Graph_d | 1%nat => Distances_d
          | 2%nat => New_distances_d | 3%nat => Changed_d
          | 4%nat => Has_true_d | _ => Distances
          end) _).
  by intros [].
Defined.

(** [totem_free] and [graph_finalize_device] release a block that is in
    use; releasing any other block is undefined. *)
Definition release (r : resource) (live : gset resource)
    : option (gset resource) :=
  if decide (r ∈ live) then Some (live ∖ {[r]}) else None.

(** A checked acquisition ([graph_initialize_device], [totem_calloc]):
    the block is in use afterwards when the call succeeded. *)
Definition acquire (r : resource) (tr : list dev_event)
    (live : gset resource) : option (bool * gset resource * list dev_event) :=
  match tr with
  | Status true :: tr' => Some (true, {[r]} ∪ live, tr')
  | Status false :: tr' => Some (false, live, tr')
  | _ => None
  end.

(** The error handlers of [initialize_gpu]; each label falls through to
    the next one. *)
Definition init_err_free_graph (live : gset resource) :=
  release Graph_d live.
Definition init_err_free_distances (live : gset resource) :=
  live ← release Distances_d live; init_err_free_graph live.
Definition init_err_free_new_distances (live : gset resource) :=
  live ← release New_distances_d live; init_err_free_distances live.
Definition init_err_free_all (live : gset resource) :=
  live ← release Changed_d live; init_err_free_new_distances live.

(** [initialize_gpu] together with the set of blocks in use. *)
Definition initialize_gpu_live (tr : list dev_event) (live : gset resource)
    : option (error_t * gset resource * list dev_event) :=
  '(ok, live, tr) ← acquire Graph_d tr live;
  if negb ok then Some (FAILURE, live, tr) else
  '(ok, live, tr) ← acquire Distances_d tr live;
  if negb ok then
    live ← init_err_free_graph live; Some (FAILURE, live, tr) else
  '(ok, live, tr) ← acquire New_distances_d tr live;
  if negb ok then
    live ← init_err_free_distances live; Some (FAILURE, live, tr) else
  '(ok, live, tr) ← acquire Changed_d tr live;
  if negb ok then
    live ← init_err_free_new_distances live; Some (FAILURE, live, tr) else
  '(ok, live, tr) ← acquire Has_true_d tr live;
  if negb ok then
    live ← init_err_free_all live; Some (FAILURE, live, tr) else
  Some (SUCCESS, live, tr).

Definition finalize_gpu (live : gset resource) : option (gset resource) :=
  live ← release Distances_d live;
  live ← release Changed_d live;
  live ← release New_distances_d live;
  live ← release Has_true_d live;
  release Graph_d live.

Section HostLive.
Variable WEIGHT_MAX : Z.
Variable uninit : nat → Z.

(** [apsp_gpu] together with the set of blocks in use.  The matrix that
    [check_special_cases] allocates is the block [Distances]. *)
Definition apsp_gpu_live (tr : list dev_event) (graph : option graph_t)
    (path_ret : pointer) (live : gset resource)
    : option (error_t * pointer * gset resource) :=
  '(ret_val, path_ret, finished) ←
    check_special_cases WEIGHT_MAX uninit graph path_ret;
  if (finished : bool) then
    Some (ret_val, path_ret,
          match path_ret with
          | Some _ => {[Distances]} ∪ live
          | None => live
          end)
  else
    g ← graph;
    let distances :=
      totem_malloc uninit (vid_wrap (vertex_count g * vertex_count g)) in
    let live := {[Distances]} ∪ live in
    '(r, live, tr1) ← initialize_gpu_live tr live;
    match r with
    | FAILURE =>
        (* err: *)
        live ← release Distances live; Some (FAILURE, NULL, live)
    | SUCCESS =>
        '(r', d) ← sources_loop (vertex_count g)
                     (seqZ 0 (vertex_count g)) distances tr1;
        match r' with
        | FAILURE =>
            (* err_free_all: *)
            live ← finalize_gpu live;
            live ← release Distances live;
            Some (FAILURE, NULL, live)
        | SUCCESS =>
            live ← finalize_gpu live;
            Some (SUCCESS, Some d, live)
        end
    end.
End HostLive.

End Apsp.

(* ===================================================================== *)
(** ** Frontier subsystem (src/unnamed/part_000)                         *)
(* ===================================================================== *)

Module Frontier.

(** Device memory: every allocation is an array of cells, found by its
    address.  Indices are natural numbers, cell contents integers. *)
Abbreviation device_mem := (gmap nat (list Z)).

Definition dev_load (m : device_mem) (a : nat) (i : Z) : option Z :=
  l ← m !! a; load l i.

Definition dev_store (m : device_mem) (a : nat) (i : Z) (x : Z)
    : option device_mem :=
  l ← m !! a; l' ← store l i x; Some (<[a := l']> m).

(** The fields of [frontier_state_t] that the frontier code uses.  The
    field [list] of the source is called [frontier_list] here. *)
Record frontier_state_t := {
  frontier_list : nat;   (* vid_t* list *)
  count : nat;           (* vid_t* count *)
  current : nat;         (* bitmap_t current *)
  visited_last : nat;    (* bitmap_t visited_last *)
  len : nat;             (* vid_t len *)
  list_len : nat;        (* vid_t list_len *)
  boundaries : nat       (* vid_t* boundaries *)
}.

Definition WARP_WIDTH : nat := 32.

(** Modelled from the spec: the bitmap primitives (words of a bitmap, bit
    test, population count) are services of the bitmap module, which is not
    among the given sources.  A bitmap of [len] bits is an array of 32-bit
    words ([BITMAP_BITS_PER_WORD == WARP_WIDTH] is asserted by the build
    kernel); bit [b] of the bitmap is bit [b mod 32] of word [b / 32]. *)
Definition bitmap_bits_to_words (len : nat) : nat := (len + 31) / 32.

Definition bitmap_is_set (word : Z) (bit : nat) : bool :=
  Z.testbit word (Z.of_nat bit).

Definition popc (word : Z) : nat :=
  length (filter (λ bit, bitmap_is_set word bit) (seq 0 32)).

(** Modelled from the spec: [bitmap_diff_copy_cpu] and
    [bitmap_diff_copy_gpu] are not among the given sources.  Called as
    [bitmap_diff_copy(visited, current, visited_last, len)] after the two
    buffers were swapped, so that [diff] holds the previous snapshot: for
    every word, [diff = cur AND NOT diff] (the vertices visited since the
    previous snapshot) and [copy = cur] (the new snapshot). *)
Definition bitmap_diff_copy_word (cur diff copy : nat) (word : nat)
    (m : device_mem) : option device_mem :=
  c ← dev_load m cur (Z.of_nat word);
  d ← dev_load m diff (Z.of_nat word);
  m1 ← dev_store m diff (Z.of_nat word) (Z.ldiff c d);
  c' ← dev_load m1 cur (Z.of_nat word);
  dev_store m1 copy (Z.of_nat word) c'.

Definition bitmap_diff_copy_cpu (cur diff copy : nat) (len : nat)
    (m : device_mem) : option device_mem :=
  for_each (bitmap_diff_copy_word cur diff copy)
           (seq 0 (bitmap_bits_to_words len)) m.

(** On the accelerator one thread handles one word; [order] is the order
    in which the threads happen to run. *)
Definition bitmap_diff_copy_gpu (order : list nat) (cur diff copy : nat)
    (len : nat) (m : device_mem) : option device_mem :=
  for_each (λ word m,
              if decide (word < bitmap_bits_to_words len)
              then bitmap_diff_copy_word cur diff copy word m
              else Some m)
           order m.

Definition swap_buffers (state : frontier_state_t) : frontier_state_t :=
  {| frontier_list := frontier_list state; count := count state;
     current := visited_last state; visited_last := current state;
     len := len state; list_len := list_len state;
     boundaries := boundaries state |}.

Definition frontier_update_bitmap_cpu (state : frontier_state_t)
    (visited : nat) (m : device_mem)
    : option (Z * frontier_state_t * device_mem) :=
  let state' := swap_buffers state in
  m' ← bitmap_diff_copy_cpu visited (current state') (visited_last state')
         (len state') m;
  Some (0%Z, state', m').

Definition frontier_update_bitmap_gpu (order : list nat)
    (state : frontier_state_t) (visited : nat) (m : device_mem)
    : option (Z * frontier_state_t * device_mem) :=
  let state' := swap_buffers state in
  m' ← bitmap_diff_copy_gpu order visited (current state')
         (visited_last state') (len state') m;
  Some (0%Z, state', m').

(** What [update_bitmap] expects: three distinct buffers of
    [bitmap_bits_to_words len] words each. *)
Definition bitmaps_ok (state : frontier_state_t) (visited : nat)
    (m : gmap nat (list Z)) (V C L : list Z) : Prop :=
  NoDup [visited; current state; visited_last state] ∧
  m !! visited = Some V ∧
  m !! current state = Some C ∧
  m !! visited_last state = Some L ∧
  length V = bitmap_bits_to_words (len state) ∧
  length C = bitmap_bits_to_words (len state) ∧
  length L = bitmap_bits_to_words (len state).

(** A concrete frontier of 40 vertices for the examples. *)
Definition bitmap_state : frontier_state_t :=
  {| frontier_list := 3; count := 4; current := 0; visited_last := 1;
     len := 40; list_len := 40; boundaries := 5 |}.

Definition bitmap_mem : gmap nat (list Z) :=
  <[0 := [7; 0]%Z]> (<[1 := [1; 2]%Z]> (<[2 := [5; 1]%Z]> ∅)).

(** *** The list-building kernel *)

(** Modelled from the spec: [THREAD_GLOBAL_INDEX] and [THREAD_BLOCK_INDEX]
    are macros of the kernel helpers, not among the given sources: thread
    [idx] of block [block] has global index
    [idx + threads_per_block * block]. *)
Definition THREAD_GLOBAL_INDEX (threads_per_block block idx : nat) : nat :=
  idx + threads_per_block * block.

Definition bool_to_Z (b : bool) : Z := if b then 1%Z else 0%Z.

(** One statement [if (lane >= d) ptr[idx] = ptr[idx - d] + ptr[idx]] of
    [scan_warp], executed in lock step by the 32 lanes of warp [warpid]:
    every lane reads before any lane writes. *)
Definition scan_round (d : nat) (warpid : nat) (ptr : list Z) : list Z :=
  imap (λ idx x,
          if decide (idx / 32 = warpid ∧ d ≤ idx mod 32)
          then vid_wrap (default 0%Z (ptr !! (idx - d)) + x)
          else x) ptr.

(** The conversion of a [vid_t] cell to [int], the return type of
    [scan_warp]: a cell of [2^31] or more comes out negative. *)
Definition to_int (x : Z) : Z :=
  if decide (x < 2 ^ 31)%Z then x else (x - vid_modulus)%Z.

(** [scan_warp<exclusive>(ptr, idx)] for all lanes of warp [warpid]: the
    array after the five rounds and the [int] returned to each lane. *)
Definition scan_warp (exclusive : bool) (warpid : nat) (ptr : list Z)
    : list Z * (nat → Z) :=
  let p := scan_round 16 warpid (scan_round 8 warpid (scan_round 4 warpid
             (scan_round 2 warpid (scan_round 1 warpid ptr)))) in
  (p, λ lane,
        let idx := 32 * warpid + lane in
        if exclusive
        then (if decide (0 < lane)
              then to_int (default 0%Z (p !! (idx - 1))) else 0%Z)
        else to_int (default 0%Z (p !! idx))).

(** The shared memory of one thread block. *)
Record block_shared := {
  queue_l : list Z;   (* vid_t queue_l[THREADS_PER_BLOCK] *)
  count_b : list Z;   (* vid_t count_b[THREADS_PER_BLOCK] *)
  count_w : list Z;   (* vid_t count_w[THREADS_PER_BLOCK / WARP_WIDTH] *)
  count_l : Z         (* int count_l *)
}.

(** The kernel up to the first barrier after [count_l = 0], for the 32
    lanes of warp [warpid] of block [block].  The lanes share one bitmap
    word; the warp is serialised with the other warps of its block at its
    [atomicAdd] on [count_l]. *)
Definition warp_step (cur : list Z) (nwords threads_per_block : nat)
    (block warpid : nat) (sh : block_shared) : option block_shared :=
  let v0 := THREAD_GLOBAL_INDEX threads_per_block block (32 * warpid) in
  let widx := v0 / 32 in
  if decide (nwords ≤ widx) then Some sh
  else
    word ← cur !! widx;
    if decide (word = 0%Z) then Some sh
    else
      let cb :=
        foldl (λ cb lane,
                 <[32 * warpid + lane := bool_to_Z (bitmap_is_set word lane)]> cb)
              (count_b sh) (seq 0 32) in
      let '(cb', index) := scan_warp true warpid cb in
      let cw := <[warpid := count_l sh]> (count_w sh) in
      let cl := (count_l sh + Z.of_nat (popc word))%Z in
      base ← cw !! warpid;
      q ← for_each
            (λ lane q,
               if bitmap_is_set word lane
               then store q (base + index lane)%Z
                      (Z.of_nat (THREAD_GLOBAL_INDEX threads_per_block block
                                   (32 * warpid + lane)))
               else Some q)
            (seq 0 32) (queue_l sh);
      Some {| queue_l := q; count_b := cb'; count_w := cw; count_l := cl |}.

(** A schedule of one kernel launch: the order in which the blocks reach
    their [atomicAdd] on the global counter, for every block the order in
    which its warps reach theirs on [count_l], and what the shared memory
    of each block holds when the block starts. *)
Record schedule := {
  block_order : list nat;
  warp_order : nat → list nat;
  shared_uninit : nat → nat → Z
}.

(** One thread block of [frontier_build_kernel<THREADS_PER_BLOCK>] with
    [THREADS_PER_BLOCK = WARP_WIDTH * warps]. *)
Definition block_run (warps : nat) (sched : schedule)
    (state : frontier_state_t) (block : nat) (m : device_mem)
    : option device_mem :=
  let threads_per_block := WARP_WIDTH * warps in
  let nwords := bitmap_bits_to_words (len state) in
  cur ← m !! current state;
  let sh0 :=
    {| queue_l := shared_uninit sched block <$> seq 0 threads_per_block;
       count_b := shared_uninit sched block <$> seq 0 threads_per_block;
       count_w := shared_uninit sched block <$> seq 0 warps;
       count_l := 0 |} in
  sh ← for_each (warp_step cur nwords threads_per_block block)
         (warp_order sched block) sh0;
  (* threads past [if (idx >= count_l) return;] *)
  let writers :=
    filter (λ idx,
              THREAD_GLOBAL_INDEX threads_per_block block idx / 32 < nwords ∧
              (Z.of_nat idx < count_l sh)%Z)
           (seq 0 threads_per_block) in
  match writers with
  | [] => Some m
  | _ =>
      if decide (0 ∈ writers) then
        index ← dev_load m (count state) 0;
        m1 ← dev_store m (count state) 0 (vid_wrap (index + count_l sh));
        for_each (λ idx m,
                    x ← queue_l sh !! idx;
                    dev_store m (frontier_list state)
                      (index + Z.of_nat idx)%Z x)
                 writers m1
      else None (* [index] is read but was never written *)
  end.

Definition frontier_build_kernel (warps : nat) (sched : schedule)
    (state : frontier_state_t) (m : device_mem) : option device_mem :=
  for_each (block_run warps sched state) (block_order sched) m.

(** [cudaMemsetAsync(state->count, 0, sizeof(vid_t), stream)], then the
    kernel in the same stream. *)
Definition frontier_update_list_gpu (warps : nat) (sched : schedule)
    (state : frontier_state_t) (m : device_mem) : option device_mem :=
  m0 ← dev_store m (count state) 0 0;
  frontier_build_kernel warps sched state m0.

(** [kernel_configure(len, blocks)] is not among the given sources; a
    schedule is admissible for a launch over [len] threads when its blocks
    are those of a grid that covers [len] threads and every block runs all
    of its warps. *)
Definition schedule_ok (warps len : nat) (sched : schedule) : Prop :=
  ∃ nblocks,
    len ≤ nblocks * (WARP_WIDTH * warps) ∧
    block_order sched ≡ₚ seq 0 nblocks ∧
    ∀ block, warp_order sched block ≡ₚ seq 0 warps.

(** The ids whose bit is set in one word of a bitmap, in ascending order. *)
Definition word_ids (widx : nat) (word : Z) : list Z :=
  (λ lane, Z.of_nat (32 * widx + lane)) <$>
    filter (λ lane, bitmap_is_set word lane) (seq 0 32).

(** Number of set bits of [word] below lane [n]. *)
Definition rank (word : Z) (n : nat) : nat :=
  length (filter (λ lane, bitmap_is_set word lane) (seq 0 n)).

(** The ids that the warp working on word [widx] contributes. *)
Definition warp_ids (cur : list Z) (widx : nat) : list Z :=
  match cur !! widx with
  | Some word => word_ids widx word
  | None => []
  end.

(** After the rounds of [scan_warp] with distances below [D], lane [lane]
    of warp [warpid] holds the number of set bits of [word] in the window
    of [D] lanes that ends at [lane]; [ptr] is the array before the scan. *)
Definition scan_window (word : Z) (warpid : nat) (ptr : list Z) (D : nat)
    (p : list Z) : Prop :=
  length p = length ptr ∧
  (∀ i, i / 32 ≠ warpid → p !! i = ptr !! i) ∧
  ∀ lane, lane < 32 →
    p !! (32 * warpid + lane) =
      Some (Z.of_nat (rank word (S lane) - rank word (S lane - D))).

(** The shared arrays have the sizes they were declared with, and
    [count_l] holds [cl]. *)
Definition shared_ok (warps : nat) (sh : block_shared) (cl : nat) : Prop :=
  length (queue_l sh) = WARP_WIDTH * warps ∧
  length (count_b sh) = WARP_WIDTH * warps ∧
  length (count_w sh) = warps ∧ count_l sh = Z.of_nat cl.

(** What the list-building kernel expects: the list, the counter and the
    bitmap are three different buffers, the bitmap has
    [bitmap_bits_to_words len] words, the list [list_len] cells (a
    [vid_t]), and the counter is one cell. *)
Definition frontier_ok (state : frontier_state_t) (m : gmap nat (list Z))
    (cur l : list Z) : Prop :=
  NoDup [frontier_list state; count state; current state] ∧
  m !! current state = Some cur ∧
  length cur = bitmap_bits_to_words (len state) ∧
  m !! frontier_list state = Some l ∧
  length l = list_len state ∧
  (∃ c, m !! count state = Some [c]) ∧
  (Z.of_nat (list_len state) < vid_modulus)%Z.

(** The device memory with the list [l] and the counter value [c]. *)
Definition mem_at (state : frontier_state_t) (m : gmap nat (list Z))
    (l : list Z) (c : Z) : gmap nat (list Z) :=
  <[frontier_list state := l]> (<[count state := [c]]> m).

(** Bit [v] of a bitmap: bit [v mod 32] of word [v / 32]. *)
Definition bitmap_test (cur : list Z) (v : nat) : bool :=
  match cur !! (v / 32) with
  | Some word => bitmap_is_set word (v mod 32)
  | None => false
  end.

(** The positions of the set bits of a bitmap, in ascending order. *)
Definition set_bits (cur : list Z) : list nat :=
  filter (λ v, bitmap_test cur v) (seq 0 (32 * length cur)).

(** The ids that a kernel launch lists, in the order of the schedule. *)
Definition block_ids (cur : list Z) (warps block : nat) (ws : list nat)
    : list Z :=
  ws ≫= λ warpid, warp_ids cur (block * warps + warpid).

Definition kernel_ids (cur : list Z) (warps : nat) (sched : schedule)
    (bs : list nat) : list Z :=
  bs ≫= λ block, block_ids cur warps block (warp_order sched block).

(** Examples: a frontier of 40 vertices of which 0, 2 and 32 are active,
    built by one block of two warps whose warps run in either order; and a
    frontier of two active vertices whose list has room for one. *)
Definition build_state : frontier_state_t :=
  {| frontier_list := 3; count := 4; current := 0; visited_last := 1;
     len := 40; list_len := 40; boundaries := 5 |}.

Definition build_mem : gmap nat (list Z) :=
  <[0 := [5; 1]%Z]> (<[3 := replicate 40 9%Z]> (<[4 := [9]%Z]> ∅)).

Definition warps_in_order : schedule :=
  {| block_order := [0]; warp_order := λ _, [0; 1];
     shared_uninit := λ _ _, 0%Z |}.

Definition warps_swapped : schedule :=
  {| block_order := [0]; warp_order := λ _, [1; 0];
     shared_uninit := λ _ i, Z.of_nat i |}.

Definition cramped_state : frontier_state_t :=
  {| frontier_list := 3; count := 4; current := 0; visited_last := 1;
     len := 2; list_len := 1; boundaries := 5 |}.

Definition cramped_mem : gmap nat (list Z) :=
  <[0 := [3]%Z]> (<[3 := [0]%Z]> (<[4 := [0]%Z]> ∅)).

(** *** Degree boundaries *)

(** Modelled from the spec: [FRONTIER_BOUNDARY_COUNT] is declared with the
    frontier interface, not among the given sources.  The boundary array
    has bucket_count + 1 entries for seven degree ranges, and the update
    kernel writes the six entries [1 .. 6]. *)
Definition FRONTIER_BOUNDARY_COUNT : nat := 6.

Definition atomicMin (m : device_mem) (a : nat) (i : Z) (x : Z)
    : option device_mem :=
  old ← dev_load m a i; dev_store m a i (Z.min old x).

(** [vid_t nbr_count = vertices[v + 1] - vertices[v]]. *)
Definition nbr_count (vertices : list Z) (v : Z) : option Z :=
  hi ← load vertices (v + 1); lo ← load vertices v; Some (vid_wrap (hi - lo)).

(** The six tests of [frontier_update_boundaries_kernel], as the entry of
    [&state.boundaries[1]] that each one updates. *)
Definition degree_buckets : list (nat * (Z → bool)) :=
  [ (0, λ n, (7 <? n)%Z && (n <? 32)%Z);
    (1, λ n, (31 <? n)%Z && (n <? 128)%Z);
    (2, λ n, (127 <? n)%Z && (n <? 256)%Z);
    (3, λ n, (255 <? n)%Z && (n <? 1024)%Z);
    (4, λ n, (1023 <? n)%Z && (n <? 2 * 1024)%Z);
    (5, λ n, (2 * 1024 <=? n)%Z) ].

Definition frontier_update_boundaries_thread (state : frontier_state_t)
    (vertices : list Z) (index : nat) (m : device_mem) : option device_mem :=
  c ← dev_load m (count state) 0;
  if decide (c ≤ Z.of_nat index)%Z then Some m
  else
    v ← dev_load m (frontier_list state) (Z.of_nat index);
    n ← nbr_count vertices v;
    for_each (λ '(b, test) m,
                if (test n : bool)
                then atomicMin m (boundaries state) (1 + Z.of_nat b)
                       (Z.of_nat index)
                else Some m)
             degree_buckets m.

Definition frontier_update_boundaries_kernel (order : list nat)
    (state : frontier_state_t) (vertices : list Z) (m : device_mem)
    : option device_mem :=
  for_each (frontier_update_boundaries_thread state vertices) order m.

(** The single-thread kernel that launches the update kernel over
    [*state.count] threads when the list is not empty. *)
Definition frontier_update_boundaries_launch_kernel (order : list nat)
    (state : frontier_state_t) (vertices : list Z) (m : device_mem)
    : option device_mem :=
  c ← dev_load m (count state) 0;
  if decide (c = 0%Z) then Some m
  else frontier_update_boundaries_kernel order state vertices m.

Definition frontier_init_boundaries_kernel (threads : nat)
    (state : frontier_state_t) (m : device_mem) : option device_mem :=
  for_each (λ index m,
              if decide (FRONTIER_BOUNDARY_COUNT ≤ index) then Some m
              else c ← dev_load m (count state) 0;
                   dev_store m (boundaries state) (Z.of_nat index + 1) c)
           (seq 0 threads) m.

(** [engine_sorted()] is answered by the engine; [threads] is the size of
    the grid that [kernel_configure(FRONTIER_BOUNDARY_COUNT, ...)] picks. *)
Definition frontier_update_boundaries_gpu (engine_sorted : bool)
    (threads : nat) (order : list nat) (state : frontier_state_t)
    (vertices : list Z) (m : device_mem) : option device_mem :=
  if engine_sorted then
    m1 ← frontier_init_boundaries_kernel threads state m;
    frontier_update_boundaries_launch_kernel order state vertices m1
  else Some m.

(** The out-degree range that entry [b] of the boundary array stands for,
    in the words of the interface: 1-7, 8-31, 32-127, 128-255, 256-1023,
    1024-2047 and 2048 or more for the entries 0 to 6. *)
Definition in_bucket (b : nat) (n : Z) : Prop :=
  match b with
  | 0 => (1 ≤ n ≤ 7)%Z
  | 1 => (8 ≤ n ≤ 31)%Z
  | 2 => (32 ≤ n ≤ 127)%Z
  | 3 => (128 ≤ n ≤ 255)%Z
  | 4 => (256 ≤ n ≤ 1023)%Z
  | 5 => (1024 ≤ n ≤ 2047)%Z
  | 6 => (2048 ≤ n)%Z
  | _ => False
  end.

(** [x] is the least index below [cnt] whose degree lies in bucket [b], or
    [cnt] when there is none. *)
Definition first_in_bucket (deg : nat → Z) (cnt : nat) (b : nat) (x : Z)
    : Prop :=
  (x = Z.of_nat cnt ∨
   ∃ i, x = Z.of_nat i ∧ i < cnt ∧ in_bucket b (deg i)) ∧
  ∀ i, i < cnt → in_bucket b (deg i) → (x ≤ Z.of_nat i)%Z.

(** What the boundary update expects: a valid dense list of [cnt] vertex
    ids with out-degrees [deg], and a boundary array of
    [FRONTIER_BOUNDARY_COUNT + 1] cells in a buffer of its own. *)
Definition boundaries_ok (state : frontier_state_t) (vertices : list Z)
    (m : gmap nat (list Z)) (cnt : nat) (deg : nat → Z) (B : list Z) : Prop :=
  boundaries state ≠ count state ∧
  boundaries state ≠ frontier_list state ∧
  dev_load m (count state) 0 = Some (Z.of_nat cnt) ∧
  (∀ i, i < cnt →
     ∃ v, dev_load m (frontier_list state) (Z.of_nat i) = Some v ∧
          nbr_count vertices v = Some (deg i)) ∧
  m !! boundaries state = Some B ∧
  length B = S FRONTIER_BOUNDARY_COUNT.

Definition bump (test : Z → bool) (n idx old : Z) : Z :=
  if test n then Z.min old idx else old.

(** The boundary array after thread [index] of the update kernel has run,
    for a list of [cnt] vertices with out-degrees [deg]. *)
Definition thread_result (cnt : nat) (deg : nat → Z) (index : nat)
    (B : list Z) : list Z :=
  if decide (cnt ≤ index) then B
  else
    foldl (λ B '(b, test),
             <[S b := bump test (deg index) (Z.of_nat index)
                        (default 0%Z (B !! S b))]> B)
          B degree_buckets.

(** Entry [b] is the least index among the threads [done] that ran. *)
Definition partial_first (cnt : nat) (deg : nat → Z) (done : list nat)
    (b : nat) (x : Z) : Prop :=
  (x = Z.of_nat cnt ∨
   ∃ i, x = Z.of_nat i ∧ i < cnt ∧ in_bucket b (deg i)) ∧
  ∀ i, i ∈ done → i < cnt → in_bucket b (deg i) → (x ≤ Z.of_nat i)%Z.

Definition partial_boundaries (cnt : nat) (deg : nat → Z) (done : list nat)
    (B : list Z) : Prop :=
  length B = S FRONTIER_BOUNDARY_COUNT ∧
  ∀ b, 1 ≤ b ≤ FRONTIER_BOUNDARY_COUNT →
    ∃ x, B !! b = Some x ∧ partial_first cnt deg done b x.

(** A frontier of two vertices, both active, for the examples: its dense
    list is still to be built. *)
Definition degree_state : frontier_state_t :=
  {| frontier_list := 3; count := 4; current := 0; visited_last := 1;
     len := 2; list_len := 2; boundaries := 5 |}.

Definition degree_mem : gmap nat (list Z) :=
  <[0 := [3]%Z]> (<[1 := [0]%Z]> (<[3 := [0; 0]%Z]> (<[4 := [0]%Z]>
    (<[5 := replicate 7 0%Z]> ∅)))).

(** The same frontier once the list [[0; 1]] has been built. *)
Definition degree_mem_built : gmap nat (list Z) :=
  <[0 := [3]%Z]> (<[1 := [0]%Z]> (<[3 := [0; 1]%Z]> (<[4 := [2]%Z]>
    (<[5 := replicate 7 0%Z]> ∅)))).

(** One block of one warp, with zeroed shared memory. *)
Definition single_warp : schedule :=
  {| block_order := [0]; warp_order := λ _, [0];
     shared_uninit := λ _ _, 0%Z |}.

(** CSR offsets of two graphs sorted by degree: degrees 2 and 40, and
    degrees 8 and 40. *)
Definition offsets_2_40 : list Z := [0; 2; 42]%Z.
Definition offsets_8_40 : list Z := [0; 8; 48]%Z.

(** CSR offsets of a graph of 40 vertices sorted by degree: the vertices
    0 to 31 have out-degree 8, the vertices 32 to 39 out-degree 40. *)
Definition offsets_sorted_40 : list Z :=
  ((λ i, 8 * i)%Z <$> seqZ 0 32) ++ ((λ j, 256 + 40 * j)%Z <$> seqZ 0 9).

(** [build_mem] with a boundary array. *)
Definition build_mem_sorted : gmap nat (list Z) :=
  <[5 := replicate 7 0%Z]> build_mem.

Definition degrees_2_40 (i : nat) : Z :=
  match i with 0 => 2%Z | 1 => 40%Z | _ => 0%Z end.
Definition degrees_8_40 (i : nat) : Z :=
  match i with 0 => 8%Z | 1 => 40%Z | _ => 0%Z end.

(** The sum of the [n] cells of [ptr] that start at index [lo]. *)
Fixpoint range_sum (ptr : list Z) (lo n : nat) : Z :=
  match n with
  | O => 0%Z
  | S n' => (range_sum ptr lo n' + default 0%Z (ptr !! (lo + n')%nat))%Z
  end.

(** After the rounds of [scan_warp] with distances below [D], lane [lane]
    of warp [warpid] holds the sum, modulo [2^32], of the last
    [min D (lane + 1)] cells of the original array [ptr] up to its own. *)
Definition sum_window (warpid : nat) (ptr : list Z) (D : nat) (p : list Z)
    : Prop :=
  length p = length ptr ∧
  (∀ i, i / 32 ≠ warpid → p !! i = ptr !! i) ∧
  ∀ lane, lane < 32 →
    p !! (32 * warpid + lane) =
      Some (vid_wrap (range_sum ptr (32 * warpid + S lane - D `min` S lane)
                        (D `min` S lane))).

(** The state with another value in its [list_len] field. *)
Definition with_list_len (n : nat) (state : frontier_state_t)
    : frontier_state_t :=
  {| frontier_list := frontier_list state; count := count state;
     current := current state; visited_last := visited_last state;
     len := len state; list_len := n; boundaries := boundaries state |}.

(** As [frontier_ok], for a list buffer of any number of cells:
    [frontier_init_gpu] allocates [vertex_count] cells whatever value it
    gives to [list_len]. *)
Definition list_buffer_ok (state : frontier_state_t) (m : gmap nat (list Z))
    (cur l : list Z) : Prop :=
  frontier_ok (with_list_len (length l) state) m cur l.

(** The bits that are set in [V] and clear in [L]. *)
Definition new_bits (V L : list Z) : list nat :=
  filter (λ v, bitmap_test V v = true ∧ bitmap_test L v = false)
         (seq 0 (32 * length V)).

(** *** Set-up and tear-down *)

(** Modelled from the spec: raw memory allocation is a primitive service
    that is not among the given sources.  An allocation hands out a block
    that is not in use ([CALL_SAFE] stops the program when it fails);
    [totem_calloc] fills it with zeros; [totem_free] releases a block in
    use and is undefined on any other address. *)
Definition alloc (contents : list Z) (m : device_mem) : nat * device_mem :=
  let a := fresh (dom m) in (a, <[a := contents]> m).

Definition totem_calloc (n : nat) (m : device_mem) : nat * device_mem :=
  alloc (replicate n 0%Z) m.

Definition totem_free (a : nat) (m : device_mem) : option device_mem :=
  if decide (is_Some (m !! a)) then Some (delete a m) else None.

(** Modelled from the spec: [bitmap_init_gpu], [bitmap_init_cpu] and the
    two [bitmap_finalize] functions belong to the bitmap module.  A bitmap
    of [len] bits is a block of [bitmap_bits_to_words len] words; [init]
    gives the words of a new bitmap. *)
Definition bitmap_init (init : nat → Z) (len : nat) (m : device_mem)
    : nat * device_mem :=
  alloc (init <$> seq 0 (bitmap_bits_to_words len)) m.

Definition bitmap_finalize (map : nat) (m : device_mem) : option device_mem :=
  totem_free map m.

(** [frontier_init_gpu].  [sorted_asc] answers
    [engine_partition_algorithm() == PAR_SORTED_ASC], [engine_sorted]
    answers [engine_sorted()], and [max_frontier_len vertex_count] is the
    value of [vertex_count * TRV_MAX_FRONTIER_LEN]; the field [boundaries]
    is left as it was when the engine is not sorted. *)
Definition frontier_init_gpu (sorted_asc engine_sorted : bool)
    (max_frontier_len : nat → nat) (init : nat → Z)
    (state : frontier_state_t) (vertex_count : nat) (m : device_mem)
    : frontier_state_t * device_mem :=
  let '(cur, m) := bitmap_init init vertex_count m in
  let '(last, m) := bitmap_init init vertex_count m in
  let '(cnt, m) := totem_calloc 1 m in
  let '(lst, m) := totem_calloc vertex_count m in
  let llen :=
    if sorted_asc then max_frontier_len vertex_count else vertex_count in
  let '(bnd, m) :=
    if engine_sorted then totem_calloc (FRONTIER_BOUNDARY_COUNT + 1) m
    else (boundaries state, m) in
  ({| frontier_list := lst; count := cnt; current := cur;
      visited_last := last; len := vertex_count; list_len := llen;
      boundaries := bnd |}, m).

Definition frontier_init_cpu (init : nat → Z) (state : frontier_state_t)
    (vertex_count : nat) (m : device_mem) : frontier_state_t * device_mem :=
  let '(cur, m) := bitmap_init init vertex_count m in
  let '(last, m) := bitmap_init init vertex_count m in
  ({| frontier_list := frontier_list state; count := count state;
      current := cur; visited_last := last; len := vertex_count;
      list_len := list_len state; boundaries := boundaries state |}, m).

Definition frontier_finalize_gpu (engine_sorted : bool)
    (state : frontier_state_t) (m : device_mem) : option device_mem :=
  m ← (if engine_sorted then totem_free (boundaries state) m else Some m);
  m ← totem_free (frontier_list state) m;
  m ← totem_free (count state) m;
  m ← bitmap_finalize (visited_last state) m;
  bitmap_finalize (current state) m.

Definition frontier_finalize_cpu (state : frontier_state_t) (m : device_mem)
    : option device_mem :=
  m ← bitmap_finalize (visited_last state) m;
  bitmap_finalize (current state) m.

(** The frontier [build_state] with the reduced capacity [list_len = 2],
    as [frontier_init_gpu] sets it up under [PAR_SORTED_ASC]: the buffer
    keeps its 40 cells. *)
Definition reduced_state : frontier_state_t := with_list_len 2 build_state.

(** A frontier of two vertices whose list has two cells and the capacity
    [list_len = 1]. *)
Definition short_state : frontier_state_t :=
  {| frontier_list := 3; count := 4; current := 0; visited_last := 1;
     len := 2; list_len := 1; boundaries := 5 |}.

Definition short_mem : gmap nat (list Z) :=
  <[0 := [3]%Z]> (<[3 := [7; 7]%Z]> (<[4 := [9]%Z]> ∅)).

End Frontier.

(* ===================================================================== *)
(** ** Engine interface (src/unnamed/part_001)                           *)
(* ===================================================================== *)

Module Engine.
Local Open Scope Z_scope.

(** The address of element [addr_offset] of the array [addr_block]. *)
Record address := Addr { addr_block : nat; addr_offset : Z }.

(** The field of an outbox table that [ENGINE_FETCH_DST] reads. *)
Record grooves_box_table_t := { values : nat }.

(** The allocator state: the blocks handed out so far. *)
Abbreviation heap := (gset nat).

Section FetchDst.
(** [GET_PARTITION_ID], [GET_VERTEX_ID] and [GROOVES_BOX_INDEX] are
    macros of the partition and communication headers, which are not
    among the given sources; the macro is modelled over any three such
    functions. *)
Variable GET_PARTITION_ID : Z → Z.
Variable GET_VERTEX_ID : Z → Z.
Variable GROOVES_BOX_INDEX : Z → Z → Z → Z.

(** [_outbox[box_id]]. *)
Definition box_at (_outbox : list grooves_box_table_t) (box_id : Z)
    : option grooves_box_table_t :=
  if decide (0 ≤ box_id) then _outbox !! Z.to_nat box_id else None.

(** The macro [ENGINE_FETCH_DST(_pid, _nbr, _outbox, _pstate, _pcount,
    _dst, _type)]: the value assigned to [_dst], and the allocator state
    it leaves behind. *)
Definition ENGINE_FETCH_DST (_pid _nbr : Z)
    (_outbox : list grooves_box_table_t) (_pstate : nat) (_pcount : Z)
    (h : heap) : option (address * heap) :=
  let nbr_pid := GET_PARTITION_ID _nbr in
  if decide (nbr_pid ≠ _pid) then
    let box_id := GROOVES_BOX_INDEX nbr_pid _pid _pcount in
    box ← box_at _outbox box_id;
    Some (Addr (values box) (GET_VERTEX_ID _nbr), h)
  else
    Some (Addr _pstate (GET_VERTEX_ID _nbr), h).

(** Modelled from the spec: a partition has one outbox per peer
    partition.  The outbox table of partition [_pid] holds a box for every
    other partition [r], at the index [GROOVES_BOX_INDEX r _pid _pcount];
    different partitions have different boxes; and every box has a values
    array of its own, which is not the state array [_pstate]. *)
Definition outbox_table_ok (_pid : Z) (_outbox : list grooves_box_table_t)
    (_pstate : nat) (_pcount : Z) : Prop :=
  (∀ r, 0 ≤ r < _pcount → r ≠ _pid →
     0 ≤ GROOVES_BOX_INDEX r _pid _pcount < Z.of_nat (length _outbox)) ∧
  (∀ r r', 0 ≤ r < _pcount → 0 ≤ r' < _pcount → r ≠ _pid → r' ≠ _pid →
     GROOVES_BOX_INDEX r _pid _pcount = GROOVES_BOX_INDEX r' _pid _pcount →
     r = r') ∧
  NoDup (_pstate :: (values <$> _outbox)).
End FetchDst.

(** An instance for the examples: three partitions, the partition id in
    the bits above bit 29 of a neighbour reference, and the outboxes of a
    partition numbered cyclically from its successor. *)
Definition example_partition_id (nbr : Z) : Z := Z.shiftr nbr 29.
Definition example_vertex_id (nbr : Z) : Z := Z.land nbr (Z.ones 29).
Definition example_box_index (remote local pcount : Z) : Z :=
  (remote - (local + 1) + pcount) mod pcount.
Definition example_outbox : list grooves_box_table_t :=
  [ {| values := 10 |}; {| values := 11 |} ].

End Engine.

(* ===================================================================== *)
(** * Part II: lemmas and theorems                                       *)
(* ===================================================================== *)

(** ** Loops *)

Lemma for_each_app {I S : Type} (body : I → S → option S) xs ys s :
  for_each body (xs ++ ys) s = s' ← for_each body xs s; for_each body ys s'.
Proof.
  revert s. induction xs as [|x xs IH]; intros s; simpl; [done|].
  destruct (body x s) as [s1|]; simpl; [apply IH | done].
Qed.

(** Invariant rule for a counted loop [for (i = lo; i < lo + n; i++)]. *)
Lemma for_seqZ_inv {S : Type} (P : Z → S → Prop) (body : Z → S → option S)
    (lo n : Z) (s0 : S) :
  (0 ≤ n)%Z →
  P lo s0 →
  (∀ i s, (lo ≤ i < lo + n)%Z → P i s → ∃ s', body i s = Some s' ∧ P (i + 1)%Z s') →
  ∃ s', for_each body (seqZ lo n) s0 = Some s' ∧ P (lo + n)%Z s'.
Proof.
  intros Hn. pattern n. revert n Hn. apply natlike_ind.
  - intros H0 _. exists s0. rewrite Z.add_0_r. done.
  - intros n Hn IH H0 Hstep. rewrite <- Z.add_1_r in *.
    destruct IH as (s1 & Hrun & HP); [done| |].
    { intros i s Hi. apply Hstep. lia. }
    destruct (Hstep (lo + n)%Z s1) as (s2 & Hb & HP2); [lia|done|].
    exists s2. rewrite seqZ_app by lia. rewrite for_each_app, Hrun. simpl.
    rewrite Z.add_0_l, Hb. simpl. split; [done|].
    by rewrite Z.add_assoc.
Qed.

(** ** Arrays *)

Section Arrays.
Local Open Scope Z_scope.

Lemma load_lookup (a : list Z) (i : nat) : load a (Z.of_nat i) = a !! i.
Proof. unfold load. rewrite decide_True by lia. by rewrite Nat2Z.id. Qed.

Lemma load_Some_bound (a : list Z) i x :
load a i = Some x → 0 ≤ i < Z.of_nat (length a).
Proof.
unfold load. case_decide; [|done]. intros Hl%lookup_lt_Some. lia.
Qed.

Lemma load_is_Some (a : list Z) i :
0 ≤ i < Z.of_nat (length a) → ∃ x, load a i = Some x.
Proof.
intros Hi. unfold load. rewrite decide_True by lia.
destruct (lookup_lt_is_Some_2 a (Z.to_nat i)) as [x Hx]; [lia|]. eauto.
Qed.

Lemma store_is_Some (a : list Z) i x :
0 ≤ i < Z.of_nat (length a) → store a i x = Some (<[Z.to_nat i := x]> a).
Proof. intros Hi. unfold store. by rewrite decide_True. Qed.

Lemma store_length (a a' : list Z) i x :
store a i x = Some a' → length a' = length a.
Proof.
unfold store. case_decide; [|done]. intros [= <-]. apply length_insert.
Qed.

Lemma load_store (a a' : list Z) i x j :
store a i x = Some a' →
load a' j = if decide (j = i) then Some x else load a j.
Proof.
unfold store. case_decide as Hi; [|done]. intros [= <-].
unfold load. case_decide as Hj.
- case_decide as Hji.
  + subst j. apply list_lookup_insert_eq. lia.
  + apply list_lookup_insert_ne. lia.
- case_decide; [lia|done].
Qed.

Lemma vid_wrap_small x : 0 ≤ x < vid_modulus → vid_wrap x = x.
Proof. intros Hx. unfold vid_wrap. by apply Z.mod_small. Qed.

End Arrays.

(** ** APSP: special cases *)

Module ApspFacts.
Import Apsp.
Local Open Scope Z_scope.

Lemma length_totem_malloc uninit n :
  0 ≤ n → Z.of_nat (length (totem_malloc uninit n)) = n.
Proof. intros Hn. unfold totem_malloc. rewrite length_fmap, length_seq. lia. Qed.

(** A loop that stores the same value into [n] consecutive cells. *)
Lemma fill_run (X base n : Z) (d : list Z) :
  0 ≤ base → 0 ≤ n → base + n ≤ Z.of_nat (length d) →
  ∃ d', for_each (λ dest d, store d (base + dest) X) (seqZ 0 n) d = Some d' ∧
        length d' = length d ∧
        ∀ k, load d' k = if decide (base ≤ k < base + n) then Some X
                         else load d k.
Proof.
  intros Hb Hn Hlen.
  destruct (for_seqZ_inv
    (λ j d', length d' = length d ∧
       ∀ k, load d' k = if decide (base ≤ k < base + j) then Some X
                        else load d k)
    (λ dest d, store d (base + dest) X) 0 n d) as (d' & Hrun & Hl & Hk);
    [done| | |].
  - split; [done|]. intros k. by rewrite decide_False by lia.
  - intros j s Hj [Hl Hk]. rewrite store_is_Some by lia.
    eexists; split; [done|]. split; [by rewrite length_insert|].
    intros k. erewrite load_store by (apply store_is_Some; lia).
    rewrite Hk. repeat case_decide; try done; lia.
  - exists d'. rewrite Z.add_0_l in Hk. done.
Qed.

Section Edgeless.
Variable WEIGHT_MAX : Z.

Lemma edgeless_row_run (N src : Z) (d : list Z) :
  0 ≤ src < N → N * N < vid_modulus → Z.of_nat (length d) = N * N →
  ∃ d', edgeless_row WEIGHT_MAX N src d = Some d' ∧
        length d' = length d ∧
        ∀ k, load d' k =
             if decide (k = src * N + src) then Some 0
             else if decide (src * N ≤ k < src * N + N) then Some WEIGHT_MAX
             else load d k.
Proof.
  intros Hs Hfit Hlen. unfold edgeless_row.
  rewrite vid_wrap_small by nia.
  destruct (fill_run WEIGHT_MAX (src * N) N d) as (d1 & -> & Hl1 & Hk1);
    [nia|lia|nia|]. simpl.
  rewrite store_is_Some by nia. eexists; split; [done|].
  split; [by rewrite length_insert|].
  intros k. erewrite load_store by (apply store_is_Some; nia).
  by rewrite Hk1.
Qed.

Lemma edgeless_fill_run (N : Z) (d : list Z) :
  0 ≤ N → N * N < vid_modulus → Z.of_nat (length d) = N * N →
  ∃ d', for_each (edgeless_row WEIGHT_MAX N) (seqZ 0 N) d = Some d' ∧
        edgeless_matrix WEIGHT_MAX N d'.
Proof.
  intros HN Hfit Hlen.
  destruct (for_seqZ_inv
    (λ s d', Z.of_nat (length d') = N * N ∧
       ∀ u v, 0 ≤ u < s → 0 ≤ v < N →
         load d' (u * N + v) = Some (if decide (u = v) then 0 else WEIGHT_MAX))
    (edgeless_row WEIGHT_MAX N) 0 N d) as (d' & Hrun & Hl & Hk);
    [done| | |].
  - split; [done|]. intros; lia.
  - intros src s Hs [Hl Hk].
    destruct (edgeless_row_run N src s) as (s' & -> & Hl' & Hk');
      [lia|done|done|].
    eexists; split; [done|]. split; [lia|].
    intros u v Hu Hv. rewrite Hk'.
    destruct (decide (u = src)) as [->|Hne].
    + repeat case_decide; try done; nia.
    + rewrite decide_False by nia. rewrite decide_False by nia.
      apply Hk; lia.
  - exists d'. split; [done|]. split; [done|].
    intros u v Hu Hv. apply Hk; lia.
Qed.
End Edgeless.

Section SpecialCases.
Variable WEIGHT_MAX : Z.
Variable uninit : nat → Z.

Lemma check_special_cases_failure graph p0 p fin :
  check_special_cases WEIGHT_MAX uninit graph p0 = Some (FAILURE, p, fin) →
  p = NULL ∧ fin = true.
Proof.
  unfold check_special_cases. intros H.
  repeat (case_match; simplify_option_eq; try done).
Qed.

Lemma check_special_cases_unweighted g p0 :
  weighted g = false →
  check_special_cases WEIGHT_MAX uninit (Some g) p0 =
    Some (FAILURE, NULL, true).
Proof. intros Hw. unfold check_special_cases. by rewrite Hw. Qed.
End SpecialCases.

(** C7, as amended: for every weighted graph with exactly one vertex, the
    special-case check answers directly, and [apsp_cpu] and [apsp_gpu]
    return [SUCCESS] with a one-entry result holding distance [0]; the
    device trace is not consulted. *)
Theorem apsp_single_vertex (WEIGHT_MAX : Z) (uninit : nat → Z)
    (tr : list dev_event) (g : graph_t) (path_ret : pointer) :
  weighted g = true →
  vertex_count g = 1 →
  check_special_cases WEIGHT_MAX uninit (Some g) path_ret =
    Some (SUCCESS, Some [0], true) ∧
  apsp_cpu WEIGHT_MAX uninit (Some g) path_ret = Some (SUCCESS, Some [0]) ∧
  apsp_gpu WEIGHT_MAX uninit tr (Some g) path_ret = Some (SUCCESS, Some [0]).
Proof.
  intros Hw Hv.
  assert (Hc : check_special_cases WEIGHT_MAX uninit (Some g) path_ret =
               Some (SUCCESS, Some [0], true)).
  { unfold check_special_cases. rewrite Hw, Hv. reflexivity. }
  unfold apsp_cpu, apsp_gpu. by rewrite Hc.
Qed.

Lemma apsp_single_vertex_witness :
  let g := {| vertices := [0; 0]; edges := []; weights := [];
              vertex_count := 1; edge_count := 0; weighted := true |} in
  check_special_cases FLT_MAX zeroed (Some g) NULL =
    Some (SUCCESS, Some [0], true) ∧
  apsp_cpu FLT_MAX zeroed (Some g) NULL = Some (SUCCESS, Some [0]) ∧
  apsp_gpu FLT_MAX zeroed [Status false] (Some g) NULL =
    Some (SUCCESS, Some [0]).
Proof.
  intros g.
  apply (apsp_single_vertex FLT_MAX zeroed [Status false] g NULL);
    reflexivity.
Defined.

(** C7 as stated fails: a single-vertex graph that is not weighted gets
    [FAILURE] and [NULL], not a zero distance. *)
Lemma apsp_single_vertex_unweighted :
  vertex_count unweighted_single = 1 ∧
  apsp_cpu FLT_MAX zeroed (Some unweighted_single) NULL =
    Some (FAILURE, NULL) ∧
  apsp_gpu FLT_MAX zeroed [] (Some unweighted_single) NULL =
    Some (FAILURE, NULL) ∧
  ¬ (∃ d, apsp_cpu FLT_MAX zeroed (Some unweighted_single) NULL =
            Some (SUCCESS, Some d)).
Proof.
  split; [reflexivity|]. split; [reflexivity|]. split; [reflexivity|].
  intros [d Hd]. vm_compute in Hd. discriminate Hd.
Qed.

(** C6, as amended: for every weighted graph with [N ≥ 1] vertices and no
    edges, where [N * N] fits the vertex-id type, the special-case check
    itself builds the result, and both entry points return [SUCCESS] with
    the matrix that is [0] on the diagonal and [WEIGHT_MAX] elsewhere; the
    device trace is not consulted. *)
Theorem apsp_edgeless (WEIGHT_MAX : Z) (uninit : nat → Z)
    (tr : list dev_event) (g : graph_t) (path_ret : pointer) :
  weighted g = true →
  1 ≤ vertex_count g →
  edge_count g = 0 →
  vertex_count g * vertex_count g < vid_modulus →
  ∃ d, check_special_cases WEIGHT_MAX uninit (Some g) path_ret =
         Some (SUCCESS, Some d, true) ∧
       apsp_cpu WEIGHT_MAX uninit (Some g) path_ret = Some (SUCCESS, Some d) ∧
       apsp_gpu WEIGHT_MAX uninit tr (Some g) path_ret =
         Some (SUCCESS, Some d) ∧
       edgeless_matrix WEIGHT_MAX (vertex_count g) d.
Proof.
  intros Hw HN He Hfit.
  assert (∃ d, check_special_cases WEIGHT_MAX uninit (Some g) path_ret =
                 Some (SUCCESS, Some d, true) ∧
               edgeless_matrix WEIGHT_MAX (vertex_count g) d)
    as (d & Hc & Hd).
  { unfold check_special_cases. rewrite Hw. simpl.
    destruct (Z.leb_spec (vertex_count g) 0) as [?|_]; [lia|].
    destruct (Z.eqb_spec (vertex_count g) 1) as [H1|H1].
    - exists [0]. split; [reflexivity|]. rewrite H1. split; [reflexivity|].
      intros u v Hu Hv. assert (u = 0) as -> by lia.
      assert (v = 0) as -> by lia. reflexivity.
    - destruct (Z.ltb_spec 0 (vertex_count g)) as [_|?]; [|lia].
      rewrite He. simpl.
      destruct (edgeless_fill_run WEIGHT_MAX (vertex_count g)
                  (totem_malloc uninit
                     (vid_wrap (vertex_count g * vertex_count g))))
        as (d & Hrun & Hd); [lia|done| |].
      { rewrite vid_wrap_small by nia. apply length_totem_malloc. nia. }
      exists d. rewrite Hrun. done. }
  exists d. unfold apsp_cpu, apsp_gpu. rewrite Hc. done.
Qed.

Lemma apsp_edgeless_witness :
  let g := {| vertices := [0; 0; 0]; edges := []; weights := [];
              vertex_count := 2; edge_count := 0; weighted := true |} in
  ∃ d, check_special_cases FLT_MAX zeroed (Some g) NULL =
         Some (SUCCESS, Some d, true) ∧
       apsp_cpu FLT_MAX zeroed (Some g) NULL = Some (SUCCESS, Some d) ∧
       apsp_gpu FLT_MAX zeroed [Status false] (Some g) NULL =
         Some (SUCCESS, Some d) ∧
       edgeless_matrix FLT_MAX (vertex_count g) d.
Proof.
  intros g.
  apply (apsp_edgeless FLT_MAX zeroed [Status false] g NULL);
    [reflexivity | simpl; lia | reflexivity | reflexivity].
Defined.

(** C6 as stated fails: an edgeless graph that is not weighted gets
    [FAILURE] and [NULL], not a distance matrix. *)
Lemma apsp_edgeless_unweighted :
  1 ≤ vertex_count unweighted_pair ∧
  edge_count unweighted_pair = 0 ∧
  apsp_cpu FLT_MAX zeroed (Some unweighted_pair) NULL =
    Some (FAILURE, NULL) ∧
  apsp_gpu FLT_MAX zeroed [] (Some unweighted_pair) NULL =
    Some (FAILURE, NULL) ∧
  ¬ (∃ d, apsp_cpu FLT_MAX zeroed (Some unweighted_pair) NULL =
            Some (SUCCESS, Some d)).
Proof.
  split; [simpl; lia|]. split; [reflexivity|].
  split; [reflexivity|]. split; [reflexivity|].
  intros [d Hd]. vm_compute in Hd. discriminate Hd.
Qed.

(** C9: a graph whose [weighted] flag is false makes both entry points
    return [FAILURE] and set the output pointer to [NULL], whatever its
    vertex and edge counts are: the test on the flag comes before the
    single-vertex and the edgeless special cases. *)
Theorem apsp_unweighted_fails (WEIGHT_MAX : Z) (uninit : nat → Z)
    (tr : list dev_event) (g : graph_t) (path_ret : pointer) :
  weighted g = false →
  apsp_cpu WEIGHT_MAX uninit (Some g) path_ret = Some (FAILURE, NULL) ∧
  apsp_gpu WEIGHT_MAX uninit tr (Some g) path_ret = Some (FAILURE, NULL).
Proof.
  intros Hw. unfold apsp_cpu, apsp_gpu.
  by rewrite check_special_cases_unweighted.
Qed.

Lemma apsp_unweighted_fails_witness :
  weighted unweighted_single = false ∧
  apsp_cpu FLT_MAX zeroed (Some unweighted_single) (Some [7]) =
    Some (FAILURE, NULL) ∧
  apsp_gpu FLT_MAX zeroed [] (Some unweighted_single) (Some [7]) =
    Some (FAILURE, NULL).
Proof.
  split; [reflexivity|].
  apply (apsp_unweighted_fails FLT_MAX zeroed [] unweighted_single (Some [7])).
  reflexivity.
Defined.

(** C8: whenever [apsp_cpu] or [apsp_gpu] returns [FAILURE], the output
    pointer has been set to [NULL]; the caller never sees a partly filled
    distance matrix. *)
Theorem apsp_failure_null (WEIGHT_MAX : Z) (uninit : nat → Z)
    (tr : list dev_event) (graph : option graph_t) (path_ret p : pointer) :
  apsp_cpu WEIGHT_MAX uninit graph path_ret = Some (FAILURE, p) ∨
  apsp_gpu WEIGHT_MAX uninit tr graph path_ret = Some (FAILURE, p) →
  p = NULL.
Proof.
  unfold apsp_cpu, apsp_gpu. intros [H|H].
  - destruct (check_special_cases _ _ graph path_ret)
      as [[[r q] fin]|] eqn:Hc; [|done]. simpl in H.
    destruct fin.
    + inversion H; subst. by apply check_special_cases_failure in Hc as [? _].
    + repeat (simplify_option_eq; try case_match; try done).
  - destruct (check_special_cases _ _ graph path_ret)
      as [[[r q] fin]|] eqn:Hc; [|done]. simpl in H.
    destruct fin.
    + inversion H; subst. by apply check_special_cases_failure in Hc as [? _].
    + destruct graph as [g|]; [|done]. simpl in H.
      destruct (initialize_gpu tr) as [[[] tr1]|]; simpl in H; [| |done].
      * destruct (sources_loop _ _ _ _) as [[[] d]|]; simpl in H;
          by inversion H.
      * by inversion H.
Qed.

Lemma apsp_failure_null_witness :
  apsp_gpu FLT_MAX zeroed failing_trace (Some weighted_pair) (Some [7]) =
    Some (FAILURE, NULL) ∧
  NULL = NULL.
Proof.
  split; [vm_compute; reflexivity|].
  apply (apsp_failure_null FLT_MAX zeroed failing_trace (Some weighted_pair)
           (Some [7]) NULL).
  right. vm_compute. reflexivity.
Defined.

(** ** APSP: rounding of [weight_t] *)

Lemma round_at_cases e s :
  0 ≤ e →
  ∃ q r up, s = q * 2 ^ e + r ∧ 0 ≤ r < 2 ^ e ∧
    round_at e s = (q + (if up : bool then 1 else 0)) * 2 ^ e ∧
    (up = true ↔ 2 ^ (e - 1) < r ∨ (r = 2 ^ (e - 1) ∧ Z.odd q = true)) ∧
    q = s / 2 ^ e.
Proof.
  intros He. assert (0 < 2 ^ e) by (apply Z.pow_pos_nonneg; lia).
  exists (s / 2 ^ e), (s mod 2 ^ e).
  exists ((2 ^ (e - 1) <? s mod 2 ^ e) ||
          ((s mod 2 ^ e =? 2 ^ (e - 1)) && Z.odd (s / 2 ^ e))).
  split; [rewrite Z.mul_comm; apply Z.div_mod; lia|].
  split; [apply Z.mod_pos_bound; lia|].
  split.
  - unfold round_at. cbv zeta. by case_match; rewrite ?Z.add_0_r.
  - split; [|done]. rewrite orb_true_iff, andb_true_iff, Z.ltb_lt, Z.eqb_eq.
    done.
Qed.

(** Rounding at a fixed exponent is monotone. *)
Lemma round_at_mono e s s' : 0 ≤ e → s ≤ s' → round_at e s ≤ round_at e s'.
Proof.
  intros He Hs. assert (0 < 2 ^ e) as Hp by (apply Z.pow_pos_nonneg; lia).
  destruct (round_at_cases e s He) as (q & r & up & Hs1 & Hr & -> & Hup & Hq).
  destruct (round_at_cases e s' He)
    as (q' & r' & up' & Hs1' & Hr' & -> & Hup' & Hq').
  assert (q ≤ q') as Hqq by (subst q q'; by apply Z.div_le_mono).
  destruct (decide (q = q')) as [<-|Hne].
  - assert (r ≤ r') by lia.
    destruct up; [|destruct up'; nia].
    assert (up' = true) as ->; [|lia].
    apply Hup'. destruct (proj1 Hup eq_refl) as [?|[? ?]]; [left; lia|].
    destruct (decide (r' = r)) as [->|?]; [by right|left; lia].
  - assert (q + 1 ≤ q') by lia.
    transitivity ((q + 1) * 2 ^ e); [destruct up; nia|].
    transitivity (q' * 2 ^ e); [nia|destruct up'; nia].
Qed.

(** Rounding stays within the binade, its upper end included. *)
Lemma round_at_bounds e s :
  0 ≤ e → 2 ^ (23 + e) ≤ s < 2 ^ (24 + e) →
  2 ^ (23 + e) ≤ round_at e s ≤ 2 ^ (24 + e).
Proof.
  intros He Hs. assert (0 < 2 ^ e) as Hp by (apply Z.pow_pos_nonneg; lia).
  rewrite !Z.pow_add_r in * by lia.
  destruct (round_at_cases e s He) as (q & r & up & Hs1 & Hr & -> & Hup & Hq).
  assert (2 ^ 23 ≤ q < 2 ^ 24).
  { subst q. split.
    - apply Z.div_le_lower_bound; lia.
    - apply Z.div_lt_upper_bound; lia. }
  destruct up; nia.
Qed.

(** A multiple of [2^e] is not changed. *)
Lemma round_at_multiple e q : 1 ≤ e → round_at e (q * 2 ^ e) = q * 2 ^ e.
Proof.
  intros He. assert (0 < 2 ^ e) by (apply Z.pow_pos_nonneg; lia).
  assert (0 < 2 ^ (e - 1)) by (apply Z.pow_pos_nonneg; lia).
  unfold round_at. cbv zeta.
  rewrite Z.mod_mul, Z.div_mul by lia.
  rewrite (proj2 (Z.ltb_ge _ _)) by lia.
  by rewrite (proj2 (Z.eqb_neq _ _)) by lia.
Qed.

Lemma log2_window s :
  2 ^ 24 ≤ s →
  1 ≤ Z.log2 s - 23 ∧
  2 ^ (23 + (Z.log2 s - 23)) ≤ s < 2 ^ (24 + (Z.log2 s - 23)).
Proof.
  intros Hs. assert (0 < s) as Hpos by lia.
  pose proof (Z.log2_spec s Hpos) as [Hlo Hhi].
  assert (24 ≤ Z.log2 s).
  { apply Z.log2_le_pow2; lia. }
  split; [lia|].
  replace (23 + (Z.log2 s - 23)) with (Z.log2 s) by lia.
  replace (24 + (Z.log2 s - 23)) with (Z.succ (Z.log2 s)) by lia. done.
Qed.

Lemma round_mag_mono s s' : 0 ≤ s ≤ s' → round_mag s ≤ round_mag s'.
Proof.
  intros [Hs0 Hs]. unfold round_mag.
  destruct (Z.ltb_spec s' (2 ^ 24)) as [Hs'|Hs'].
  { rewrite (proj2 (Z.ltb_lt s (2 ^ 24))) by lia. done. }
  destruct (log2_window s' Hs') as (He' & Hw').
  assert (0 ≤ Z.log2 s' - 23) as He0' by lia.
  pose proof (round_at_bounds (Z.log2 s' - 23) s' He0' Hw') as Hb'.
  assert (2 ^ 24 ≤ 2 ^ (23 + (Z.log2 s' - 23))) as Hlow.
  { apply Z.pow_le_mono_r; lia. }
  destruct (Z.ltb_spec s (2 ^ 24)) as [Hsm|Hsm].
  { assert (2 ^ 24 < weight_inf) by reflexivity.
    apply Z.min_glb; lia. }
  destruct (log2_window s Hsm) as (He & Hw).
  assert (0 ≤ Z.log2 s - 23) as He0 by lia.
  pose proof (round_at_bounds (Z.log2 s - 23) s He0 Hw) as Hb.
  apply Z.min_le_compat_l.
  assert (Z.log2 s ≤ Z.log2 s') as Hlog by (by apply Z.log2_le_mono).
  destruct (decide (Z.log2 s = Z.log2 s')) as [Heq|Hne].
  - rewrite Heq. apply round_at_mono; lia.
  - etrans; [apply Hb|]. etrans; [|apply Hb'].
    apply Z.pow_le_mono_r; lia.
Qed.

(** Rounding a rounded magnitude changes nothing. *)
Lemma round_mag_idem s : round_mag (round_mag s) = round_mag s.
Proof.
  remember (round_mag s) as t eqn:Ht. unfold round_mag in Ht.
  destruct (Z.ltb_spec s (2 ^ 24)) as [Hs|Hs].
  { subst t. unfold round_mag. by rewrite (proj2 (Z.ltb_lt s (2 ^ 24))). }
  destruct (log2_window s Hs) as (He & Hw).
  set (e := Z.log2 s - 23) in *.
  assert (0 ≤ e) as He0 by lia.
  pose proof (round_at_bounds e s He0 Hw) as Hb.
  destruct (round_at_cases e s He0) as (q & r & up & _ & _ & Hq & _).
  set (q' := q + (if up then 1 else 0)) in *.
  assert (0 < 2 ^ e) as Hp by (apply Z.pow_pos_nonneg; lia).
  assert (2 ^ 24 ≤ 2 ^ (23 + e)) as Hlow by (apply Z.pow_le_mono_r; lia).
  destruct (Z.min_spec weight_inf (round_at e s)) as [[Hlt Hm]|[Hle Hm]];
    rewrite Hm in Ht; subst t; [reflexivity|].
  unfold round_mag. rewrite (proj2 (Z.ltb_ge _ _)) by lia.
  rewrite Hq in *. rewrite !Z.pow_add_r in Hb by lia.
  assert (2 ^ 23 ≤ q' ≤ 2 ^ 24) as Hq' by nia.
  destruct (decide (q' = 2 ^ 24)) as [Heq|Hne].
  - rewrite Heq in *. rewrite <- Z.pow_add_r in * by lia.
    rewrite Z.log2_pow2 by lia.
    replace (24 + e - 23) with (1 + e) by lia.
    replace (2 ^ (24 + e)) with (2 ^ 23 * 2 ^ (1 + e)) in *
      by (rewrite <- Z.pow_add_r by lia; f_equal; lia).
    rewrite round_at_multiple by lia. lia.
  - assert (Z.log2 (q' * 2 ^ e) = 23 + e) as ->.
    { apply Z.log2_unique; [lia|].
      replace (Z.succ (23 + e)) with (24 + e) by lia.
      rewrite !Z.pow_add_r by lia. nia. }
    replace (23 + e - 23) with e by lia.
    rewrite round_at_multiple by lia. lia.
Qed.

Lemma round_weight_nonneg s : 0 ≤ s → round_weight s = round_mag s.
Proof.
  intros Hs. unfold round_weight. by rewrite (proj2 (Z.ltb_ge _ _)) by lia.
Qed.

Lemma round_mag_nonneg s : 0 ≤ s → 0 ≤ round_mag s.
Proof.
  intros Hs. change 0 with (round_mag 0) at 1. by apply round_mag_mono.
Qed.

(** Rounding is monotone on non-negative numbers. *)
Lemma round_weight_mono s s' :
  0 ≤ s ≤ s' → round_weight s ≤ round_weight s'.
Proof.
  intros Hs. rewrite !round_weight_nonneg by lia. by apply round_mag_mono.
Qed.

Lemma weight_add_mono a a' b b' :
  0 ≤ a ≤ a' → 0 ≤ b ≤ b' → weight_add a b ≤ weight_add a' b'.
Proof. intros Ha Hb. apply round_weight_mono. lia. Qed.

Lemma weight_add_nonneg a b : 0 ≤ a → 0 ≤ b → 0 ≤ weight_add a b.
Proof.
  intros Ha Hb. unfold weight_add. rewrite round_weight_nonneg by lia.
  apply round_mag_nonneg. lia.
Qed.

(** A sum is a value of [weight_t]. *)
Lemma weight_add_float a b :
  0 ≤ a → 0 ≤ b → round_weight (weight_add a b) = weight_add a b.
Proof.
  intros Ha Hb. pose proof (weight_add_nonneg a b Ha Hb) as Hs.
  rewrite round_weight_nonneg by done. unfold weight_add.
  rewrite round_weight_nonneg by lia. apply round_mag_idem.
Qed.

Lemma weight_add_0_l c : round_weight c = c → weight_add 0 c = c.
Proof. intros Hc. unfold weight_add. by rewrite Z.add_0_l. Qed.

Lemma weight_add_0_r b : round_weight b = b → weight_add b 0 = b.
Proof. intros Hb. unfold weight_add. by rewrite Z.add_0_r. Qed.

(** Adding a non-negative weight does not make a weight smaller. *)
Lemma weight_add_ge_l a b :
  0 ≤ a → 0 ≤ b → round_weight a = a → a ≤ weight_add a b.
Proof.
  intros Ha Hb Hrep. rewrite <- Hrep at 1. apply round_weight_mono. lia.
Qed.

Lemma weight_add_ge_r a b :
  0 ≤ a → 0 ≤ b → round_weight b = b → b ≤ weight_add a b.
Proof.
  intros Ha Hb Hrep. rewrite <- Hrep at 1. apply round_weight_mono. lia.
Qed.

(** ** APSP: the Floyd-Warshall loops of [apsp_cpu] *)

Section FloydWarshall.
Variable WEIGHT_MAX : Z.
Variable g : graph_t.
Hypothesis Hwf : graph_wf WEIGHT_MAX g.
Hypothesis Hmax : 0 ≤ WEIGHT_MAX.
Hypothesis Hrep : round_weight WEIGHT_MAX = WEIGHT_MAX.
Hypothesis Hfit : vertex_count g * vertex_count g < vid_modulus.

Local Abbreviation N := (vertex_count g).
Local Abbreviation sound := (Apsp.sound WEIGHT_MAX g).
Local Abbreviation attained_at := (Apsp.attained_at WEIGHT_MAX g).
Local Abbreviation attained := (Apsp.attained WEIGHT_MAX g).
Local Abbreviation in_round := (Apsp.in_round WEIGHT_MAX g).
Local Abbreviation complete_at := (Apsp.complete_at WEIGHT_MAX g).
Local Abbreviation complete := (Apsp.complete WEIGHT_MAX g).
Local Abbreviation improves := (Apsp.improves WEIGHT_MAX g).
Local Abbreviation init_entry := (Apsp.init_entry WEIGHT_MAX g).

Lemma is_edge_src u v w : is_edge g u v w → 0 ≤ u < N.
Proof.
  intros (first & last & e & H1 & H2 & _).
  apply load_Some_bound in H1, H2.
  rewrite (wf_vertices_len _ _ Hwf) in *. lia.
Qed.

Lemma walk_weight_nonneg u v c : walk g u v c → 0 ≤ c.
Proof.
  induction 1 as [|u x v w c He _ IH]; [done|].
  apply (wf_edge_weight _ _ Hwf) in He. lia.
Qed.

Lemma iwalk_weight_nonneg u xs v c : iwalk g u xs v c → 0 ≤ c.
Proof.
  induction 1 as [u v w He|u x xs v w c He _ IH];
    apply (wf_edge_weight _ _ Hwf) in He; lia.
Qed.

Lemma walk_dst u v c : walk g u v c → 0 ≤ u < N ∧ 0 ≤ v < N.
Proof.
  induction 1 as [|u x v w c He _ IH]; [done|].
  split; [by eapply is_edge_src|tauto].
Qed.

Lemma walk_app u x v b c : walk g u x b → walk g x v c → walk g u v (b + c).
Proof.
  induction 1 as [|u y x w b He _ IH]; intros Hc; [done|].
  rewrite <- Z.add_assoc. eapply walk_cons; [done|]. by apply IH.
Qed.

Lemma iwalk_walk u xs v c : iwalk g u xs v c → walk g u v c.
Proof.
  induction 1 as [u v w He|u x xs v w c He _ IH].
  - replace w with (w + 0) by lia. eapply walk_cons; [done|].
    apply walk_nil. by eapply (wf_edge_dst _ _ Hwf).
  - by eapply walk_cons.
Qed.

Lemma walk_iwalk u v c :
  walk g u v c → (u = v ∧ c = 0) ∨ ∃ xs, iwalk g u xs v c ∧ Forall (λ y, y < N) xs.
Proof.
  induction 1 as [|u x v w c He _ IH]; [by left|]. right.
  destruct IH as [[-> ->]|(xs & Hxs & Hall)].
  - exists []. rewrite Z.add_0_r. split; [by constructor|done].
  - exists (x :: xs). split; [by constructor|].
    constructor; [|done]. by eapply (wf_edge_dst _ _ Hwf).
Qed.

(** Splitting a walk through vertices below [k + 1] at the vertex [k]. *)
Lemma iwalk_split k u xs v c :
  iwalk g u xs v c → Forall (λ y, y < k + 1) xs →
  (∃ ys c', iwalk g u ys v c' ∧ Forall (λ y, y < k) ys ∧ c' ≤ c) ∨
  (∃ ys zs c1 c2, iwalk g u ys k c1 ∧ iwalk g k zs v c2 ∧
     Forall (λ y, y < k) ys ∧ Forall (λ y, y < k) zs ∧ c1 + c2 ≤ c).
Proof.
  induction 1 as [u v w He|u x xs v w c He Hw IH]; intros Hall.
  - left. exists [], w. split; [by constructor|]. split; [done|lia].
  - apply Forall_cons in Hall as [Hx Hall].
    destruct (IH Hall) as [(ys & c' & Hys & Hlt & Hle)
                          |(ys & zs & c1 & c2 & Hys & Hzs & Hly & Hlz & Hle)].
    + destruct (decide (x = k)) as [->|Hne].
      * right. exists [], ys, w, c'.
        split; [by constructor|]. split; [done|]. split; [done|].
        split; [done|lia].
      * left. exists (x :: ys), (w + c').
        split; [by constructor|]. split; [|lia].
        constructor; [lia|done].
    + pose proof (iwalk_weight_nonneg _ _ _ _ Hys).
      destruct (decide (x = k)) as [->|Hne].
      * right. exists [], zs, w, c2.
        split; [by constructor|]. split; [done|]. split; [done|].
        split; [done|lia].
      * right. exists (x :: ys), zs, (w + c1), c2.
        split; [by constructor|]. split; [done|].
        split; [constructor; [lia|done]|]. split; [done|lia].
Qed.

Lemma path_sum_mono k k' u v y :
  k ≤ k' → path_sum g k u v y → path_sum g k' u v y.
Proof.
  intros Hk Hy. revert Hk.
  destruct Hy as [? ? ? ? He|? m ? ? b c Hm Hb Hc]; intros Hk;
    [by constructor|].
  apply (path_sum_join g _ m); [lia|done..].
Qed.

Lemma path_sum_nonneg k u v y : path_sum g k u v y → 0 ≤ y.
Proof.
  induction 1 as [k u v w He|k m u v b c Hm _ IHb _ IHc].
  - apply (wf_edge_weight _ _ Hwf) in He. lia.
  - by apply weight_add_nonneg.
Qed.

Lemma path_sum_reachable k u v y : path_sum g k u v y → reachable g u v.
Proof.
  induction 1 as [k u v w He|k m u v b c Hm _ [cb IHb] _ [cc IHc]].
  - exists (w + 0). eapply walk_cons; [done|].
    apply walk_nil. by eapply (wf_edge_dst _ _ Hwf).
  - exists (cb + cc). by apply (walk_app _ m).
Qed.

(** A sum below the sentinel comes from an exact sum below the sentinel. *)
Lemma weight_add_below b c :
  0 ≤ b → 0 ≤ c → weight_add b c < WEIGHT_MAX → b + c < WEIGHT_MAX.
Proof.
  intros Hb Hc Hlt.
  destruct (decide (b + c < WEIGHT_MAX)) as [|Hge]; [done|].
  pose proof (round_weight_mono WEIGHT_MAX (b + c)) as Hm.
  rewrite Hrep in Hm. unfold weight_add in Hlt. lia.
Qed.

Lemma complete_at_mono k k' u v d :
  k ≤ k' → complete_at k' u v d → complete_at k u v d.
Proof.
  intros Hk H x Hx. destruct (H x Hx) as [Hp He]. split.
  - intros y Hy. apply Hp. by apply (path_sum_mono k).
  - intros Hex xs c Hw Hall. apply (He Hex xs); [done|].
    eapply Forall_impl; [done|]. simpl. lia.
Qed.

Lemma attained_in_round k d : attained k d → in_round k d.
Proof.
  intros Hatt u v Hu Hv. split; [|intros _; by apply Hatt].
  intros x Hx Hne Hlt. apply (path_sum_mono k); [lia|]. by apply (Hatt u v).
Qed.

Lemma in_round_attained k d : in_round k d → attained (k + 1) d.
Proof. intros Hround u v Hu Hv. by apply Hround. Qed.

Lemma idx_inj u v u' v' :
  0 ≤ v < N → 0 ≤ v' < N → u * N + v = u' * N + v' → u = u' ∧ v = v'.
Proof.
  intros Hv Hv' Heq.
  assert (u = u') as ->; [|lia].
  destruct (Z.lt_trichotomy u u') as [?|[?|?]]; [|done|]; nia.
Qed.

(** One execution of the innermost statement: the entry stays sound, no
    bound is lost, and the entry takes the walks through [k] into account. *)
Lemma relax_run k src dest d :
  0 ≤ k < N → 0 ≤ src < N → 0 ≤ dest < N →
  sound d → complete k d → in_round k d →
  ∃ d', relax N k src dest d = Some d' ∧ sound d' ∧ improves d d' ∧
        in_round k d' ∧ complete_at (k + 1) src dest d'.
Proof.
  intros Hk Hs Hd [Hlen Hsound] Hcomp Hround.
  destruct (Hsound src dest) as (a & Ha & Hra & Hfa & Hda & Hwa); [done..|].
  destruct (Hsound src k) as (b & Hb & Hrb & Hfb & Hdb & Hwb); [done..|].
  destruct (Hsound k dest) as (c & Hc & Hrc & Hfc & Hdc & Hwc); [done..|].
  unfold relax. rewrite !vid_wrap_small by nia.
  rewrite Ha, Hb, Hc. simpl.
  pose proof (weight_add_nonneg b c (proj1 Hrb) (proj1 Hrc)) as Hsum.
  assert (Hbc : weight_add b c < WEIGHT_MAX → b < WEIGHT_MAX ∧ c < WEIGHT_MAX).
  { intros Hlt.
    pose proof (weight_add_ge_l b c (proj1 Hrb) (proj1 Hrc) Hfb).
    pose proof (weight_add_ge_r b c (proj1 Hrb) (proj1 Hrc) Hfc). lia. }
  assert (Hpivot : src = k ∨ dest = k → Z.min a (weight_add b c) = a).
  { intros [Heq|Heq].
    - rewrite Heq in *. rewrite (Hdb eq_refl).
      rewrite Ha in Hc. injection Hc as <-.
      rewrite weight_add_0_l by done. lia.
    - rewrite Heq in *. rewrite (Hdc eq_refl).
      rewrite Ha in Hb. injection Hb as <-.
      rewrite weight_add_0_r by done. lia. }
  set (x := Z.min a (weight_add b c)) in *.
  set (d' := <[Z.to_nat (src * N + dest) := x]> d).
  assert (Hst : store d (src * N + dest) x = Some d')
    by (apply store_is_Some; nia).
  rewrite Hst. exists d'. split; [done|].
  assert (Hx : x = a ∨ (x = weight_add b c ∧ weight_add b c ≤ a)).
  { unfold x. lia. }
  split; [|split; [|split]].
  - split; [by rewrite (store_length _ _ _ _ Hst)|].
    intros u v Hu Hv. rewrite (load_store _ _ _ _ _ Hst).
    case_decide as Heq; [|by apply Hsound].
    apply idx_inj in Heq as [-> ->]; [|done..].
    exists x. split; [done|]. split; [lia|]. split; [|split].
    + destruct Hx as [->|[-> _]]; [done|].
      apply weight_add_float; lia.
    + intros Heq. pose proof (Hda Heq). lia.
    + intros Hex Hlt. destruct Hx as [Hx|[Hx Hle]]; rewrite Hx in *.
      * by apply Hwa.
      * destruct (Hbc Hlt) as [Hb' Hc'].
        pose proof (weight_add_below b c (proj1 Hrb) (proj1 Hrc) Hlt) as Hex'.
        rewrite (Hex src k dest b c (Hwb Hex Hb') (Hwc Hex Hc') Hex').
        apply (walk_app _ k); auto.
  - intros j u v Hu Hv Hj x' Hx'.
    rewrite (load_store _ _ _ _ _ Hst) in Hx'.
    case_decide as Heq; [|by apply Hj].
    apply idx_inj in Heq as [-> ->]; [|done..].
    injection Hx' as <-. destruct (Hj a Ha) as [Hp He]. split.
    + intros y Hy. pose proof (Hp y Hy). lia.
    + intros Hex xs w Hw Hall. pose proof (He Hex xs w Hw Hall). lia.
  - intros u v Hu Hv. destruct (Hround u v Hu Hv) as [Hnext Hnow].
    split.
    + intros x' Hx' Hne Hlt.
      rewrite (load_store _ _ _ _ _ Hst) in Hx'.
      case_decide as Heq; [|by apply Hnext].
      apply idx_inj in Heq as [-> ->]; [|done..].
      injection Hx' as <-.
      destruct (decide (src = k ∨ dest = k)) as [Hor|Hnor].
      { rewrite (Hpivot Hor) in *. by apply Hnext. }
      destruct Hx as [Hx|[Hx Hle]]; rewrite Hx in *; [by apply Hnext|].
      destruct (Hbc Hlt) as [Hb' Hc'].
      apply (path_sum_join g _ k); [lia| |].
      * destruct (Hround src k Hs Hk) as [_ Hsk].
        apply Hsk; [by right|done|intros ?; apply Hnor; by left|done].
      * destruct (Hround k dest Hk Hd) as [_ Hkd].
        apply Hkd; [by left|done|intros ?; apply Hnor; by right|done].
    + intros Hor x' Hx' Hne Hlt.
      rewrite (load_store _ _ _ _ _ Hst) in Hx'.
      case_decide as Heq; [|by apply Hnow].
      apply idx_inj in Heq as [-> ->]; [|done..].
      injection Hx' as <-. rewrite (Hpivot Hor) in *. by apply Hnow.
  - intros x' Hx'. rewrite (load_store _ _ _ _ _ Hst) in Hx'.
    rewrite decide_True in Hx' by done. injection Hx' as <-.
    destruct (Hcomp src dest Hs Hd a Ha) as [Hpa Hea].
    destruct (Hcomp src k Hs Hk b Hb) as [Hpb Heb].
    destruct (Hcomp k dest Hk Hd c Hc) as [Hpc Hec].
    split.
    + intros y Hy.
      inversion Hy as [? ? ? ? He|? m ? ? b' c' Hm Hb' Hc']; subst.
      * pose proof (Hpa y (path_sum_edge g k _ _ _ He)). lia.
      * destruct (decide (m = k)) as [->|Hne].
        -- pose proof (Hpb b' Hb'). pose proof (Hpc c' Hc').
           pose proof (weight_add_mono b b' c c'). lia.
        -- assert (0 ≤ m < k) as Hm' by lia.
           pose proof (Hpa _ (path_sum_join g k m _ _ _ _ Hm' Hb' Hc')). lia.
    + intros Hex xs w Hw Hall.
      destruct (iwalk_split k _ _ _ _ Hw Hall)
        as [(ys & c' & Hys & Hlt & Hle)
           |(ys & zs & c1 & c2 & Hys & Hzs & Hly & Hlz & Hle)].
      * pose proof (Hea Hex ys c' Hys Hlt). lia.
      * pose proof (Heb Hex ys c1 Hys Hly). pose proof (Hec Hex zs c2 Hzs Hlz).
        destruct (decide (b + c < WEIGHT_MAX)) as [Hlow|Hhigh]; [|lia].
        assert (b < WEIGHT_MAX) as Hb' by lia.
        assert (c < WEIGHT_MAX) as Hc' by lia.
        pose proof (Hex src k dest b c (Hwb Hex Hb') (Hwc Hex Hc') Hlow).
        lia.
Qed.

Lemma relax_row_run k src d :
  0 ≤ k < N → 0 ≤ src < N → sound d → complete k d → in_round k d →
  ∃ d', relax_row N k src d = Some d' ∧ sound d' ∧ improves d d' ∧
        in_round k d' ∧ ∀ v, 0 ≤ v < N → complete_at (k + 1) src v d'.
Proof.
  intros Hk Hs Hsound Hcomp Hround.
  destruct (for_seqZ_inv
    (λ dest s, sound s ∧ improves d s ∧ in_round k s ∧
               ∀ v, 0 ≤ v < dest → complete_at (k + 1) src v s)
    (relax N k src) 0 N d) as (d' & Hrun & Hs' & Himp & Hr' & Hdone);
    [lia| | |].
  - split; [done|]. split; [by intros j u v _ _|]. split; [done|].
    intros; lia.
  - intros dest s Hdest (Hss & Himp & Hrs & Hdone).
    destruct (relax_run k src dest s)
      as (s' & Hr & Hss' & Himp' & Hrs' & Hnew); [lia..|done| |done|].
    { intros u v Hu Hv. apply Himp; [done..|]. by apply Hcomp. }
    exists s'. split; [done|]. split; [done|]. split; [|split; [done|]].
    + intros j u v Hu Hv Hj. apply Himp'; [done..|]. by apply Himp.
    + intros v Hv. destruct (decide (v = dest)) as [->|Hne]; [done|].
      apply Himp'; [lia..|]. apply Hdone. lia.
  - exists d'. split; [done|]. split; [done|]. split; [done|].
    split; [done|]. intros v Hv. apply Hdone. lia.
Qed.

Lemma relax_all_run k d :
  0 ≤ k < N → sound d → complete k d → attained k d →
  ∃ d', relax_all N k d = Some d' ∧ sound d' ∧ complete (k + 1) d' ∧
        attained (k + 1) d'.
Proof.
  intros Hk Hsound Hcomp Hatt.
  destruct (for_seqZ_inv
    (λ src s, sound s ∧ improves d s ∧ in_round k s ∧
              ∀ u v, 0 ≤ u < src → 0 ≤ v < N → complete_at (k + 1) u v s)
    (relax_row N k) 0 N d) as (d' & Hrun & Hs' & Himp & Hr' & Hdone);
    [lia| | |].
  - split; [done|]. split; [by intros j u v _ _|].
    split; [by apply attained_in_round|]. intros; lia.
  - intros src s Hsrc (Hss & Himp & Hrs & Hdone).
    destruct (relax_row_run k src s)
      as (s' & Hr & Hss' & Himp' & Hrs' & Hnew); [lia..|done| |done|].
    { intros u v Hu Hv. apply Himp; [done..|]. by apply Hcomp. }
    exists s'. split; [done|]. split; [done|]. split; [|split; [done|]].
    + intros j u v Hu Hv Hj. apply Himp'; [done..|]. by apply Himp.
    + intros u v Hu Hv. destruct (decide (u = src)) as [->|Hne].
      * by apply Hnew.
      * apply Himp'; [lia..|]. apply Hdone; lia.
  - exists d'. split; [done|]. split; [done|].
    split; [|by apply in_round_attained].
    intros u v Hu Hv. apply Hdone; lia.
Qed.

Lemma floyd_warshall_run d :
  0 ≤ N → sound d → complete 0 d → attained 0 d →
  ∃ d', for_each (relax_all N) (seqZ 0 N) d = Some d' ∧
        sound d' ∧ complete N d' ∧ attained N d'.
Proof.
  intros HN Hsound Hcomp Hatt.
  destruct (for_seqZ_inv (λ k s, sound s ∧ complete k s ∧ attained k s)
              (relax_all N) 0 N d) as (d' & Hrun & Hs' & Hc' & Ha');
    [done|done| |].
  - intros k s Hk (Hss & Hcs & Has).
    destruct (relax_all_run k s) as (s' & ? & ? & ? & ?);
      [lia|done|done|done|]. by exists s'.
  - exists d'. done.
Qed.

(** From the invariants to what an entry of the result is. *)
Lemma sound_complete_shortest d u v :
  sound d → complete N d → attained N d → 0 ≤ u < N → 0 ≤ v < N →
  ∃ x, load d (u * N + v) = Some x ∧ 0 ≤ x ≤ WEIGHT_MAX ∧
       (u = v → x = 0) ∧
       (u ≠ v → x < WEIGHT_MAX → path_sum g N u v x) ∧
       (∀ y, path_sum g N u v y → x ≤ y) ∧
       (¬ reachable g u v → x = WEIGHT_MAX) ∧
       (exact_sums WEIGHT_MAX g →
        (∀ c, walk g u v c → x ≤ c) ∧
        (x < WEIGHT_MAX → walk g u v x) ∧
        (∀ m, shortest g u v m → x = Z.min m WEIGHT_MAX)).
Proof.
  intros [Hlen Hsound] Hcomp Hatt Hu Hv.
  destruct (Hsound u v Hu Hv) as (x & Hx & Hr & Hf & Hd & Hw).
  destruct (Hcomp u v Hu Hv x Hx) as [Hp He].
  exists x. split; [done|]. split; [done|]. split; [done|].
  split; [by apply Hatt|]. split; [done|]. split.
  - intros Hnr. destruct (decide (x < WEIGHT_MAX)) as [Hlt|?]; [|lia].
    destruct Hnr. destruct (decide (u = v)) as [->|Hne].
    + exists 0. by apply walk_nil.
    + apply (path_sum_reachable N _ _ x). by apply Hatt.
  - intros Hex.
    assert (Hle : ∀ c, walk g u v c → x ≤ c).
    { intros c Hc.
      destruct (walk_iwalk _ _ _ Hc) as [[-> ->]|(xs & Hxs & Hall)].
      - rewrite (Hd eq_refl). lia.
      - by apply (He Hex xs). }
    split; [done|]. split; [by apply Hw|].
    intros m [Hm Hmin]. pose proof (Hle m Hm).
    destruct (decide (x < WEIGHT_MAX)) as [Hlt|?]; [|lia].
    pose proof (Hmin x (Hw Hex Hlt)). lia.
Qed.

Lemma init_row_run uninit_d src :
  0 ≤ src < N → Z.of_nat (length uninit_d) = N * N →
  ∃ d', init_row WEIGHT_MAX g src uninit_d = Some d' ∧
        length d' = length uninit_d ∧
        (∀ k, ¬ (src * N ≤ k < src * N + N) → load d' k = load uninit_d k) ∧
        ∀ v, 0 ≤ v < N → ∃ x, load d' (src * N + v) = Some x ∧
                               init_entry src v x.
Proof.
  intros Hs Hlen. unfold init_row. rewrite vid_wrap_small by nia.
  destruct (fill_run WEIGHT_MAX (src * N) N uninit_d)
    as (d1 & -> & Hl1 & Hk1); [nia|lia|nia|]. simpl.
  destruct (load_is_Some (vertices g) src) as [first Hfirst].
  { rewrite (wf_vertices_len _ _ Hwf). lia. }
  destruct (load_is_Some (vertices g) (src + 1)) as [last Hlast].
  { rewrite (wf_vertices_len _ _ Hwf). lia. }
  rewrite Hfirst, Hlast. simpl.
  destruct (wf_offsets _ _ Hwf src first last) as [Hfl Hle]; [done..|].
  destruct (for_seqZ_inv
    (λ j s, length s = length uninit_d ∧
       (∀ k, ¬ (src * N ≤ k < src * N + N) → load s k = load uninit_d k) ∧
       ∀ v, 0 ≤ v < N → ∃ x, load s (src * N + v) = Some x ∧
         ((x = WEIGHT_MAX ∧
           ∀ e, first ≤ e < j → load (edges g) e ≠ Some v) ∨
          (∃ e, first ≤ e < j ∧ load (edges g) e = Some v ∧
                load (weights g) e = Some x)))
    (λ edge d, dst ← load (edges g) edge; w ← load (weights g) edge;
               store d (src * N + dst) w)
    first (last - first) d1) as (d2 & -> & Hl2 & Hout & Hrow); [lia| | |].
  - split; [done|]. split.
    + intros k Hk. rewrite Hk1. by rewrite decide_False.
    + intros v Hv. exists WEIGHT_MAX. rewrite Hk1.
      rewrite decide_True by lia. split; [done|]. left. split; [done|].
      intros; lia.
  - intros j s Hj (Hls & Houts & Hrows).
    destruct (load_is_Some (edges g) j) as [dst Hdst]; [lia|].
    destruct (load_is_Some (weights g) j) as [w Hw].
    { rewrite (wf_weights_len _ _ Hwf). lia. }
    assert (He : is_edge g src dst w).
    { exists first, last, j. repeat split; try done; lia. }
    pose proof (wf_edge_dst _ _ Hwf _ _ _ He) as Hdr.
    rewrite Hdst, Hw. simpl.
    assert (Hst : store s (src * N + dst) w =
                  Some (<[Z.to_nat (src * N + dst) := w]> s))
      by (apply store_is_Some; nia).
    rewrite Hst. eexists; split; [done|].
    split; [by rewrite length_insert|]. split.
    + intros k Hk. rewrite (load_store _ _ _ _ _ Hst).
      rewrite decide_False by lia. by apply Houts.
    + intros v Hv. rewrite (load_store _ _ _ _ _ Hst).
      destruct (decide (v = dst)) as [->|Hne].
      * rewrite decide_True by done. exists w. split; [done|]. right.
        exists j. repeat split; try done; lia.
      * rewrite decide_False by lia.
        destruct (Hrows v Hv) as (x & Hx & [[-> Hno]|(e & He' & Hed & Hew)]).
        -- exists WEIGHT_MAX. split; [done|]. left. split; [done|].
           intros e He'. destruct (decide (e = j)) as [->|Hej].
           ++ rewrite Hdst. congruence.
           ++ apply Hno. lia.
        -- exists x. split; [done|]. right. exists e.
           repeat split; try done; lia.
  - simpl.
    assert (Hst : store d2 (src * N + src) 0 =
                  Some (<[Z.to_nat (src * N + src) := 0]> d2))
      by (apply store_is_Some; nia).
    rewrite Hst. eexists; split; [done|].
    split; [by rewrite length_insert|]. split.
    + intros k Hk. rewrite (load_store _ _ _ _ _ Hst).
      rewrite decide_False by lia. by apply Hout.
    + intros v Hv. rewrite (load_store _ _ _ _ _ Hst).
      destruct (decide (v = src)) as [->|Hne].
      * rewrite decide_True by done. exists 0. split; [done|]. by left.
      * rewrite decide_False by lia.
        destruct (Hrow v Hv) as (x & Hx & [[-> Hno]|(e & He' & Hed & Hew)]).
        -- exists WEIGHT_MAX. split; [done|]. right.
           split; [done|]. left. split; [done|].
           intros w (first' & last' & e & Hf' & Hl' & He & Hed & _).
           rewrite Hfirst in Hf'. rewrite Hlast in Hl'.
           injection Hf' as <-. injection Hl' as <-.
           apply (Hno e); [lia|done].
        -- exists x. split; [done|]. right. split; [done|]. right.
           exists first, last, e. repeat split; try done; lia.
Qed.

Lemma init_run uninit_d :
  0 ≤ N → Z.of_nat (length uninit_d) = N * N →
  ∃ d', for_each (init_row WEIGHT_MAX g) (seqZ 0 N) uninit_d = Some d' ∧
        Z.of_nat (length d') = N * N ∧
        ∀ u v, 0 ≤ u < N → 0 ≤ v < N →
          ∃ x, load d' (u * N + v) = Some x ∧ init_entry u v x.
Proof.
  intros HN Hlen.
  destruct (for_seqZ_inv
    (λ src s, Z.of_nat (length s) = N * N ∧
       ∀ u v, 0 ≤ u < src → 0 ≤ v < N →
         ∃ x, load s (u * N + v) = Some x ∧ init_entry u v x)
    (init_row WEIGHT_MAX g) 0 N uninit_d) as (d' & Hrun & Hl & Hk);
    [done| | |].
  - split; [done|]. intros; lia.
  - intros src s Hs [Hl Hk].
    destruct (init_row_run s src) as (s' & -> & Hl' & Hout & Hrow);
      [lia|done|].
    eexists; split; [done|]. split; [lia|].
    intros u v Hu Hv. destruct (decide (u = src)) as [->|Hne].
    + by apply Hrow.
    + rewrite Hout by nia. apply Hk; lia.
  - exists d'. split; [done|]. split; [done|].
    intros u v Hu Hv. apply Hk; lia.
Qed.

Lemma init_sound d :
  Z.of_nat (length d) = N * N →
  (∀ u v, 0 ≤ u < N → 0 ≤ v < N →
     ∃ x, load d (u * N + v) = Some x ∧ init_entry u v x) →
  sound d ∧ complete 0 d ∧ attained 0 d.
Proof.
  intros Hlen Hinit. split; [|split].
  - split; [done|]. intros u v Hu Hv.
    destruct (Hinit u v Hu Hv) as (x & Hx & Hcase). exists x.
    split; [done|].
    destruct Hcase as [[-> ->]|[Hne [[-> Hno]|He]]].
    + split; [lia|]. split; [reflexivity|]. split; [done|].
      intros _ _. by apply walk_nil.
    + split; [lia|]. split; [done|]. split; [done|]. intros; lia.
    + pose proof (wf_edge_weight _ _ Hwf _ _ _ He).
      split; [done|]. split; [by apply (wf_edge_float _ _ Hwf u v)|].
      split; [done|]. intros _ _.
      replace x with (x + 0) by lia. eapply walk_cons; [done|].
      by apply walk_nil.
  - intros u v Hu Hv x Hx.
    destruct (Hinit u v Hu Hv) as (x' & Hx' & Hcase).
    rewrite Hx in Hx'. injection Hx' as <-.
    assert (Hedge : ∀ w, is_edge g u v w → x ≤ w).
    { intros w He. destruct Hcase as [[-> ->]|[Hne [[-> Hno]|He']]].
      - apply (wf_edge_weight _ _ Hwf) in He. lia.
      - by destruct (Hno w).
      - rewrite (wf_simple _ _ Hwf _ _ _ _ He' He). lia. }
    split.
    + intros y Hy.
      inversion Hy as [? ? ? ? He|? m ? ? b' c' Hm Hb' Hc']; subst;
        [by apply Hedge|lia].
    + intros _ xs c Hw Hall.
      destruct Hw as [u v w He|u y xs v w c He Hw]; [by apply Hedge|].
      apply Forall_cons in Hall as [Hy _].
      apply (wf_edge_dst _ _ Hwf) in He. lia.
  - intros u v Hu Hv x Hx Hne Hlt.
    destruct (Hinit u v Hu Hv) as (x' & Hx' & Hcase).
    rewrite Hx in Hx'. injection Hx' as <-.
    destruct Hcase as [[-> ->]|[_ [[-> Hno]|He]]]; [done|lia|].
    by constructor.
Qed.
End FloydWarshall.


(** Facts about the graphs [chain w1 w2]. *)
Lemma chain_edge w1 w2 u v w :
  is_edge (chain w1 w2) u v w ↔
  (u = 0 ∧ v = 1 ∧ w = w1) ∨ (u = 1 ∧ v = 2 ∧ w = w2).
Proof.
  split.
  - intros (first & last & e & Hf & Hl & He & Hd & Hw).
    pose proof (load_Some_bound _ _ _ Hl) as Hb. simpl in Hb.
    pose proof (load_Some_bound _ _ _ Hf) as Hb'.
    assert (u = 0 ∨ u = 1 ∨ u = 2) as [-> | [-> | ->]] by lia;
      vm_compute in Hf, Hl; injection Hf as <-; injection Hl as <-.
    + assert (e = 0) as -> by lia. cbv in Hd. cbn in Hw.
      injection Hd as <-. injection Hw as <-. left. done.
    + assert (e = 1) as -> by lia. cbv in Hd. cbn in Hw.
      injection Hd as <-. injection Hw as <-. right. done.
    + lia.
  - intros [(-> & -> & ->)|(-> & -> & ->)].
    + exists 0, 1, 0. repeat split; try reflexivity; lia.
    + exists 1, 2, 1. repeat split; try reflexivity; lia.
Qed.

Lemma chain_wf WEIGHT_MAX w1 w2 :
  0 ≤ w1 ≤ WEIGHT_MAX → 0 ≤ w2 ≤ WEIGHT_MAX →
  round_weight w1 = w1 → round_weight w2 = w2 →
  graph_wf WEIGHT_MAX (chain w1 w2).
Proof.
  intros H1 H2 Hf1 Hf2. split.
  - reflexivity.
  - intros u first last Hu Hf Hl. simpl in Hu.
    assert (u = 0 ∨ u = 1 ∨ u = 2) as [-> | [-> | ->]] by lia;
      vm_compute in Hf, Hl; injection Hf as <-; injection Hl as <-;
      simpl; lia.
  - reflexivity.
  - intros u v w [(-> & -> & ->)|(-> & -> & ->)]%chain_edge;
      simpl; lia.
  - by intros u v w [(-> & -> & ->)|(-> & -> & ->)]%chain_edge.
  - by intros u v w [(-> & -> & ->)|(-> & -> & ->)]%chain_edge.
  - intros u v w w' [(-> & -> & ->)|(-> & -> & ->)]%chain_edge
                    [(? & ? & ->)|(? & ? & ->)]%chain_edge; done.
Qed.

(** The walks of [chain w1 w2]. *)
Lemma chain_walk w1 w2 u v c :
  walk (chain w1 w2) u v c →
  (u = v ∧ c = 0) ∨ (u = 0 ∧ v = 1 ∧ c = w1) ∨ (u = 1 ∧ v = 2 ∧ c = w2) ∨
  (u = 0 ∧ v = 2 ∧ c = w1 + w2).
Proof.
  induction 1 as [|u x v w c He _ IH]; [by left|]. right.
  apply chain_edge in He as [(-> & -> & ->)|(-> & -> & ->)].
  - destruct IH as [[<- ->]|[(? & _)|[(_ & -> & ->)|(? & _)]]]; lia.
  - destruct IH as [[<- ->]|[(? & _)|[(? & _)|(? & _)]]]; lia.
Qed.

Lemma chain_shortest w1 w2 :
  shortest (chain w1 w2) 0 2 (w1 + w2).
Proof.
  split.
  - replace (w1 + w2) with (w1 + (w2 + 0)) by lia.
    eapply walk_cons; [apply chain_edge; left; done|].
    eapply walk_cons; [apply chain_edge; right; done|].
    apply walk_nil. simpl; lia.
  - intros c Hc.
    apply chain_walk in Hc as [[? _]|[(_ & ? & _)|[(? & _)|(_ & _ & ->)]]];
      lia.
Qed.

Lemma light_chain_exact : exact_sums FLT_MAX light_chain.
Proof.
  intros u k v b c Hb Hc _.
  apply chain_walk in Hb as [[_ ->]|[(_ & _ & ->)|[(_ & _ & ->)|(_ & _ & ->)]]];
  apply chain_walk in Hc as [[_ ->]|[(_ & _ & ->)|[(_ & _ & ->)|(_ & _ & ->)]]];
  vm_compute; reflexivity.
Qed.


(** The run on [light_chain]: the entry for the pair [(0, 2)], which has no
    edge, is the sum [7] of the two edges. *)
Example apsp_cpu_light_chain :
  apsp_cpu FLT_MAX zeroed (Some light_chain) NULL =
    Some (SUCCESS,
          Some [0; weight_of_Z 3; weight_of_Z 7;
                FLT_MAX; 0; weight_of_Z 4;
                FLT_MAX; FLT_MAX; 0]).
Proof. vm_compute. reflexivity. Qed.


(* ===================================================================== *)
(** ** APSP: further properties                                           *)
(* ===================================================================== *)

(** ** APSP: special cases of both entry points *)

(** X1: for a [NULL] graph, a graph that is not weighted, a graph with at
    most one vertex and a graph without edges, [apsp_gpu] returns what
    [apsp_cpu] returns, which is the answer of [check_special_cases]: the
    device is not consulted.  A [NULL] graph and a graph without vertices
    get [FAILURE] and [NULL]. *)
Theorem apsp_special_cases_agree (WEIGHT_MAX : Z) (uninit : nat → Z)
    (tr : list dev_event) (graph : option graph_t) (path_ret : pointer) :
  (∀ g, graph = Some g →
     weighted g = false ∨ vertex_count g ≤ 1 ∨ edge_count g = 0) →
  apsp_gpu WEIGHT_MAX uninit tr graph path_ret =
    apsp_cpu WEIGHT_MAX uninit graph path_ret ∧
  check_special_cases WEIGHT_MAX uninit graph path_ret =
    (λ '(r, p), (r, p, true)) <$> apsp_cpu WEIGHT_MAX uninit graph path_ret ∧
  ((∀ g, graph = Some g → vertex_count g ≤ 0) →
   apsp_cpu WEIGHT_MAX uninit graph path_ret = Some (FAILURE, NULL)).
Proof.
  intros Hspecial.
  assert (Hfin : ∀ r p fin,
            check_special_cases WEIGHT_MAX uninit graph path_ret =
              Some (r, p, fin) → fin = true).
  { intros r p fin. unfold check_special_cases.
    destruct graph as [g|]; [|by intros [= <- <- <-]].
    pose proof (Hspecial g eq_refl) as Hg.
    destruct (weighted g); simpl; [|by intros [= <- <- <-]].
    destruct (Z.leb_spec (vertex_count g) 0); [by intros [= <- <- <-]|].
    destruct (Z.eqb_spec (vertex_count g) 1).
    { intros Hc. by simplify_option_eq. }
    destruct (Z.ltb_spec 0 (vertex_count g)); [|lia].
    destruct (Z.eqb_spec (edge_count g) 0) as [He|He]; simpl.
    - intros Hc. by simplify_option_eq.
    - destruct Hg as [?|[?|?]]; [done|lia|done]. }
  split; [|split].
  - unfold apsp_gpu, apsp_cpu.
    destruct (check_special_cases WEIGHT_MAX uninit graph path_ret)
      as [[[r p] fin]|] eqn:Hc; [|done].
    by rewrite (Hfin r p fin eq_refl).
  - unfold apsp_cpu.
    destruct (check_special_cases WEIGHT_MAX uninit graph path_ret)
      as [[[r p] fin]|] eqn:Hc; [|done].
    by rewrite (Hfin r p fin eq_refl).
  - intros Hempty. unfold apsp_cpu, check_special_cases.
    destruct graph as [g|]; [|done].
    pose proof (Hempty g eq_refl).
    destruct (weighted g); simpl; [|done].
    by destruct (Z.leb_spec (vertex_count g) 0); [|lia].
Qed.


Lemma apsp_special_cases_agree_witness :
  apsp_gpu FLT_MAX zeroed [Status false] (Some unweighted_pair) NULL =
    apsp_cpu FLT_MAX zeroed (Some unweighted_pair) NULL ∧
  check_special_cases FLT_MAX zeroed (Some unweighted_pair) NULL =
    (λ '(r, p), (r, p, true)) <$>
      apsp_cpu FLT_MAX zeroed (Some unweighted_pair) NULL ∧
  ((∀ g, Some unweighted_pair = Some g → vertex_count g ≤ 0) →
   apsp_cpu FLT_MAX zeroed (Some unweighted_pair) NULL =
     Some (FAILURE, NULL)).
Proof.
  apply (apsp_special_cases_agree FLT_MAX zeroed [Status false]
           (Some unweighted_pair) NULL).
  intros g [= <-]. left. reflexivity.
Defined.

(** ** APSP: a device run without failures *)

Lemma checked_calls_ok n tr :
  checked_calls n (replicate n (Status true) ++ tr) = Some (SUCCESS, tr).
Proof. induction n as [|n IH]; [done|]. simpl. apply IH. Qed.

Lemma sssp_rounds_ok rounds tr :
  sssp_rounds (mjoin (replicate rounds (round_events true)) ++
               round_events false ++ tr) = Some (SUCCESS, tr).
Proof. induction rounds as [|n IH]; [done|]. simpl. apply IH. Qed.

Lemma copy_row_run (d : list Z) (offset : Z) (row : list Z) :
  0 ≤ offset → offset + Z.of_nat (length row) ≤ Z.of_nat (length d) →
  ∃ d', copy_row d offset row = Some d' ∧ length d' = length d ∧
        ∀ k, load d' k =
             if decide (offset ≤ k < offset + Z.of_nat (length row))
             then load row (k - offset) else load d k.
Proof.
  intros Ho Hfit. unfold copy_row.
  destruct (for_seqZ_inv
    (λ j s, length s = length d ∧
       ∀ k, load s k = if decide (offset ≤ k < offset + j)
                       then load row (k - offset) else load d k)
    (λ j d, x ← load row j; store d (offset + j) x)
    0 (Z.of_nat (length row)) d) as (d' & Hrun & Hl & Hk); [lia| | |].
  - split; [done|]. intros k. by rewrite decide_False by lia.
  - intros j s Hj [Hl Hk].
    destruct (load_is_Some row j) as [x Hx]; [lia|]. rewrite Hx. simpl.
    assert (Hst : store s (offset + j) x =
                  Some (<[Z.to_nat (offset + j) := x]> s))
      by (apply store_is_Some; lia).
    rewrite Hst. eexists; split; [done|].
    split; [by rewrite length_insert|].
    intros k. rewrite (load_store _ _ _ _ _ Hst), Hk.
    destruct (decide (k = offset + j)) as [->|Hne].
    + rewrite decide_True by lia. rewrite <- Hx. f_equal. lia.
    + repeat case_decide; try done; lia.
  - exists d'. rewrite Z.add_0_l in Hk. done.
Qed.

Lemma sources_loop_rows (N : Z) rest (runs : list (nat * list Z)) :
  ∀ (s : Z) (d : list Z),
  0 ≤ s → s + Z.of_nat (length runs) ≤ N → N * N < vid_modulus →
  Z.of_nat (length d) = N * N →
  Forall (λ run, Z.of_nat (length run.2) = N) runs →
  ∃ d',
    sources_loop N (seqZ s (Z.of_nat (length runs))) d
      ((runs ≫= source_events) ++ rest) = Some (SUCCESS, d') ∧
    length d' = length d ∧
    ∀ u v, 0 ≤ u < N → 0 ≤ v < N →
      load d' (u * N + v) =
        if decide (s ≤ u < s + Z.of_nat (length runs))
        then run ← runs !! Z.to_nat (u - s); load run.2 v
        else load d (u * N + v).
Proof.
  induction runs as [|[rounds row] runs IH]; intros s d Hs Hle Hfit Hl Hrows.
  - exists d. split; [done|]. split; [done|]. intros u v Hu Hv.
    by rewrite decide_False by (simpl; lia).
  - apply Forall_cons in Hrows as [Hrow Hrows]. cbn [snd] in Hrow.
    cbn [length] in *.
    rewrite Nat2Z.inj_succ, seqZ_cons, Z.pred_succ by lia.
    rewrite bind_cons. unfold source_events at 1. cbn [fst snd].
    rewrite <- !app_assoc. cbn [sources_loop].
    unfold initialize_source_gpu. rewrite checked_calls_ok.
    cbn [mbind option_bind]. rewrite sssp_rounds_ok.
    cbn [mbind option_bind app]. rewrite decide_True by done.
    rewrite vid_wrap_small by nia.
    destruct (copy_row_run d (s * N) row) as (d1 & -> & Hl1 & Hk1);
      [nia|nia|].
    cbn [mbind option_bind].
    destruct (IH (Z.succ s) d1) as (d' & -> & Hl' & Hk');
      [lia|lia|done|lia|done|].
    exists d'. split; [done|]. split; [lia|].
    intros u v Hu Hv. rewrite Hk' by done.
    destruct (decide (u = s)) as [->|Hne].
    + rewrite decide_False by lia. rewrite decide_True by lia.
      rewrite Hk1, decide_True by lia.
      rewrite Z.sub_diag. cbn [Z.to_nat lookup list_lookup mbind option_bind].
      cbn [snd]. by replace (s * N + v - s * N) with v by lia.
    + destruct (decide (Z.succ s ≤ u < Z.succ s + Z.of_nat (length runs)))
        as [Hin|Hout].
      * rewrite decide_True by lia.
        replace (Z.to_nat (u - s)) with (S (Z.to_nat (u - Z.succ s))) by lia.
        done.
      * rewrite decide_False by lia. rewrite Hk1.
        rewrite decide_False; [done|]. rewrite Hrow.
        destruct (Z.lt_trichotomy u s) as [?|[?|?]]; [nia|done|nia].
Qed.

(** X3: when every device call succeeds, [apsp_gpu] returns [SUCCESS] and the
    matrix whose row [u] is the distance row that the device delivered for
    source [u], however many rounds each source took. *)
Theorem apsp_gpu_rows (WEIGHT_MAX : Z) (uninit : nat → Z) (g : graph_t)
    (path_ret : pointer) (runs : list (nat * list Z))
    (rest : list dev_event) :
  weighted g = true →
  2 ≤ vertex_count g →
  edge_count g ≠ 0 →
  vertex_count g * vertex_count g < vid_modulus →
  Z.of_nat (length runs) = vertex_count g →
  Forall (λ run, Z.of_nat (length run.2) = vertex_count g) runs →
  ∃ d,
    apsp_gpu WEIGHT_MAX uninit (success_trace runs ++ rest) (Some g) path_ret
      = Some (SUCCESS, Some d) ∧
    Z.of_nat (length d) = vertex_count g * vertex_count g ∧
    ∀ u v, 0 ≤ u < vertex_count g → 0 ≤ v < vertex_count g →
      load d (u * vertex_count g + v) =
        run ← runs !! Z.to_nat u; load run.2 v.
Proof.
  intros Hw HN He Hfit Hruns Hrows.
  unfold apsp_gpu, check_special_cases. rewrite Hw. simpl.
  destruct (Z.leb_spec (vertex_count g) 0) as [?|_]; [lia|].
  destruct (Z.eqb_spec (vertex_count g) 1) as [?|_]; [lia|].
  destruct (Z.ltb_spec 0 (vertex_count g)) as [_|?]; [|lia].
  destruct (Z.eqb_spec (edge_count g) 0) as [?|_]; [done|]. simpl.
  rewrite vid_wrap_small by nia.
  replace (seqZ 0 (vertex_count g)) with (seqZ 0 (Z.of_nat (length runs)))
    by (by rewrite Hruns).
  destruct (sources_loop_rows (vertex_count g) rest runs 0
              (totem_malloc uninit (vertex_count g * vertex_count g)))
    as (d & -> & Hl & Hk); [lia|lia|done| |done|].
  { apply length_totem_malloc. nia. }
  exists d. cbn [mbind option_bind]. split; [done|]. split.
  - rewrite Hl. apply length_totem_malloc. nia.
  - intros u v Hu Hv. rewrite Hk by done.
    rewrite decide_True by lia. by rewrite Z.sub_0_r.
Qed.

Lemma apsp_gpu_rows_witness :
  ∃ d,
    apsp_gpu FLT_MAX zeroed
      (success_trace [(0%nat, [0; 5]); (2%nat, [FLT_MAX; 0])] ++
         [Status false])
      (Some weighted_pair) NULL = Some (SUCCESS, Some d) ∧
    Z.of_nat (length d) =
      vertex_count weighted_pair * vertex_count weighted_pair ∧
    ∀ u v, 0 ≤ u < vertex_count weighted_pair →
           0 ≤ v < vertex_count weighted_pair →
      load d (u * vertex_count weighted_pair + v) =
        run ← [(0%nat, [0; 5]); (2%nat, [FLT_MAX; 0])] !! Z.to_nat u;
        load run.2 v.
Proof.
  apply (apsp_gpu_rows FLT_MAX zeroed weighted_pair NULL
           [(0%nat, [0; 5]); (2%nat, [FLT_MAX; 0])] [Status false]).
  - reflexivity.
  - simpl. lia.
  - simpl. lia.
  - vm_compute. reflexivity.
  - reflexivity.
  - repeat constructor.
Defined.


(** ** APSP: allocations of the accelerator variant *)

Lemma release_acquired (r : resource) (live : gset resource) :
  r ∉ live → release r ({[r]} ∪ live) = Some live.
Proof.
  intros Hr. unfold release. rewrite decide_True by set_solver.
  f_equal. set_solver.
Qed.

(** The blocks in use after [initialize_gpu], by its result. *)
Lemma initialize_gpu_live_run (tr : list dev_event) (live : gset resource) :
  Graph_d ∉ live → Distances_d ∉ live → New_distances_d ∉ live →
  Changed_d ∉ live → Has_true_d ∉ live →
  initialize_gpu_live tr live =
    (λ '(r, tr'),
       (r,
        match r with
        | SUCCESS =>
            {[Graph_d; Distances_d; New_distances_d; Changed_d; Has_true_d]}
              ∪ live
        | FAILURE => live
        end, tr')) <$> initialize_gpu tr.
Proof.
  intros H1 H2 H3 H4 H5.
  unfold initialize_gpu_live, initialize_gpu, init_err_free_all,
    init_err_free_new_distances, init_err_free_distances,
    init_err_free_graph.
  do 5 (destruct tr as [|[[]|? ?|? ?] tr]; try done;
        cbn [acquire checked_calls mbind option_bind negb fmap option_fmap
             option_map];
        repeat (rewrite release_acquired by set_solver;
                cbn [mbind option_bind]);
        try done).
  do 3 f_equal. set_solver.
Qed.

(** X4: [initialize_gpu] is all or nothing: after [SUCCESS] the device graph
    and the four device arrays are in use, after [FAILURE] every block it
    had acquired has been released again, and no block is released twice
    or released without having been acquired. *)
Theorem initialize_gpu_unwinds (tr : list dev_event)
    (live : gset resource) :
  Graph_d ∉ live → Distances_d ∉ live → New_distances_d ∉ live →
  Changed_d ∉ live → Has_true_d ∉ live →
  (is_Some (initialize_gpu_live tr live) ↔ is_Some (initialize_gpu tr)) ∧
  ∀ r live' tr',
    initialize_gpu_live tr live = Some (r, live', tr') →
    initialize_gpu tr = Some (r, tr') ∧
    match r with
    | SUCCESS =>
        live' =
          {[Graph_d; Distances_d; New_distances_d; Changed_d; Has_true_d]}
            ∪ live
    | FAILURE => live' = live
    end.
Proof.
  intros H1 H2 H3 H4 H5.
  rewrite (initialize_gpu_live_run tr live H1 H2 H3 H4 H5).
  split; [by rewrite fmap_is_Some|].
  intros r live' tr'.
  destruct (initialize_gpu tr) as [[r0 tr0]|]; [|done].
  cbn [fmap option_fmap option_map]. intros [= <- <- <-].
  split; [done|]. by destruct r0.
Qed.

Lemma initialize_gpu_unwinds_witness :
  let tr := [Status true; Status true; Status true; Status false;
             Status true] in
  (is_Some (initialize_gpu_live tr {[Distances]}) ↔
   is_Some (initialize_gpu tr)) ∧
  ∀ r live' tr',
    initialize_gpu_live tr {[Distances]} = Some (r, live', tr') →
    initialize_gpu tr = Some (r, tr') ∧
    match r with
    | SUCCESS =>
        live' =
          {[Graph_d; Distances_d; New_distances_d; Changed_d; Has_true_d]}
            ∪ {[Distances]}
    | FAILURE => live' = {[Distances]}
    end.
Proof.
  intros tr.
  apply (initialize_gpu_unwinds tr {[Distances]}); set_solver.
Defined.

Lemma finalize_gpu_run (live : gset resource) :
  Graph_d ∉ live → Distances_d ∉ live → New_distances_d ∉ live →
  Changed_d ∉ live → Has_true_d ∉ live →
  finalize_gpu
    ({[Graph_d; Distances_d; New_distances_d; Changed_d; Has_true_d]}
       ∪ live) = Some live.
Proof.
  intros H1 H2 H3 H4 H5. unfold finalize_gpu, release.
  repeat (rewrite decide_True by set_solver; cbn [mbind option_bind]).
  f_equal. set_solver.
Qed.

Lemma check_special_cases_pointer WEIGHT_MAX uninit graph p0 r p :
  check_special_cases WEIGHT_MAX uninit graph p0 = Some (r, p, true) →
  match r with SUCCESS => is_Some p | FAILURE => p = NULL end.
Proof.
  unfold check_special_cases. intros H.
  repeat (case_match; simplify_option_eq; try done).
Qed.

(** X5: [apsp_gpu] returns with no device block in use; the host matrix is in
    use exactly when the result is [SUCCESS], and it is the returned one.
    No error path releases a block twice or releases a block that was not
    acquired. *)
Theorem apsp_gpu_releases (WEIGHT_MAX : Z) (uninit : nat → Z)
    (tr : list dev_event) (graph : option graph_t) (path_ret : pointer) :
  apsp_gpu_live WEIGHT_MAX uninit tr graph path_ret ∅ =
    (λ '(r, p),
       (r, p, match r with SUCCESS => {[Distances]} | FAILURE => ∅ end))
      <$> apsp_gpu WEIGHT_MAX uninit tr graph path_ret.
Proof.
  unfold apsp_gpu_live, apsp_gpu.
  destruct (check_special_cases WEIGHT_MAX uninit graph path_ret)
    as [[[r p] fin]|] eqn:Hc; [|done].
  cbn [mbind option_bind]. destruct fin.
  - apply check_special_cases_pointer in Hc.
    cbn [fmap option_fmap option_map]. do 2 f_equal.
    destruct r; [destruct Hc as [d ->]; set_solver|by rewrite Hc].
  - destruct graph as [g|]; [|done]. cbn [mbind option_bind].
    rewrite initialize_gpu_live_run by set_solver.
    destruct (initialize_gpu tr) as [[[] tr1]|]; [| |done];
      cbn [fmap option_fmap option_map mbind option_bind].
    + destruct (sources_loop _ _ _ _) as [[[] d]|]; [| |done];
        cbn [fmap option_fmap option_map mbind option_bind];
        rewrite finalize_gpu_run by set_solver;
        cbn [mbind option_bind].
      * do 2 f_equal; set_solver.
      * unfold release. rewrite decide_True by set_solver.
        cbn [mbind option_bind]. do 2 f_equal; set_solver.
    + unfold release. rewrite decide_True by set_solver.
      cbn [mbind option_bind]. do 2 f_equal; set_solver.
Qed.

(** A run that fails in the second source, after the device was set up. *)
Example apsp_gpu_releases_after_failure :
  apsp_gpu_live FLT_MAX zeroed failing_trace (Some weighted_pair) NULL ∅ =
    Some (FAILURE, NULL, ∅).
Proof. vm_compute. reflexivity. Qed.

End ApspFacts.

(* ===================================================================== *)
(** ** Frontier: bitmap update                                            *)
(* ===================================================================== *)

Module FrontierFacts.
Import Frontier.

Lemma dev_load_lookup (m : gmap nat (list Z)) a l (i : nat) :
  m !! a = Some l → dev_load m a (Z.of_nat i) = l !! i.
Proof. intros H. unfold dev_load. rewrite H. simpl. apply load_lookup. Qed.

Lemma dev_store_insert (m : gmap nat (list Z)) a l (i : nat) x :
  m !! a = Some l → i < length l →
  dev_store m a (Z.of_nat i) x = Some (<[a := <[i := x]> l]> m).
Proof.
  intros H Hi. unfold dev_store. rewrite H. simpl.
  rewrite store_is_Some by lia. simpl. by rewrite Nat2Z.id.
Qed.

Section DiffCopy.
Variables cur diff copy : nat.
Hypothesis Hcd : cur ≠ diff.
Hypothesis Hcc : cur ≠ copy.
Hypothesis Hdc : diff ≠ copy.

Lemma diff_copy_word_run (m : gmap nat (list Z)) V D C w v d :
  m !! cur = Some V → m !! diff = Some D → m !! copy = Some C →
  V !! w = Some v → D !! w = Some d → w < length C →
  bitmap_diff_copy_word cur diff copy w m =
    Some (<[copy := <[w := v]> C]> (<[diff := <[w := Z.ldiff v d]> D]> m)).
Proof.
  intros HV HD HC Hv Hd Hw. unfold bitmap_diff_copy_word.
  rewrite (dev_load_lookup _ _ _ _ HV), Hv. simpl.
  rewrite (dev_load_lookup _ _ _ _ HD), Hd. simpl.
  rewrite (dev_store_insert _ _ _ _ _ HD) by by eapply lookup_lt_Some.
  simpl. erewrite dev_load_lookup by by rewrite lookup_insert_ne.
  rewrite Hv. simpl.
  erewrite dev_store_insert; [done| |done]. by rewrite lookup_insert_ne.
Qed.

(** Running the word update for the words [ws], in any order. *)
Lemma diff_copy_words_run ws : ∀ (m : gmap nat (list Z)) V D C,
  NoDup ws → (∀ w, w ∈ ws → w < length V) →
  m !! cur = Some V → m !! diff = Some D → m !! copy = Some C →
  length D = length V → length C = length V →
  ∃ D' C',
    for_each (bitmap_diff_copy_word cur diff copy) ws m =
      Some (<[copy := C']> (<[diff := D']> m)) ∧
    length D' = length V ∧ length C' = length V ∧
    (∀ w, D' !! w = if decide (w ∈ ws)
                    then v ← V !! w; d ← D !! w; Some (Z.ldiff v d)
                    else D !! w) ∧
    (∀ w, C' !! w = if decide (w ∈ ws) then V !! w else C !! w).
Proof.
  induction ws as [|w ws IH]; intros m V D C Hnd Hin HV HD HC HlD HlC.
  - exists D, C. simpl. split.
    { by rewrite !insert_id by by rewrite ?lookup_insert_ne. }
    split; [done|]. split; [done|]. split; intros w; done.
  - apply NoDup_cons in Hnd as [Hw Hnd].
    assert (w < length V) as Hwl by (apply Hin; set_solver).
    destruct (lookup_lt_is_Some_2 V w Hwl) as [v Hv].
    destruct (lookup_lt_is_Some_2 D w) as [d Hd]; [lia|].
    simpl. rewrite (diff_copy_word_run m V D C w v d) by (done || lia).
    simpl.
    destruct (IH (<[copy := <[w := v]> C]>
                    (<[diff := <[w := Z.ldiff v d]> D]> m))
                V (<[w := Z.ldiff v d]> D) (<[w := v]> C))
      as (D' & C' & Hrun & HlD' & HlC' & HD' & HC'); try done.
    + intros w' Hw'. apply Hin. set_solver.
    + by rewrite !lookup_insert_ne.
    + rewrite lookup_insert_ne by done. by rewrite lookup_insert_eq.
    + by rewrite lookup_insert_eq.
    + by rewrite length_insert.
    + by rewrite length_insert.
    + exists D', C'. split.
      { rewrite Hrun. f_equal. apply map_eq. intros k.
        destruct (decide (k = copy)) as [->|];
          [by rewrite !lookup_insert_eq|].
        rewrite !(lookup_insert_ne _ copy) by done.
        destruct (decide (k = diff)) as [->|];
          [by rewrite !lookup_insert_eq|].
        by rewrite !lookup_insert_ne. }
      split; [done|]. split; [done|]. split; intros w'.
      * rewrite HD'. destruct (decide (w' = w)) as [->|Hne].
        -- rewrite decide_False by done. rewrite decide_True by set_solver.
           rewrite list_lookup_insert_eq by lia. by rewrite Hv, Hd.
        -- rewrite list_lookup_insert_ne by done.
           destruct (decide (w' ∈ ws)).
           ++ by rewrite decide_True by set_solver.
           ++ by rewrite decide_False by set_solver.
      * rewrite HC'. destruct (decide (w' = w)) as [->|Hne].
        -- rewrite decide_False by done. rewrite decide_True by set_solver.
           rewrite list_lookup_insert_eq by lia. done.
        -- rewrite list_lookup_insert_ne by done.
           destruct (decide (w' ∈ ws)).
           ++ by rewrite decide_True by set_solver.
           ++ by rewrite decide_False by set_solver.
Qed.

(** All words: the difference and the copy of whole bitmaps. *)
Lemma diff_copy_all_run ws (m : gmap nat (list Z)) V D C :
  ws ≡ₚ seq 0 (length V) →
  m !! cur = Some V → m !! diff = Some D → m !! copy = Some C →
  length D = length V → length C = length V →
  for_each (bitmap_diff_copy_word cur diff copy) ws m =
    Some (<[copy := V]> (<[diff := zip_with Z.ldiff V D]> m)).
Proof.
  intros Hperm HV HD HC HlD HlC.
  assert (Hin : ∀ w, w ∈ ws ↔ w < length V).
  { intros w. rewrite Hperm, elem_of_seq. lia. }
  destruct (diff_copy_words_run ws m V D C)
    as (D' & C' & -> & HlD' & HlC' & HD' & HC'); try done.
  { rewrite Hperm. apply NoDup_seq. }
  { intros w. apply Hin. }
  f_equal. f_equal; [|f_equal].
  - apply list_eq. intros w. rewrite HC'.
    case_decide as Hw; [done|]. rewrite Hin in Hw.
    rewrite !lookup_ge_None_2; [done|lia..].
  - apply list_eq. intros w. rewrite HD', lookup_zip_with.
    case_decide as Hw; [done|]. rewrite Hin in Hw.
    rewrite !lookup_ge_None_2; [done|lia..].
Qed.
End DiffCopy.

Lemma for_each_guard {S : Type} (P : nat → Prop) `{∀ i, Decision (P i)}
    (body : nat → S → option S) (l : list nat) (s : S) :
  for_each (λ i s, if decide (P i) then body i s else Some s) l s =
  for_each body (filter P l) s.
Proof.
  revert s. induction l as [|i l IH]; intros s; [done|].
  rewrite filter_cons. simpl. case_decide; simpl; [|done].
  destruct (body i s); simpl; [apply IH|done].
Qed.

Lemma filter_all {A : Type} (P : A → Prop) `{∀ x, Decision (P x)} (l : list A) :
  Forall P l → filter P l = l.
Proof.
  induction 1 as [|x l Hx _ IH]; [done|].
  rewrite filter_cons, decide_True by done. by rewrite IH.
Qed.

Lemma filter_none {A : Type} (P : A → Prop) `{∀ x, Decision (P x)} (l : list A) :
  Forall (λ x, ¬ P x) l → filter P l = [].
Proof.
  induction 1 as [|x l Hx _ IH]; [done|].
  by rewrite filter_cons, decide_False.
Qed.

Lemma filter_lt_seq (n threads : nat) (order : list nat) :
  order ≡ₚ seq 0 threads → n ≤ threads →
  filter (λ w, w < n) order ≡ₚ seq 0 n.
Proof.
  intros Hperm Hn. rewrite Hperm.
  replace threads with (n + (threads - n)) by lia.
  rewrite seq_app, filter_app.
  rewrite filter_all, filter_none, app_nil_r; [done| |].
  - apply Forall_forall. intros w Hw%elem_of_seq. lia.
  - apply Forall_forall. intros w Hw%elem_of_seq. lia.
Qed.

Section UpdateBitmap.
Variable state : frontier_state_t.
Variable visited : nat.
Variable m : gmap nat (list Z).
Variables V C L : list Z.
Hypothesis Hok : bitmaps_ok state visited m V C L.

Lemma swap_buffers_ok :
  bitmaps_ok (swap_buffers state) visited
    (<[current state := V]> (<[visited_last state := zip_with Z.ldiff V L]> m))
    V (zip_with Z.ldiff V L) V.
Proof.
  destruct Hok as (Hnd & HV & HC & HL & HlV & HlC & HlL).
  apply NoDup_cons in Hnd as [Hv Hnd].
  apply NoDup_cons in Hnd as [Hc _].
  assert (visited ≠ current state ∧ visited ≠ visited_last state ∧
          current state ≠ visited_last state) as (? & ? & ?) by set_solver.
  split; [|split; [|split; [|split; [|split; [|split]]]]]; simpl.
  - apply NoDup_cons. split; [set_solver|].
    apply NoDup_cons. split; [set_solver|]. apply NoDup_singleton.
  - by rewrite !lookup_insert_ne.
  - rewrite lookup_insert_ne by done. by rewrite lookup_insert_eq.
  - by rewrite lookup_insert_eq.
  - done.
  - rewrite length_zip_with. lia.
  - done.
Qed.

Lemma update_bitmap_cpu_run :
  frontier_update_bitmap_cpu state visited m =
    Some (0%Z, swap_buffers state,
          <[current state := V]>
            (<[visited_last state := zip_with Z.ldiff V L]> m)).
Proof.
  destruct Hok as (Hnd & HV & HC & HL & HlV & HlC & HlL).
  apply NoDup_cons in Hnd as [Hv Hnd].
  apply NoDup_cons in Hnd as [Hc _].
  assert (visited ≠ current state ∧ visited ≠ visited_last state ∧
          current state ≠ visited_last state) as (? & ? & ?) by set_solver.
  unfold frontier_update_bitmap_cpu, bitmap_diff_copy_cpu. simpl.
  rewrite <- HlV.
  erewrite diff_copy_all_run; [done|..]; try done; try congruence; lia.
Qed.

Lemma update_bitmap_gpu_run order threads :
  order ≡ₚ seq 0 threads →
  bitmap_bits_to_words (len state) ≤ threads →
  frontier_update_bitmap_gpu order state visited m =
    Some (0%Z, swap_buffers state,
          <[current state := V]>
            (<[visited_last state := zip_with Z.ldiff V L]> m)).
Proof.
  intros Hperm Hthreads.
  destruct Hok as (Hnd & HV & HC & HL & HlV & HlC & HlL).
  apply NoDup_cons in Hnd as [Hv Hnd].
  apply NoDup_cons in Hnd as [Hc _].
  assert (visited ≠ current state ∧ visited ≠ visited_last state ∧
          current state ≠ visited_last state) as (? & ? & ?) by set_solver.
  unfold frontier_update_bitmap_gpu, bitmap_diff_copy_gpu. simpl.
  rewrite (for_each_guard (λ w, w < bitmap_bits_to_words (len state))).
  erewrite diff_copy_all_run; [done|..]; try done; try congruence;
    try lia.
  rewrite HlV. by eapply filter_lt_seq.
Qed.
End UpdateBitmap.

Lemma zip_ldiff_diag (V : list Z) :
  zip_with Z.ldiff V V = replicate (length V) 0%Z.
Proof.
  induction V as [|v V IH]; [done|]. simpl. by rewrite Z.ldiff_diag, IH.
Qed.

(** C2: each call of [update_bitmap] exchanges the two buffer pointers (no
    cell is copied from one buffer to the other by the exchange) and stores
    [visited AND NOT visited_last] in the new [current] buffer; a second
    call with the same, unchanged [visited] bitmap leaves every word of
    [current] zero.  This holds for the host and for the accelerator
    variant, for every order in which the accelerator threads run. *)
Theorem frontier_update_bitmap_twice (state : frontier_state_t)
    (visited : nat) (m : gmap nat (list Z)) (V C L : list Z)
    (order1 order2 : list nat) (threads : nat) :
  bitmaps_ok state visited m V C L →
  order1 ≡ₚ seq 0 threads → order2 ≡ₚ seq 0 threads →
  bitmap_bits_to_words (len state) ≤ threads →
  ∃ s1 m1 s2 m2,
    frontier_update_bitmap_cpu state visited m = Some (0%Z, s1, m1) ∧
    frontier_update_bitmap_gpu order1 state visited m = Some (0%Z, s1, m1) ∧
    current s1 = visited_last state ∧ visited_last s1 = current state ∧
    m1 !! current s1 = Some (zip_with Z.ldiff V L) ∧
    m1 !! visited_last s1 = Some V ∧
    m1 !! visited = Some V ∧
    frontier_update_bitmap_cpu s1 visited m1 = Some (0%Z, s2, m2) ∧
    frontier_update_bitmap_gpu order2 s1 visited m1 = Some (0%Z, s2, m2) ∧
    current s2 = current state ∧ visited_last s2 = visited_last state ∧
    m2 !! current s2 =
      Some (replicate (bitmap_bits_to_words (len state)) 0%Z) ∧
    m2 !! visited = Some V.
Proof.
  intros Hok Ho1 Ho2 Hthreads.
  pose proof (swap_buffers_ok _ _ _ _ _ _ Hok) as Hok1.
  pose proof (swap_buffers_ok _ _ _ _ _ _ Hok1) as Hok2.
  eexists _, _, _, _.
  split; [exact (update_bitmap_cpu_run _ _ _ _ _ _ Hok)|].
  split; [exact (update_bitmap_gpu_run _ _ _ _ _ _ Hok _ _ Ho1 Hthreads)|].
  split; [done|]. split; [done|].
  pose proof Hok1 as (Hnd1 & HV1 & HC1 & HL1 & HlV & _).
  split; [exact HC1|]. split; [exact HL1|]. split; [exact HV1|].
  split; [exact (update_bitmap_cpu_run _ _ _ _ _ _ Hok1)|].
  split; [exact (update_bitmap_gpu_run _ _ _ _ _ _ Hok1 _ _ Ho2 Hthreads)|].
  split; [done|]. split; [done|].
  destruct Hok2 as (_ & HV2 & HC2 & _).
  split; [|exact HV2].
  rewrite HC2, zip_ldiff_diag. by rewrite HlV.
Qed.

Lemma frontier_update_bitmap_twice_witness :
  ∃ s1 m1 s2 m2,
    frontier_update_bitmap_cpu bitmap_state 2 bitmap_mem = Some (0%Z, s1, m1) ∧
    frontier_update_bitmap_gpu [1; 2; 0] bitmap_state 2 bitmap_mem =
      Some (0%Z, s1, m1) ∧
    current s1 = visited_last bitmap_state ∧
    visited_last s1 = current bitmap_state ∧
    m1 !! current s1 = Some (zip_with Z.ldiff [5; 1] [1; 2])%Z ∧
    m1 !! visited_last s1 = Some [5; 1]%Z ∧
    m1 !! 2 = Some [5; 1]%Z ∧
    frontier_update_bitmap_cpu s1 2 m1 = Some (0%Z, s2, m2) ∧
    frontier_update_bitmap_gpu [0; 2; 1] s1 2 m1 = Some (0%Z, s2, m2) ∧
    current s2 = current bitmap_state ∧
    visited_last s2 = visited_last bitmap_state ∧
    m2 !! current s2 =
      Some (replicate (bitmap_bits_to_words (len bitmap_state)) 0%Z) ∧
    m2 !! 2 = Some [5; 1]%Z.
Proof.
  apply (frontier_update_bitmap_twice bitmap_state 2 bitmap_mem
           [5; 1]%Z [7; 0]%Z [1; 2]%Z [1; 2; 0] [0; 2; 1] 3).
  - repeat split; try reflexivity.
    repeat (apply NoDup_cons; split; [set_solver|]). apply NoDup_nil_2.
  - apply (Permutation_sym (Permutation_cons_append [1; 2] 0)).
  - apply perm_skip, perm_swap.
  - vm_compute. lia.
Defined.

(* ===================================================================== *)
(** ** Frontier: list building                                            *)
(* ===================================================================== *)


Lemma rank_0 word : rank word 0 = 0.
Proof. done. Qed.

Lemma rank_S word n :
  rank word (S n) = rank word n + (if bitmap_is_set word n then 1 else 0).
Proof.
  unfold rank. rewrite seq_S, filter_app, length_app. f_equal.
  rewrite Nat.add_0_l, filter_cons, filter_nil.
  destruct (bitmap_is_set word n) eqn:E.
  - by rewrite decide_True.
  - rewrite decide_False; [done|]. by intros [].
Qed.

Lemma rank_mono word n n' : n ≤ n' → rank word n ≤ rank word n'.
Proof.
  induction 1 as [|n' _ IH]; [done|]. rewrite rank_S. lia.
Qed.

Lemma rank_le word n : rank word n ≤ n.
Proof.
  unfold rank. etrans; [apply length_filter|]. by rewrite length_seq.
Qed.

Lemma rank_popc word : rank word 32 = popc word.
Proof. done. Qed.

Lemma to_int_small x : (0 ≤ x < 2 ^ 31)%Z → to_int x = x.
Proof. intros Hx. unfold to_int. by rewrite decide_True by lia. Qed.

(** *** The warp scan *)

Section Scan.
Variable word : Z.
Variable warpid : nat.
Variable ptr : list Z.
Hypothesis Hlen : 32 * warpid + 32 ≤ length ptr.
Hypothesis Hflags : ∀ lane, lane < 32 →
  ptr !! (32 * warpid + lane) = Some (bool_to_Z (bitmap_is_set word lane)).

Local Abbreviation window := (scan_window word warpid ptr).

Lemma window_start : window 1 ptr.
Proof.
  split; [done|]. split; [done|]. intros lane Hlane.
  rewrite (Hflags lane Hlane). f_equal.
  replace (S lane - 1) with lane by lia. rewrite rank_S.
  destruct (bitmap_is_set word lane); simpl; lia.
Qed.

Lemma scan_round_window D p :
  0 < D → window D p → window (2 * D) (scan_round D warpid p).
Proof.
  intros HD (Hl & Hout & Hin). unfold scan_round.
  split; [by rewrite length_imap|]. split.
  - intros i Hi. rewrite list_lookup_imap.
    destruct (p !! i) as [x|] eqn:Hx; simpl.
    + rewrite decide_False by tauto. by rewrite <- Hx, Hout.
    + by rewrite <- Hout, Hx.
  - intros lane Hlane. rewrite list_lookup_imap, (Hin lane Hlane).
    cbn [fmap option_fmap option_map]. f_equal.
    assert ((32 * warpid + lane) / 32 = warpid) as ->
      by (symmetry; apply Nat.div_unique with lane; lia).
    assert ((32 * warpid + lane) mod 32 = lane) as ->
      by (symmetry; apply Nat.mod_unique with warpid; lia).
    pose proof (rank_mono word (S lane - 2 * D) (S lane - D) ltac:(lia)).
    pose proof (rank_mono word (S lane - D) (S lane) ltac:(lia)).
    pose proof (rank_le word (S lane)).
    destruct (decide (D ≤ lane)) as [Hge|Hlt].
    + rewrite decide_True by done.
      replace (32 * warpid + lane - D) with (32 * warpid + (lane - D)) by lia.
      rewrite Hin by lia. cbn [default].
      replace (S (lane - D)) with (S lane - D) by lia.
      replace (S lane - D - D) with (S lane - 2 * D) by lia.
      pose proof (rank_mono word (S lane - 2 * D) (S lane - D) ltac:(lia)).
      unfold id. rewrite vid_wrap_small; [lia|]. unfold vid_modulus. lia.
    + rewrite decide_False by lia.
      replace (S lane - 2 * D) with 0 by lia.
      replace (S lane - D) with 0 by lia. done.
Qed.

Lemma scan_warp_exclusive :
  length (scan_warp true warpid ptr).1 = length ptr ∧
  (∀ i, i / 32 ≠ warpid → (scan_warp true warpid ptr).1 !! i = ptr !! i) ∧
  ∀ lane, lane < 32 →
    (scan_warp true warpid ptr).2 lane = Z.of_nat (rank word lane).
Proof.
  unfold scan_warp. cbn [fst snd].
  pose proof (scan_round_window 16 _ ltac:(lia)
    (scan_round_window 8 _ ltac:(lia)
      (scan_round_window 4 _ ltac:(lia)
        (scan_round_window 2 _ ltac:(lia)
          (scan_round_window 1 _ ltac:(lia) window_start)))))
    as (Hl & Hout & Hin).
  split; [done|]. split; [done|]. intros lane Hlane.
  destruct (decide (0 < lane)) as [Hpos|Hz].
  - replace (32 * warpid + lane - 1) with (32 * warpid + (lane - 1)) by lia.
    rewrite Hin by lia. cbn [default]. unfold id.
    replace (S (lane - 1)) with lane by lia.
    replace (lane - 2 * 16) with 0 by lia. rewrite rank_0.
    pose proof (rank_le word lane). rewrite to_int_small by lia.
    f_equal. lia.
  - by replace lane with 0 by lia.
Qed.
End Scan.


(** *** One warp *)

Lemma flags_run (word : Z) (warpid : nat) (n : nat) (cb : list Z) :
  32 * warpid + n ≤ length cb →
  let cb' := foldl (λ cb lane,
                      <[32 * warpid + lane :=
                          bool_to_Z (bitmap_is_set word lane)]> cb)
                   cb (seq 0 n) in
  length cb' = length cb ∧
  ∀ lane, lane < n →
    cb' !! (32 * warpid + lane) = Some (bool_to_Z (bitmap_is_set word lane)).
Proof.
  induction n as [|n IH]; intros Hlen; [split; [done|lia]|].
  rewrite seq_S, foldl_app. cbn [foldl]. rewrite Nat.add_0_l.
  destruct IH as [Hl Hk]; [lia|].
  split; [by rewrite length_insert|]. intros lane Hlane.
  destruct (decide (lane = n)) as [->|Hne].
  - apply list_lookup_insert_eq. lia.
  - rewrite list_lookup_insert_ne by lia. apply Hk. lia.
Qed.

Lemma queue_fill (word : Z) (base : nat) (index : nat → Z) (val : nat → Z)
    (q : list Z) (n : nat) :
  (∀ lane, lane < 32 → index lane = Z.of_nat (rank word lane)) →
  base + rank word 32 ≤ length q → n ≤ 32 →
  ∃ q',
    for_each (λ lane q,
                if bitmap_is_set word lane
                then store q (Z.of_nat base + index lane) (val lane)
                else Some q)
             (seq 0 n) q = Some q' ∧
    length q' = length q ∧
    take (base + rank word n) q' =
      take base q ++
      (val <$> filter (λ lane, bitmap_is_set word lane) (seq 0 n)).
Proof.
  intros Hindex Hroom. induction n as [|n IH]; intros Hn.
  - exists q. split; [done|]. split; [done|].
    rewrite rank_0, Nat.add_0_r. by rewrite app_nil_r.
  - destruct IH as (q1 & Hrun & Hl & Htake); [lia|].
    rewrite seq_S, for_each_app, Hrun. cbn [mbind option_bind for_each].
    rewrite Nat.add_0_l, filter_app, fmap_app, rank_S.
    rewrite filter_cons, filter_nil.
    pose proof (rank_mono word (S n) 32 ltac:(lia)) as Hmono.
    rewrite rank_S in Hmono.
    destruct (bitmap_is_set word n) eqn:Hbit.
    + rewrite decide_True by done.
      rewrite Hindex by lia.
      replace (Z.of_nat base + Z.of_nat (rank word n))%Z
        with (Z.of_nat (base + rank word n)) by lia.
      rewrite store_is_Some by lia. rewrite Nat2Z.id.
      eexists. split; [done|]. split; [by rewrite length_insert|].
      replace (base + (rank word n + 1)) with (S (base + rank word n)) by lia.
      erewrite take_S_r by (apply list_lookup_insert_eq; lia).
      rewrite take_insert_ge by lia. rewrite Htake.
      by rewrite <- app_assoc.
    + rewrite decide_False by (by intros []).
      exists q1. split; [done|]. split; [done|].
      rewrite Nat.add_0_r, Htake. by rewrite app_nil_r.
Qed.

Lemma word_ids_0 widx : word_ids widx 0 = [].
Proof.
  unfold word_ids. rewrite filter_none; [done|].
  apply Forall_forall. intros lane _. unfold bitmap_is_set.
  rewrite Z.testbit_0_l. by intros [].
Qed.

Lemma length_word_ids widx word : length (word_ids widx word) = popc word.
Proof. unfold word_ids. by rewrite length_fmap. Qed.

Lemma popc_le word : popc word ≤ 32.
Proof. rewrite <- rank_popc. apply rank_le. Qed.

Lemma length_warp_ids cur widx : length (warp_ids cur widx) ≤ 32.
Proof.
  unfold warp_ids. destruct (cur !! widx); [|simpl; lia].
  rewrite length_word_ids. apply popc_le.
Qed.

Section Warp.
Variable cur : list Z.
Variable warps : nat.
Variable block : nat.

Local Abbreviation tpb := (WARP_WIDTH * warps).

Local Abbreviation shared_ok := (Frontier.shared_ok warps).

Lemma warp_word warpid :
  THREAD_GLOBAL_INDEX tpb block (32 * warpid) / 32 = block * warps + warpid.
Proof.
  unfold THREAD_GLOBAL_INDEX, WARP_WIDTH.
  replace (32 * warpid + 32 * warps * block)
    with ((block * warps + warpid) * 32) by lia.
  apply Nat.div_mul. lia.
Qed.

Lemma warp_step_run warpid sh cl :
  warpid < warps → shared_ok sh cl → cl + 32 ≤ tpb →
  ∃ sh',
    warp_step cur (length cur) tpb block warpid sh = Some sh' ∧
    shared_ok sh' (cl + length (warp_ids cur (block * warps + warpid))) ∧
    take (cl + length (warp_ids cur (block * warps + warpid))) (queue_l sh') =
      take cl (queue_l sh) ++ warp_ids cur (block * warps + warpid).
Proof.
  intros Hw (Hq & Hb & Hcw & Hcl) Hroom.
  unfold warp_step. rewrite warp_word. unfold warp_ids.
  destruct (decide (length cur ≤ block * warps + warpid)) as [Hge|Hlt].
  { rewrite lookup_ge_None_2 by done. exists sh. simpl.
    rewrite Nat.add_0_r, app_nil_r. done. }
  destruct (lookup_lt_is_Some_2 cur (block * warps + warpid)) as [word Hword];
    [lia|].
  rewrite Hword. cbn [mbind option_bind].
  destruct (decide (word = 0%Z)) as [->|Hnz].
  { exists sh. rewrite word_ids_0. simpl.
    rewrite Nat.add_0_r, app_nil_r. done. }
  unfold WARP_WIDTH in *.
  destruct (flags_run word warpid 32 (count_b sh)) as [Hlf Hflags]; [lia|].
  set (cb := foldl _ (count_b sh) (seq 0 32)) in *.
  destruct (scan_warp_exclusive word warpid cb) as (Hls & _ & Hindex);
    [lia|done|].
  destruct (scan_warp true warpid cb) as [cb' index]. cbn [fst snd] in *.
  rewrite list_lookup_insert_eq by lia. cbn [mbind option_bind].
  rewrite Hcl.
  destruct (queue_fill word cl index
              (λ lane, Z.of_nat (THREAD_GLOBAL_INDEX (32 * warps) block
                                   (32 * warpid + lane)))
              (queue_l sh) 32) as (q' & Hrun & Hlq & Htake);
    [done|pose proof (rank_le word 32); lia|lia|].
  rewrite Hrun. cbn [mbind option_bind].
  eexists. split; [done|].
  rewrite length_word_ids, <- rank_popc.
  split.
  - split; [simpl; lia|]. split; [simpl; lia|].
    split; [simpl; by rewrite length_insert|]. simpl. lia.
  - simpl. rewrite Htake. f_equal. unfold word_ids.
    apply list_fmap_ext. intros _ lane _. f_equal.
    unfold THREAD_GLOBAL_INDEX. lia.
Qed.
End Warp.


(** *** One block *)

Section Block.
Variable cur : list Z.
Variable warps : nat.
Variable block : nat.

Local Abbreviation tpb := (WARP_WIDTH * warps).

Local Abbreviation block_ids := (block_ids cur warps block).

Lemma warps_run ws : ∀ sh cl,
  (∀ w, w ∈ ws → w < warps) → shared_ok warps sh cl →
  cl + 32 * length ws ≤ tpb →
  ∃ sh',
    for_each (warp_step cur (length cur) tpb block) ws sh = Some sh' ∧
    shared_ok warps sh' (cl + length (block_ids ws)) ∧
    take (cl + length (block_ids ws)) (queue_l sh') =
      take cl (queue_l sh) ++ block_ids ws.
Proof.
  induction ws as [|w ws IH]; intros sh cl Hws Hok Hroom.
  - exists sh. simpl. rewrite Nat.add_0_r, app_nil_r. done.
  - cbn [length] in Hroom.
    destruct (warp_step_run cur warps block w sh cl)
      as (sh1 & Hstep & Hok1 & Htake1); [apply Hws; set_solver|done|lia|].
    pose proof (length_warp_ids cur (block * warps + w)) as Hle.
    destruct (IH sh1 _ ltac:(intros; apply Hws; set_solver) Hok1 ltac:(lia))
      as (sh' & Hrun & Hok' & Htake').
    exists sh'. cbn [for_each]. rewrite Hstep. cbn [mbind option_bind].
    unfold block_ids in *. rewrite bind_cons, length_app.
    rewrite Nat.add_assoc. split; [done|]. split; [done|].
    rewrite Htake', Htake1. by rewrite <- app_assoc.
Qed.

(** Only warps with a word of the bitmap contribute, at most 32 ids each. *)
Lemma length_block_ids ws :
  length (block_ids ws) ≤
  32 * length (filter (λ w, block * warps + w < length cur) ws).
Proof.
  induction ws as [|w ws IH]; [done|].
  unfold block_ids in *. rewrite bind_cons, length_app, filter_cons.
  pose proof (length_warp_ids cur (block * warps + w)) as Hle.
  case_decide as Hw; [simpl; lia|].
  unfold warp_ids in *. rewrite lookup_ge_None_2 by lia. simpl. lia.
Qed.

Lemma active_warps ws :
  ws ≡ₚ seq 0 warps →
  length (filter (λ w, block * warps + w < length cur) ws) ≤
  length cur - block * warps.
Proof.
  intros ->.
  destruct (decide (length cur - block * warps ≤ warps)) as [Hle|Hgt].
  - rewrite (list_filter_iff _ (λ w, w < length cur - block * warps))
      by (intros w; lia).
    rewrite (filter_lt_seq _ warps (seq 0 warps)) by done.
    by rewrite length_seq.
  - etrans; [apply length_filter|]. rewrite length_seq. lia.
Qed.

Lemma block_ids_fit ws :
  ws ≡ₚ seq 0 warps → length (block_ids ws) ≤ tpb.
Proof.
  intros Hperm. etrans; [apply length_block_ids|]. unfold WARP_WIDTH.
  apply Nat.mul_le_mono_l. etrans; [apply length_filter|].
  by rewrite Hperm, length_seq.
Qed.

Lemma writers_seq ws cl :
  ws ≡ₚ seq 0 warps → cl ≤ length (block_ids ws) →
  filter (λ idx,
            THREAD_GLOBAL_INDEX tpb block idx / 32 < length cur ∧
            (Z.of_nat idx < Z.of_nat cl)%Z)
         (seq 0 tpb) = seq 0 cl.
Proof.
  intros Hperm Hcl.
  pose proof (length_block_ids ws) as H1.
  pose proof (active_warps ws Hperm) as H2.
  pose proof (block_ids_fit ws Hperm) as Hcap.
  rewrite (list_filter_iff _ (λ idx, idx < cl)).
  - replace tpb with (cl + (tpb - cl)) by lia.
    rewrite seq_app, filter_app, filter_all, filter_none, app_nil_r;
      [done| |]; apply Forall_forall; intros i Hi%elem_of_seq; lia.
  - intros idx. split; [lia|]. intros Hidx. split; [|lia].
    unfold THREAD_GLOBAL_INDEX, WARP_WIDTH.
    replace (idx + 32 * warps * block) with (idx + (block * warps) * 32)
      by lia.
    rewrite Nat.div_add by lia.
    assert (idx / 32 < length cur - block * warps); [|lia].
    apply Nat.Div0.div_lt_upper_bound. lia.
Qed.
End Block.


Lemma list_fill (a : nat) (queue : list Z) (c0 : nat) (n : nat) :
  ∀ (M : gmap nat (list Z)) (l : list Z),
  n ≤ length queue → c0 + n ≤ length l →
  ∃ l',
    for_each (λ idx m, x ← queue !! idx;
                       dev_store m a (Z.of_nat c0 + Z.of_nat idx)%Z x)
             (seq 0 n) (<[a := l]> M) = Some (<[a := l']> M) ∧
    length l' = length l ∧
    take (c0 + n) l' = take c0 l ++ take n queue ∧
    drop (c0 + n) l' = drop (c0 + n) l.
Proof.
  induction n as [|n IH]; intros M l Hq Hl.
  - exists l. rewrite Nat.add_0_r, take_0, app_nil_r. done.
  - destruct (IH M l) as (l1 & Hrun & Hl1 & Htake & Hdrop); [lia..|].
    rewrite seq_S, for_each_app, Hrun. cbn [mbind option_bind for_each].
    rewrite Nat.add_0_l.
    destruct (lookup_lt_is_Some_2 queue n) as [x Hx]; [lia|].
    rewrite Hx. cbn [mbind option_bind].
    replace (Z.of_nat c0 + Z.of_nat n)%Z with (Z.of_nat (c0 + n)) by lia.
    rewrite (dev_store_insert _ _ l1) by (by rewrite ?lookup_insert_eq || lia).
    rewrite insert_insert_eq.
    eexists. split; [done|]. split; [by rewrite length_insert|]. split.
    + replace (c0 + S n) with (S (c0 + n)) by lia.
      erewrite take_S_r by (apply list_lookup_insert_eq; lia).
      rewrite take_insert_ge by lia. rewrite Htake.
      erewrite (take_S_r queue) by done. by rewrite <- app_assoc.
    + rewrite drop_insert_lt by lia.
      replace (c0 + S n) with ((c0 + n) + 1) by lia.
      rewrite <- (drop_drop l1 1 (c0 + n)), <- (drop_drop l 1 (c0 + n)).
      by rewrite Hdrop.
Qed.

Section Kernel.
Variable warps : nat.
Variable sched : schedule.
Variable state : frontier_state_t.
Variable m : gmap nat (list Z).
Variables cur l0 : list Z.
Hypothesis Hok : frontier_ok state m cur l0.

Local Abbreviation mem_of := (mem_at state m).

Lemma mem_at_current l c : mem_of l c !! current state = Some cur.
Proof.
  destruct Hok as (Hnd & Hcur & _).
  apply NoDup_cons in Hnd as [H1 Hnd]. apply NoDup_cons in Hnd as [H2 _].
  unfold mem_at. rewrite !lookup_insert_ne by set_solver. done.
Qed.

Lemma mem_at_count_load l c :
  dev_load (mem_of l c) (count state) 0 = Some c.
Proof.
  destruct Hok as (Hnd & _).
  apply NoDup_cons in Hnd as [H1 _].
  unfold dev_load, mem_at.
  rewrite lookup_insert_ne by set_solver. by rewrite lookup_insert_eq.
Qed.

Lemma mem_at_count_store l c c' :
  dev_store (mem_of l c) (count state) 0 c' = Some (mem_of l c').
Proof.
  destruct Hok as (Hnd & _).
  apply NoDup_cons in Hnd as [H1 _].
  assert (frontier_list state ≠ count state) by set_solver.
  unfold dev_store, mem_at.
  rewrite lookup_insert_ne by done. rewrite lookup_insert_eq.
  cbn [mbind option_bind]. rewrite store_is_Some by (simpl; lia).
  cbn [mbind option_bind]. f_equal. apply map_eq. intros k.
  destruct (decide (k = count state)) as [->|].
  - rewrite lookup_insert_eq. rewrite lookup_insert_ne by done.
    by rewrite lookup_insert_eq.
  - rewrite lookup_insert_ne by done.
    destruct (decide (k = frontier_list state)) as [->|].
    + by rewrite !lookup_insert_eq.
    + by rewrite !lookup_insert_ne.
Qed.

Lemma block_run_ok block l n0 :
  warp_order sched block ≡ₚ seq 0 warps →
  length l = list_len state →
  n0 + length (block_ids cur warps block (warp_order sched block)) ≤
    length l →
  ∃ l',
    block_run warps sched state block (mem_of l (Z.of_nat n0)) =
      Some (mem_of l'
              (Z.of_nat (n0 + length (block_ids cur warps block
                                        (warp_order sched block))))) ∧
    length l' = length l ∧
    take (n0 + length (block_ids cur warps block (warp_order sched block))) l'
      = take n0 l ++ block_ids cur warps block (warp_order sched block) ∧
    drop (n0 + length (block_ids cur warps block (warp_order sched block))) l'
      = drop (n0 + length (block_ids cur warps block (warp_order sched block)))
          l.
Proof.
  intros Hperm Hll Hcap.
  set (ws := warp_order sched block) in *.
  set (L := block_ids cur warps block ws) in *.
  pose proof Hok as (Hnd & Hcur & Hlcur & Hl & Hl0 & Hcnt & Hfit).
  unfold block_run. cbv zeta. fold ws. rewrite mem_at_current.
  cbn [mbind option_bind]. rewrite <- Hlcur.
  match goal with
  | |- context [for_each _ _ ?s ≫= _] => set (sh0 := s)
  end.
  destruct (warps_run cur warps block ws sh0 0) as (sh & Hrun & Hsh & Htake);
    [..|rewrite Hrun].
  { intros w. rewrite Hperm, elem_of_seq. lia. }
  { unfold shared_ok, sh0. cbn [queue_l count_b count_w count_l].
    by rewrite !length_fmap, !length_seq. }
  { rewrite Hperm, length_seq. unfold WARP_WIDTH. lia. }
  cbn [mbind option_bind]. rewrite Nat.add_0_l in Hsh, Htake.
  fold L in Hsh, Htake. destruct Hsh as (Hq & _ & _ & Hcl). rewrite Hcl.
  rewrite (writers_seq cur warps block ws (length L)) by done.
  destruct (decide (length L = 0)) as [HL|HL].
  { exists l. rewrite HL, Nat.add_0_r. split; [done|]. split; [done|].
    apply nil_length_inv in HL. rewrite HL, app_nil_r. done. }
  replace (seq 0 (length L)) with (0 :: seq 1 (length L - 1))
    by (destruct (length L); [lia|]; simpl; by rewrite Nat.sub_0_r).
  rewrite decide_True by set_solver.
  replace (0 :: seq 1 (length L - 1)) with (seq 0 (length L))
    by (destruct (length L); [lia|]; simpl; by rewrite Nat.sub_0_r).
  rewrite mem_at_count_load. cbn [mbind option_bind].
  rewrite mem_at_count_store. cbn [mbind option_bind].
  assert (Z.of_nat n0 + Z.of_nat (length L) < vid_modulus)%Z.
  { clear -Hcap Hll Hfit. lia. }
  rewrite vid_wrap_small by lia.
  pose proof (block_ids_fit cur warps block ws Hperm) as Hfits. fold L in Hfits.
  destruct (list_fill (frontier_list state) (queue_l sh) n0 (length L)
              (<[count state := [(Z.of_nat n0 + Z.of_nat (length L))%Z]]> m) l)
    as (l' & Hfill & Hl' & Htk & Hdr); [lia|lia|].
  exists l'. unfold mem_at. rewrite Hfill.
  replace (Z.of_nat n0 + Z.of_nat (length L))%Z
    with (Z.of_nat (n0 + length L)) by lia.
  split; [done|]. split; [done|]. split; [|done].
  rewrite Htk. f_equal. rewrite Htake. by rewrite take_0.
Qed.
End Kernel.


(** *** The whole launch *)

Section Launch.
Variable warps : nat.
Variable sched : schedule.
Variable state : frontier_state_t.
Variable m : gmap nat (list Z).
Variables cur l0 : list Z.
Hypothesis Hok : frontier_ok state m cur l0.
Hypothesis Hwarps : ∀ block, warp_order sched block ≡ₚ seq 0 warps.

Local Abbreviation mem_of := (mem_at state m).
Local Abbreviation ids := (kernel_ids cur warps sched).

Lemma blocks_run bs : ∀ l n0,
  length l = list_len state →
  n0 + length (ids bs) ≤ length l →
  ∃ l',
    for_each (block_run warps sched state) bs (mem_of l (Z.of_nat n0)) =
      Some (mem_of l' (Z.of_nat (n0 + length (ids bs)))) ∧
    length l' = length l ∧
    take (n0 + length (ids bs)) l' = take n0 l ++ ids bs ∧
    drop (n0 + length (ids bs)) l' =
      drop (n0 + length (ids bs)) l.
Proof.
  induction bs as [|b bs IH]; intros l n0 Hl Hcap.
  - exists l. cbn [for_each]. unfold kernel_ids. cbn [mbind list_bind length].
    rewrite Nat.add_0_r, app_nil_r. done.
  - unfold kernel_ids in *. rewrite bind_cons, length_app in *.
    destruct (block_run_ok warps sched state m cur l0 Hok b l n0)
      as (l1 & Hrun & Hl1 & Htk1 & Hdr1); [done|done|lia|].
    destruct (IH l1 (n0 + length (block_ids cur warps b (warp_order sched b))))
      as (l' & Hrun' & Hl' & Htk' & Hdr'); [lia|lia|].
    exists l'. cbn [for_each]. rewrite Hrun. cbn [mbind option_bind].
    rewrite Hrun'. rewrite !Nat.add_assoc in *.
    split; [done|]. split; [lia|]. split.
    + rewrite Htk', Htk1. by rewrite <- app_assoc.
    + rewrite Hdr'.
      set (a := n0 + length (block_ids cur warps b (warp_order sched b))) in *.
      set (c := length (bs ≫= _)).
      rewrite <- (drop_drop l1 c a), <- (drop_drop l c a). by rewrite Hdr1.
Qed.

Lemma update_list_run :
  length (ids (block_order sched)) ≤ list_len state →
  ∃ l',
    frontier_update_list_gpu warps sched state m =
      Some (mem_of l' (Z.of_nat (length (ids (block_order sched))))) ∧
    length l' = list_len state ∧
    take (length (ids (block_order sched))) l' = ids (block_order sched) ∧
    drop (length (ids (block_order sched))) l' =
      drop (length (ids (block_order sched))) l0.
Proof.
  intros Hcap.
  pose proof Hok as (Hnd & Hcur & Hlcur & Hl & Hl0 & [c Hcnt] & Hfit).
  apply NoDup_cons in Hnd as [H1 _].
  assert (frontier_list state ≠ count state) by set_solver.
  unfold frontier_update_list_gpu, dev_store. rewrite Hcnt.
  cbn [mbind option_bind]. rewrite store_is_Some by (simpl; lia).
  cbn [mbind option_bind].
  replace (<[count state := <[Z.to_nat 0 := 0%Z]> [c]]> m)
    with (mem_of l0 (Z.of_nat 0)).
  2:{ unfold mem_at. rewrite insert_id; [done|].
      by rewrite lookup_insert_ne. }
  destruct (blocks_run (block_order sched) l0 0)
    as (l' & Hrun & Hl' & Htk & Hdr); [done|lia|].
  exists l'. unfold frontier_build_kernel. rewrite Hrun.
  rewrite Nat.add_0_l in *. rewrite take_0, app_nil_l in Htk.
  split; [done|]. split; [lia|]. done.
Qed.
End Launch.

(** *** The listed ids are the set bits *)

Lemma bind_ext_in {A B : Type} (f g : A → list B) (l : list A) :
  (∀ x, x ∈ l → f x = g x) → l ≫= f = l ≫= g.
Proof.
  induction l as [|x l IH]; intros Hfg; [done|].
  rewrite !bind_cons, Hfg by set_solver. f_equal. apply IH.
  intros y Hy. apply Hfg. set_solver.
Qed.

Lemma bind_perm_pointwise {A B : Type} (f g : A → list B) (l : list A) :
  (∀ x, f x ≡ₚ g x) → l ≫= f ≡ₚ l ≫= g.
Proof.
  intros Hfg. induction l as [|x l IH]; [done|].
  rewrite !bind_cons. by rewrite Hfg, IH.
Qed.

Lemma filter_ext_in {A : Type} (P Q : A → Prop) `{∀ x, Decision (P x)}
    `{∀ x, Decision (Q x)} (l : list A) :
  (∀ x, x ∈ l → P x ↔ Q x) → filter P l = filter Q l.
Proof.
  induction l as [|x l IH]; intros HPQ; [done|].
  rewrite !filter_cons.
  rewrite IH by (intros y Hy; apply HPQ; set_solver).
  destruct (decide (P x)) as [HP|HP].
  - rewrite decide_True; [done|]. apply HPQ; [set_solver|done].
  - rewrite decide_False; [done|]. intros HQ. apply HP.
    apply HPQ; [set_solver|done].
Qed.

Lemma filter_fmap {A B : Type} (P : B → Prop) `{∀ x, Decision (P x)}
    (f : A → B) (l : list A) :
  filter P (f <$> l) = f <$> filter (λ x, P (f x)) l.
Proof.
  induction l as [|x l IH]; [done|].
  rewrite fmap_cons, !filter_cons, IH. by case_decide.
Qed.

(** Blocks by blocks, warps by warps: all the words in ascending order. *)
Lemma seq_blocks {B : Type} (f : nat → list B) (warps nblocks : nat) :
  (seq 0 nblocks ≫= λ block, seq 0 warps ≫= λ w, f (block * warps + w)) =
  seq 0 (nblocks * warps) ≫= f.
Proof.
  induction nblocks as [|n IH]; [done|].
  rewrite seq_S, bind_app, IH, bind_singleton.
  replace (S n * warps) with (n * warps + warps) by lia.
  rewrite seq_app, bind_app. f_equal. rewrite !Nat.add_0_l.
  replace (seq (n * warps) warps) with (Nat.add (n * warps) <$> seq 0 warps)
    by (rewrite fmap_add_seq; f_equal; lia).
  by rewrite list_fmap_bind.
Qed.

Lemma warp_ids_app_l cur word widx :
  widx < length cur → warp_ids (cur ++ [word]) widx = warp_ids cur widx.
Proof. intros Hw. unfold warp_ids. by rewrite lookup_app_l. Qed.

Lemma bitmap_test_app_l cur word v :
  v < 32 * length cur →
  bitmap_test (cur ++ [word]) v = bitmap_test cur v.
Proof.
  intros Hv. unfold bitmap_test. rewrite lookup_app_l; [done|].
  apply Nat.Div0.div_lt_upper_bound. lia.
Qed.

Lemma bitmap_test_last cur word lane :
  lane < 32 →
  bitmap_test (cur ++ [word]) (32 * length cur + lane) =
  bitmap_is_set word lane.
Proof.
  intros Hlane. unfold bitmap_test.
  replace ((32 * length cur + lane) / 32) with (length cur)
    by (apply Nat.div_unique with lane; lia).
  replace ((32 * length cur + lane) mod 32) with lane
    by (apply Nat.mod_unique with (length cur); lia).
  rewrite lookup_app_r by lia. by rewrite Nat.sub_diag.
Qed.

Lemma words_set_bits cur :
  seq 0 (length cur) ≫= warp_ids cur = Z.of_nat <$> set_bits cur.
Proof.
  induction cur as [|word cur IH] using rev_ind; [done|].
  unfold set_bits in *. rewrite length_app. cbn [length].
  rewrite Nat.add_1_r, seq_S, bind_app, Nat.add_0_l.
  replace (32 * S (length cur)) with (32 * length cur + 32) by lia.
  rewrite seq_app, filter_app, fmap_app. f_equal.
  - rewrite (bind_ext_in _ (warp_ids cur)).
    2:{ intros w Hw%elem_of_seq. apply warp_ids_app_l. lia. }
    rewrite IH. f_equal. apply filter_ext_in.
    intros v Hv%elem_of_seq. rewrite bitmap_test_app_l by lia. done.
  - rewrite bind_singleton. unfold warp_ids.
    rewrite lookup_app_r by lia. rewrite Nat.sub_diag.
    change ([word] !! 0) with (Some word). unfold word_ids.
    rewrite !Nat.add_0_l.
    replace (seq (32 * length cur) 32)
      with (Nat.add (32 * length cur) <$> seq 0 32)
      by (rewrite fmap_add_seq; f_equal; lia).
    rewrite filter_fmap, <- list_fmap_compose.
    rewrite (filter_ext_in
               (λ x, bitmap_test (cur ++ [word]) (32 * length cur + x))
               (λ lane, bitmap_is_set word lane)).
    2:{ intros lane Hl%elem_of_seq.
        rewrite bitmap_test_last by lia. done. }
    done.
Qed.

Lemma warp_ids_beyond cur widx : length cur ≤ widx → warp_ids cur widx = [].
Proof. intros Hw. unfold warp_ids. by rewrite lookup_ge_None_2. Qed.

Lemma kernel_ids_set_bits warps sched cur len :
  length cur = bitmap_bits_to_words len →
  schedule_ok warps len sched →
  kernel_ids cur warps sched (block_order sched) ≡ₚ
    Z.of_nat <$> set_bits cur.
Proof.
  intros Hcur (nblocks & Hgrid & Hblocks & Hwarps).
  unfold kernel_ids, block_ids. rewrite Hblocks.
  rewrite (bind_perm_pointwise _
    (λ block, seq 0 warps ≫= λ w, warp_ids cur (block * warps + w))).
  2:{ intros block. by rewrite Hwarps. }
  rewrite seq_blocks.
  assert (length cur ≤ nblocks * warps) as Hle.
  { rewrite Hcur. unfold bitmap_bits_to_words, WARP_WIDTH in *.
    assert ((len + 31) / 32 < nblocks * warps + 1); [|lia].
    apply Nat.Div0.div_lt_upper_bound. lia. }
  replace (nblocks * warps)
    with (length cur + (nblocks * warps - length cur)) by lia.
  rewrite seq_app, bind_app, words_set_bits.
  rewrite (bind_ext_in _ (λ _, [])).
  2:{ intros w Hw%elem_of_seq. apply warp_ids_beyond. lia. }
  assert (∀ (l : list nat), l ≫= (λ _ : nat, @nil Z) = []) as ->
    by (induction l; [done|by rewrite bind_cons]).
  by rewrite app_nil_r.
Qed.


Lemma frontier_ok_mem_at state (m : gmap nat (list Z)) cur l l1 c :
  frontier_ok state m cur l → length l1 = list_len state →
  frontier_ok state (mem_at state m l1 c) cur l1 ∧
  mem_at state m l1 c !! count state = Some [c] ∧
  mem_at state m l1 c !! current state = Some cur ∧
  ∀ l2 c', mem_at state (mem_at state m l1 c) l2 c' = mem_at state m l2 c'.
Proof.
  intros (Hnd & Hcur & Hlcur & Hl & Hl0 & Hcnt & Hfit) Hl1.
  pose proof Hnd as Hnd'.
  apply NoDup_cons in Hnd' as [H1 Hnd']. apply NoDup_cons in Hnd' as [H2 _].
  assert (frontier_list state ≠ count state ∧
          frontier_list state ≠ current state ∧
          count state ≠ current state) as (? & ? & ?) by set_solver.
  unfold mem_at.
  assert (Hc : <[frontier_list state := l1]> (<[count state := [c]]> m)
               !! count state = Some [c]).
  { rewrite lookup_insert_ne by done. by rewrite lookup_insert_eq. }
  assert (Hcu : <[frontier_list state := l1]> (<[count state := [c]]> m)
                !! current state = Some cur)
    by by rewrite !lookup_insert_ne.
  split; [|split; [done|split; [done|]]].
  - split; [done|]. split; [done|]. split; [done|].
    split; [by rewrite lookup_insert_eq|]. split; [done|]. split; [eauto|done].
  - intros l2 c'. apply map_eq. intros k.
    destruct (decide (k = frontier_list state)) as [->|];
      [by rewrite !lookup_insert_eq|].
    rewrite !(lookup_insert_ne _ (frontier_list state)) by done.
    destruct (decide (k = count state)) as [->|];
      [by rewrite !lookup_insert_eq|].
    by rewrite !lookup_insert_ne.
Qed.

(** One launch, for a list with enough room. *)
Lemma update_list_set_bits warps sched state (m : gmap nat (list Z)) cur l :
  frontier_ok state m cur l →
  schedule_ok warps (len state) sched →
  length (set_bits cur) ≤ list_len state →
  ∃ l',
    frontier_update_list_gpu warps sched state m =
      Some (mem_at state m l' (Z.of_nat (length (set_bits cur)))) ∧
    length l' = list_len state ∧
    take (length (set_bits cur)) l' ≡ₚ Z.of_nat <$> set_bits cur ∧
    drop (length (set_bits cur)) l' = drop (length (set_bits cur)) l.
Proof.
  intros Hok Hsched Hcap.
  pose proof Hok as (_ & _ & Hlcur & _).
  pose proof (kernel_ids_set_bits warps sched cur (len state) Hlcur Hsched)
    as Hperm.
  pose proof (Permutation_length Hperm) as Hlen.
  rewrite length_fmap in Hlen.
  destruct Hsched as (nblocks & _ & _ & Hwarps).
  destruct (update_list_run warps sched state m cur l Hok Hwarps)
    as (l' & Hrun & Hl' & Htk & Hdr); [lia|].
  rewrite Hlen in *. exists l'.
  split; [done|]. split; [done|]. split; [|done]. by rewrite Htk.
Qed.

(** In a bitmap of [len] bits the set bits are those of the positions
    below [len]. *)
Lemma set_bits_below len cur :
  length cur = bitmap_bits_to_words len →
  Forall (λ v, v < len) (set_bits cur) →
  set_bits cur = filter (λ v, bitmap_test cur v) (seq 0 len) ∧
  length (set_bits cur) ≤ len.
Proof.
  intros Hcur Hbits.
  assert (len ≤ 32 * length cur) as Hle.
  { rewrite Hcur. unfold bitmap_bits_to_words.
    pose proof (Nat.div_mod_eq (len + 31) 32).
    pose proof (Nat.mod_upper_bound (len + 31) 32). lia. }
  assert (set_bits cur = filter (λ v, bitmap_test cur v) (seq 0 len)) as Heq.
  { unfold set_bits in *.
    replace (32 * length cur) with (len + (32 * length cur - len)) in * by lia.
    rewrite seq_app, filter_app in *. apply Forall_app in Hbits as [_ Hhigh].
    destruct (filter _ (seq (0 + len) _)) as [|v vs] eqn:Hf;
      [by rewrite app_nil_r|].
    assert (v ∈ filter (λ v, bitmap_test cur v)
                  (seq (0 + len) (32 * length cur - len))) as Hv
      by (rewrite Hf; left).
    apply list_elem_of_filter in Hv as [_ Hv%elem_of_seq].
    apply Forall_cons in Hhigh as [? _]. lia. }
  split; [done|]. rewrite Heq.
  etrans; [apply length_filter|]. by rewrite length_seq.
Qed.



Lemma build_state_ok :
  frontier_ok build_state build_mem [5; 1]%Z (replicate 40 9%Z).
Proof.
  split; [|repeat split; try reflexivity; by eexists].
  simpl. repeat (apply NoDup_cons; split; [set_solver|]). apply NoDup_nil_2.
Qed.

Lemma warps_in_order_ok : schedule_ok 2 (len build_state) warps_in_order.
Proof. exists 1. split; [simpl; lia|]. split; [done|]. by intros block. Qed.

Lemma warps_swapped_ok : schedule_ok 2 (len build_state) warps_swapped.
Proof.
  exists 1. split; [simpl; lia|]. split; [done|]. intros block.
  apply perm_swap.
Qed.

Lemma reduced_state_ok :
  list_buffer_ok reduced_state build_mem [5; 1]%Z (replicate 40 9%Z).
Proof.
  split; [|repeat split; try reflexivity; by eexists].
  simpl. repeat (apply NoDup_cons; split; [set_solver|]). apply NoDup_nil_2.
Qed.


(** On [reduced_state] the three ids go past the capacity [list_len = 2]
    and stay inside the buffer: the counter ends at [3]. *)
Example frontier_update_list_reduced :
  list_len reduced_state = 2 ∧
  (frontier_update_list_gpu 2 warps_in_order reduced_state build_mem
     ≫= λ m1, m1 !! count reduced_state) = Some [3%Z] ∧
  (frontier_update_list_gpu 2 warps_in_order reduced_state build_mem
     ≫= λ m1, take 3 <$> m1 !! frontier_list reduced_state) =
    Some [0; 2; 32]%Z.
Proof. split; [reflexivity|]. split; vm_compute; reflexivity. Qed.

(** The two schedules list the same three ids in different orders. *)
Example frontier_update_list_orders :
  (frontier_update_list_gpu 2 warps_in_order build_state build_mem
     ≫= λ m1, take 3 <$> m1 !! frontier_list build_state) =
    Some [0; 2; 32]%Z ∧
  (frontier_update_list_gpu 2 warps_swapped build_state build_mem
     ≫= λ m1, take 3 <$> m1 !! frontier_list build_state) =
    Some [32; 0; 2]%Z.
Proof. split; vm_compute; reflexivity. Qed.



(* ===================================================================== *)
(** ** Frontier: degree boundaries                                        *)
(* ===================================================================== *)

Lemma dev_load_insert_ne (m : gmap nat (list Z)) a a' l i :
  a ≠ a' → dev_load (<[a := l]> m) a' i = dev_load m a' i.
Proof. intros H. unfold dev_load. by rewrite lookup_insert_ne. Qed.

Lemma bucket_step (m : gmap nat (list Z)) a B (i : Z) (t : bool) idx old :
  m !! a = Some B → (0 ≤ i)%Z → B !! Z.to_nat i = Some old →
  (if t then atomicMin m a i idx else Some m) =
  Some (<[a := <[Z.to_nat i := if t then Z.min old idx else old]> B]> m).
Proof.
  intros Ha Hi Hb. unfold atomicMin, dev_load, dev_store.
  destruct t.
  - rewrite Ha. simpl. unfold load. rewrite decide_True by done.
    rewrite Hb. simpl.
    rewrite store_is_Some by (apply lookup_lt_Some in Hb; lia). done.
  - rewrite list_insert_id by done. by rewrite insert_id.
Qed.

Section Thread.
Variable state : frontier_state_t.
Variable vertices : list Z.
Variable cnt : nat.
Variable deg : nat → Z.

Lemma thread_run (m0 : gmap nat (list Z)) index B0 B :
  boundaries_ok state vertices m0 cnt deg B0 →
  length B = S FRONTIER_BOUNDARY_COUNT →
  frontier_update_boundaries_thread state vertices index
    (<[boundaries state := B]> m0) =
  Some (<[boundaries state := thread_result cnt deg index B]> m0).
Proof.
  intros (Hbc & Hbl & Hc & Hl & HB0 & HlB0) HlB.
  unfold frontier_update_boundaries_thread, thread_result.
  rewrite !dev_load_insert_ne by done. rewrite Hc. simpl.
  destruct (decide (cnt ≤ index)) as [Hge|Hlt].
  { by rewrite decide_True by lia. }
  rewrite decide_False by lia.
  destruct (Hl index) as (v & Hv & Hn); [lia|].
  rewrite Hv. simpl. rewrite Hn. simpl.
  do 7 (destruct B as [|? B]; [done|]). destruct B; [|done].
  unfold degree_buckets. simpl for_each.
  repeat (erewrite bucket_step;
          [|by rewrite lookup_insert_eq|lia|reflexivity];
          simpl; rewrite insert_insert_eq).
  reflexivity.
Qed.
End Thread.


Section Kernel.
Variable state : frontier_state_t.
Variable vertices : list Z.
Variable cnt : nat.
Variable deg : nat → Z.

Local Abbreviation partial_first := (Frontier.partial_first cnt deg).
Local Abbreviation partial_boundaries :=
  (Frontier.partial_boundaries cnt deg).

Lemma bump_first done b test index old :
  index < cnt →
  (∀ n, test n = true ↔ in_bucket b n) →
  partial_first done b old →
  partial_first (index :: done) b
    (bump test (deg index) (Z.of_nat index) old).
Proof.
  intros Hlt Htest [Hgood Hle]. unfold bump.
  destruct (test (deg index)) eqn:Ht.
  - apply Htest in Ht. split.
    + destruct (Z.min_spec old (Z.of_nat index)) as [[_ ->]|[_ ->]];
        [done|]. right. by exists index.
    + intros i [->|Hi]%elem_of_cons Hic Hb; [lia|].
      specialize (Hle i Hi Hic Hb). lia.
  - split; [done|].
    intros i [->|Hi]%elem_of_cons Hic Hb.
    + apply Htest in Hb. congruence.
    + by apply Hle.
Qed.

Lemma thread_result_first done index B :
  partial_boundaries done B →
  partial_boundaries (index :: done) (thread_result cnt deg index B) ∧
  thread_result cnt deg index B !! 0 = B !! 0.
Proof.
  intros [Hlen Hall]. unfold thread_result.
  destruct (decide (cnt ≤ index)) as [Hge|Hlt].
  { split; [|done]. split; [done|]. intros b Hb.
    destruct (Hall b Hb) as (x & Hx & Hgood & Hle).
    exists x. split; [done|]. split; [done|].
    intros i [->|Hi]%elem_of_cons Hic; [lia|by apply Hle]. }
  do 7 (destruct B as [|? B]; [done|]). destruct B; [|done].
  split; [|done]. split; [done|]. intros b Hb.
  unfold FRONTIER_BOUNDARY_COUNT in Hb.
  destruct (Hall b Hb) as (x & Hx & Hfirst).
  assert (b = 1 ∨ b = 2 ∨ b = 3 ∨ b = 4 ∨ b = 5 ∨ b = 6)
    as [->|[->|[->|[->|[->| ->]]]]] by lia;
    simpl in Hx; injection Hx as ->;
    (eexists; split; [reflexivity|]);
    (apply bump_first; [lia| |done]);
    intros n; simpl; rewrite ?andb_true_iff, ?Z.ltb_lt, ?Z.leb_le; lia.
Qed.

Lemma kernel_run order : ∀ (m0 : gmap nat (list Z)) B0 B done,
  boundaries_ok state vertices m0 cnt deg B0 →
  partial_boundaries done B →
  ∃ B',
    frontier_update_boundaries_kernel order state vertices
      (<[boundaries state := B]> m0) =
      Some (<[boundaries state := B']> m0) ∧
    partial_boundaries (order ++ done) B' ∧ B' !! 0 = B !! 0.
Proof.
  unfold frontier_update_boundaries_kernel.
  induction order as [|index order IH]; intros m0 B0 B done Hok HB.
  - exists B. done.
  - simpl. rewrite (thread_run _ _ _ _ _ _ B0) by (done || apply HB).
    simpl.
    destruct (thread_result_first done index B HB) as [HB1 H0].
    destruct (IH m0 B0 _ _ Hok HB1) as (B' & -> & HB' & H0').
    exists B'. split; [done|]. split; [|congruence].
    destruct HB' as [Hlen Hall]. split; [done|]. intros b Hb.
    destruct (Hall b Hb) as (x & Hx & Hgood & Hle).
    exists x. split; [done|]. split; [done|].
    intros i Hi. apply Hle. set_solver.
Qed.
End Kernel.

Lemma for_each_skip {I S : Type} (body : I → S → option S) (l : list I) (s : S) :
  (∀ i, i ∈ l → body i s = Some s) → for_each body l s = Some s.
Proof.
  induction l as [|i l IH]; intros Hall; [done|].
  simpl. rewrite Hall by set_solver. simpl. apply IH.
  intros j Hj. apply Hall. set_solver.
Qed.

Lemma init_boundaries_run state vertices (m : gmap nat (list Z)) cnt deg B threads :
  boundaries_ok state vertices m cnt deg B →
  FRONTIER_BOUNDARY_COUNT ≤ threads →
  frontier_init_boundaries_kernel threads state m =
    Some (<[boundaries state :=
              default 0%Z (B !! 0) :: replicate FRONTIER_BOUNDARY_COUNT
                                        (Z.of_nat cnt)]> m).
Proof.
  intros (Hbc & Hbl & Hc & Hl & HB & HlB) Hthreads.
  unfold frontier_init_boundaries_kernel.
  replace threads with (FRONTIER_BOUNDARY_COUNT +
                        (threads - FRONTIER_BOUNDARY_COUNT)) by lia.
  rewrite seq_app, for_each_app.
  do 7 (destruct B as [|? B]; [done|]). destruct B; [|done].
  unfold FRONTIER_BOUNDARY_COUNT at 2. simpl seq. simpl for_each.
  unfold dev_store.
  repeat (rewrite ?dev_load_insert_ne by done; rewrite Hc; simpl;
          rewrite ?lookup_insert_eq, ?HB; simpl;
          rewrite ?insert_insert_eq).
  apply for_each_skip. intros i Hi%elem_of_seq.
  rewrite decide_True by lia. done.
Qed.


(** The boundary update as a whole: the entries 1 to 6 are the least
    indices over a set of threads that covers the whole list. *)
Lemma update_boundaries_run state vertices (m : gmap nat (list Z)) cnt deg B
    threads order n :
  boundaries_ok state vertices m cnt deg B →
  FRONTIER_BOUNDARY_COUNT ≤ threads →
  order ≡ₚ seq 0 n → cnt ≤ n →
  ∃ B' done,
    frontier_update_boundaries_gpu true threads order state vertices m =
      Some (<[boundaries state := B']> m) ∧
    B' !! 0 = B !! 0 ∧
    partial_boundaries cnt deg done B' ∧
    ∀ i, i < cnt → i ∈ done.
Proof.
  intros Hok Hthreads Hperm Hn.
  unfold frontier_update_boundaries_gpu.
  rewrite (init_boundaries_run _ _ _ _ _ _ _ Hok Hthreads). simpl.
  pose proof Hok as (Hbc & Hbl & Hc & Hl & HB & HlB).
  unfold frontier_update_boundaries_launch_kernel.
  rewrite dev_load_insert_ne by done. rewrite Hc. simpl.
  set (B1 := default 0%Z (B !! 0) ::
             replicate FRONTIER_BOUNDARY_COUNT (Z.of_nat cnt)).
  assert (HB1 : partial_boundaries cnt deg [] B1).
  { split; [done|]. intros b Hb. exists (Z.of_nat cnt). split.
    - unfold B1. destruct b as [|b]; [lia|].
      unfold FRONTIER_BOUNDARY_COUNT in Hb.
      do 6 (destruct b as [|b]; [done|]). lia.
    - split; [by left|]. intros i Hi. by apply elem_of_nil in Hi. }
  assert (H0 : B1 !! 0 = B !! 0).
  { unfold B1. destruct B; [done|]. done. }
  destruct (decide (Z.of_nat cnt = 0%Z)) as [Hz|Hnz].
  - exists B1, []. split; [done|]. split; [done|]. split; [done|].
    intros i Hi. lia.
  - destruct (kernel_run state vertices cnt deg order m B B1 [] Hok HB1)
      as (B' & Hrun & HB' & H0').
    exists B', (order ++ []). split; [done|]. split; [congruence|].
    split; [done|]. intros i Hi.
    rewrite app_nil_r, Hperm. apply elem_of_seq. lia.
Qed.

Lemma partial_first_all cnt deg done b x :
  (∀ i, i < cnt → i ∈ done) →
  partial_first cnt deg done b x → first_in_bucket deg cnt b x.
Proof.
  intros Hall [Hgood Hle]. split; [done|].
  intros i Hi. apply Hle; [|done]. by apply Hall.
Qed.

Lemma in_bucket_ordered b b' n n' :
  1 ≤ b → b < b' → in_bucket b n → in_bucket b' n' → (n < n')%Z.
Proof.
  intros Hb Hlt Hn Hn'.
  do 7 (destruct b as [|b]; [simpl in *;
    do 8 (destruct b' as [|b']; [simpl in *; lia|]); done|]).
  done.
Qed.

(** C3, as amended: after the boundary update, each of the six entries
    1 to 6 of the boundary array (out-degree ranges 8-31, 32-127, 128-255,
    256-1023, 1024-2047, 2048 or more) holds the least dense-list index
    whose vertex has its out-degree [vertices[v+1] - vertices[v]] in that
    range, or the list count when there is no such vertex.  Entry 0 (the
    range below 8) is not written: it keeps the value it had. *)
Theorem frontier_boundaries_first (state : frontier_state_t)
    (vertices : list Z) (m : gmap nat (list Z)) (cnt : nat) (deg : nat → Z)
    (B : list Z) (threads : nat) (order : list nat) (n : nat) :
  boundaries_ok state vertices m cnt deg B →
  FRONTIER_BOUNDARY_COUNT ≤ threads →
  order ≡ₚ seq 0 n → cnt ≤ n →
  ∃ B',
    frontier_update_boundaries_gpu true threads order state vertices m =
      Some (<[boundaries state := B']> m) ∧
    length B' = S FRONTIER_BOUNDARY_COUNT ∧
    B' !! 0 = B !! 0 ∧
    ∀ b, 1 ≤ b ≤ FRONTIER_BOUNDARY_COUNT →
      ∃ x, B' !! b = Some x ∧ first_in_bucket deg cnt b x.
Proof.
  intros Hok Hthreads Hperm Hn.
  destruct (update_boundaries_run _ _ _ _ _ _ _ _ _ Hok Hthreads Hperm Hn)
    as (B' & done & Hrun & H0 & [Hlen Hall] & Hdone).
  exists B'. split; [done|]. split; [done|]. split; [done|].
  intros b Hb. destruct (Hall b Hb) as (x & Hx & Hfirst).
  exists x. split; [done|]. by eapply partial_first_all.
Qed.

(** C4, as amended: when the out-degrees do not decrease along the dense
    list, then after the boundary update each of the entries 1 to 6 is as
    follows.  A bucket without a frontier vertex records the list count.
    A bucket with a frontier vertex records an offset below the count that
    is at most the offset of every later bucket.  So the offsets of the
    buckets that hold a frontier vertex do not decrease, while the count
    recorded for an empty bucket can exceed the offsets behind it. *)
Theorem frontier_boundaries_monotone (state : frontier_state_t)
    (vertices : list Z) (m : gmap nat (list Z)) (cnt : nat) (deg : nat → Z)
    (B : list Z) (threads : nat) (order : list nat) (n : nat) :
  boundaries_ok state vertices m cnt deg B →
  FRONTIER_BOUNDARY_COUNT ≤ threads →
  order ≡ₚ seq 0 n → cnt ≤ n →
  (∀ i j, i ≤ j → j < cnt → (deg i ≤ deg j)%Z) →
  ∃ B',
    frontier_update_boundaries_gpu true threads order state vertices m =
      Some (<[boundaries state := B']> m) ∧
    ∀ b, 1 ≤ b ≤ FRONTIER_BOUNDARY_COUNT →
      ∃ x, B' !! b = Some x ∧ (0 ≤ x ≤ Z.of_nat cnt)%Z ∧
        ((∀ i, i < cnt → ¬ in_bucket b (deg i)) → x = Z.of_nat cnt) ∧
        ((∃ i, i < cnt ∧ in_bucket b (deg i)) →
         (x < Z.of_nat cnt)%Z ∧
         ∀ b' x', b < b' → b' ≤ FRONTIER_BOUNDARY_COUNT →
           B' !! b' = Some x' → (x ≤ x')%Z).
Proof.
  intros Hok Hthreads Hperm Hn Hsorted.
  destruct (update_boundaries_run _ _ _ _ _ _ _ _ _ Hok Hthreads Hperm Hn)
    as (B' & done & Hrun & H0 & [Hlen Hall] & Hdone).
  exists B'. split; [done|].
  intros b Hb. destruct (Hall b Hb) as (x & Hx & Hfirst).
  apply (partial_first_all _ _ _ _ _ Hdone) in Hfirst as [Hgood Hle].
  exists x. split; [done|]. split; [|split].
  - destruct Hgood as [->|(i & -> & ? & _)]; lia.
  - intros Hempty. destruct Hgood as [->|(i & -> & Hi & Hbi)]; [done|].
    by destruct (Hempty i Hi).
  - intros (i0 & Hi0 & Hb0). pose proof (Hle i0 Hi0 Hb0) as Hx0.
    split; [lia|]. intros b' x' Hlt Hb' Hx'.
    destruct (Hall b') as (y' & Hy' & Hfirst'); [lia|].
    apply (partial_first_all _ _ _ _ _ Hdone) in Hfirst' as [Hgood' _].
    rewrite Hx' in Hy'. injection Hy' as <-.
    destruct Hgood as [->|(i & -> & Hi & Hbi)]; [lia|].
    destruct Hgood' as [->|(i' & -> & Hi' & Hbi')]; [lia|].
    pose proof (in_bucket_ordered b b' _ _ (proj1 Hb) Hlt Hbi Hbi') as Hdeg.
    destruct (decide (i ≤ i')) as [?|Hgt]; [lia|].
    assert (i' ≤ i) as Hii by lia.
    pose proof (Hsorted i' i Hii Hi). lia.
Qed.


Lemma degree_built_ok_2_40 :
  boundaries_ok degree_state offsets_2_40 degree_mem_built 2 degrees_2_40
    (replicate 7 0%Z).
Proof.
  split; [simpl; lia|]. split; [simpl; lia|]. split; [reflexivity|].
  split; [|split; reflexivity].
  intros [|[|i]] Hi; [by exists 0%Z|by exists 1%Z|lia].
Qed.

Lemma frontier_boundaries_first_witness :
  ∃ B',
    frontier_update_boundaries_gpu true 6 [1; 0; 2] degree_state
      offsets_2_40 degree_mem_built =
      Some (<[boundaries degree_state := B']> degree_mem_built) ∧
    length B' = S FRONTIER_BOUNDARY_COUNT ∧
    B' !! 0 = replicate 7 0%Z !! 0 ∧
    ∀ b, 1 ≤ b ≤ FRONTIER_BOUNDARY_COUNT →
      ∃ x, B' !! b = Some x ∧ first_in_bucket degrees_2_40 2 b x.
Proof.
  apply (frontier_boundaries_first degree_state offsets_2_40
           degree_mem_built 2 degrees_2_40 (replicate 7 0%Z) 6 [1; 0; 2] 3).
  - apply degree_built_ok_2_40.
  - vm_compute. lia.
  - apply perm_swap.
  - lia.
Defined.

Lemma degree_built_ok_8_40 :
  boundaries_ok degree_state offsets_8_40 degree_mem_built 2 degrees_8_40
    (replicate 7 0%Z).
Proof.
  split; [simpl; lia|]. split; [simpl; lia|]. split; [reflexivity|].
  split; [|split; reflexivity].
  intros [|[|i]] Hi; [by exists 0%Z|by exists 1%Z|lia].
Qed.

Lemma frontier_boundaries_monotone_witness :
  ∃ B',
    frontier_update_boundaries_gpu true 6 [1; 0; 2] degree_state
      offsets_8_40 degree_mem_built =
      Some (<[boundaries degree_state := B']> degree_mem_built) ∧
    ∀ b, 1 ≤ b ≤ FRONTIER_BOUNDARY_COUNT →
      ∃ x, B' !! b = Some x ∧ (0 ≤ x ≤ Z.of_nat 2)%Z ∧
        ((∀ i, i < 2 → ¬ in_bucket b (degrees_8_40 i)) → x = Z.of_nat 2) ∧
        ((∃ i, i < 2 ∧ in_bucket b (degrees_8_40 i)) →
         (x < Z.of_nat 2)%Z ∧
         ∀ b' x', b < b' → b' ≤ FRONTIER_BOUNDARY_COUNT →
           B' !! b' = Some x' → (x ≤ x')%Z).
Proof.
  apply (frontier_boundaries_monotone degree_state offsets_8_40
           degree_mem_built 2 degrees_8_40 (replicate 7 0%Z) 6 [1; 0; 2] 3).
  - apply degree_built_ok_8_40.
  - vm_compute. lia.
  - apply perm_swap.
  - lia.
  - intros [|[|i]] [|[|j]] Hij Hj; simpl; lia.
Defined.

(** With out-degrees 8 and 40 the ranges 8-31 and 32-127 both hold a
    frontier vertex, at the offsets 0 and 1; the four later ranges are
    empty and record the count 2. *)
Example frontier_boundaries_8_40 :
  frontier_update_boundaries_gpu true 6 [1; 0; 2] degree_state offsets_8_40
    degree_mem_built =
    Some (<[boundaries degree_state := [0; 0; 1; 2; 2; 2; 2]%Z]>
            degree_mem_built) ∧
  in_bucket 1 (degrees_8_40 0) ∧ in_bucket 2 (degrees_8_40 1).
Proof. split; [vm_compute; reflexivity|]. simpl. lia. Qed.

(** C3 as stated fails for the first of the seven buckets: with out-degrees
    8 and 40 no frontier vertex has a degree from 1 to 7, so entry 0 should
    hold the count 2, but it still holds the 0 it was allocated with. *)
Lemma frontier_boundaries_first_entry :
  boundaries_ok degree_state offsets_8_40 degree_mem_built 2 degrees_8_40
    (replicate 7 0%Z) ∧
  frontier_update_boundaries_gpu true 6 [0; 1] degree_state offsets_8_40
    degree_mem_built =
    Some (<[boundaries degree_state := [0; 0; 1; 2; 2; 2; 2]%Z]>
            degree_mem_built) ∧
  ¬ first_in_bucket degrees_8_40 2 0 0.
Proof.
  split; [|split].
  - split; [simpl; lia|]. split; [simpl; lia|]. split; [reflexivity|].
    split; [|split; reflexivity].
    intros [|[|i]] Hi; [by exists 0%Z|by exists 1%Z|lia].
  - vm_compute. reflexivity.
  - intros [[H|(i & H0 & Hi & Hb)] _]; [lia|].
    assert (i = 0) as -> by lia. simpl in Hb. lia.
Qed.

(** C4 as stated fails, in two ways.  Over the degree-sorted graph with
    out-degrees 2 and 40 the list built from the full bitmap is [[0; 1]];
    no vertex falls into the range 8-31, so its entry records the count 2,
    which exceeds the offset 1 recorded for the range 32-127.  Over the
    degree-sorted graph [offsets_sorted_40] with the vertices 0, 2 and 32
    active, the build kernel whose second warp adds its count first lists
    [[32; 0; 2]]: the range 8-31 starts at offset 1 and the range 32-127 at
    offset 0, though both hold a frontier vertex. *)
Lemma frontier_boundaries_not_monotone :
  (∃ m1 B',
     frontier_update_list_gpu 1 single_warp degree_state degree_mem =
       Some m1 ∧
     m1 !! frontier_list degree_state = Some [0; 1]%Z ∧
     m1 !! count degree_state = Some [2]%Z ∧
     frontier_update_boundaries_gpu true 6 [0; 1] degree_state offsets_2_40
       m1 = Some (<[boundaries degree_state := B']> m1) ∧
     B' !! 1 = Some 2%Z ∧ B' !! 2 = Some 1%Z) ∧
  ((λ v, nbr_count offsets_sorted_40 v) <$> seqZ 0 40 =
     replicate 32 (Some 8%Z) ++ replicate 8 (Some 40%Z)) ∧
  schedule_ok 2 (len build_state) warps_swapped ∧
  (∃ m1 B',
     frontier_update_list_gpu 2 warps_swapped build_state build_mem_sorted =
       Some m1 ∧
     take 3 <$> m1 !! frontier_list build_state = Some [32; 0; 2]%Z ∧
     m1 !! count build_state = Some [3]%Z ∧
     frontier_update_boundaries_gpu true 6 [0; 1; 2] build_state
       offsets_sorted_40 m1 = Some (<[boundaries build_state := B']> m1) ∧
     B' = [0; 1; 0; 3; 3; 3; 3]%Z ∧
     B' !! 1 = Some 1%Z ∧ B' !! 2 = Some 0%Z).
Proof.
  split; [|split; [|split]].
  - eexists _, [0; 2; 1; 2; 2; 2; 2]%Z.
    split; [vm_compute; reflexivity|].
    split; [reflexivity|]. split; [reflexivity|].
    split; [vm_compute; reflexivity|]. split; reflexivity.
  - vm_compute. reflexivity.
  - apply warps_swapped_ok.
  - eexists _, _.
    split; [vm_compute; reflexivity|].
    split; [reflexivity|]. split; [reflexivity|].
    split; [vm_compute; reflexivity|]. split; [reflexivity|].
    split; reflexivity.
Qed.

(* ===================================================================== *)
(** ** Frontier: further properties                                       *)
(* ===================================================================== *)

Lemma range_sum_app ptr lo a b :
  range_sum ptr lo (a + b) =
    (range_sum ptr lo a + range_sum ptr (lo + a) b)%Z.
Proof.
  induction b as [|b IH]; [rewrite Nat.add_0_r; simpl; lia|].
  replace (a + S b) with (S (a + b)) by lia. cbn [range_sum].
  rewrite IH, Nat.add_assoc. lia.
Qed.

Lemma vid_wrap_add a b : vid_wrap (vid_wrap a + vid_wrap b) = vid_wrap (a + b).
Proof. unfold vid_wrap. by rewrite <- Z.add_mod. Qed.

Section ScanSum.
Variable warpid : nat.
Variable ptr : list Z.
Hypothesis Hlen : 32 * warpid + 32 ≤ length ptr.
Hypothesis Hcells : ∀ lane x, lane < 32 →
  ptr !! (32 * warpid + lane) = Some x → (0 ≤ x < vid_modulus)%Z.

Local Abbreviation window := (sum_window warpid ptr).

Lemma sum_window_start : window 1 ptr.
Proof.
  split; [done|]. split; [done|]. intros lane Hlane.
  destruct (lookup_lt_is_Some_2 ptr (32 * warpid + lane)) as [x Hx]; [lia|].
  rewrite Hx. f_equal.
  replace (1 `min` S lane) with 1 by lia. cbn [range_sum].
  replace (32 * warpid + S lane - 1 + 0) with (32 * warpid + lane) by lia.
  rewrite Hx. cbn [default]. unfold id. rewrite Z.add_0_l.
  symmetry. apply vid_wrap_small. by eapply Hcells.
Qed.

Lemma scan_round_sum_window D p :
  0 < D → window D p → window (2 * D) (scan_round D warpid p).
Proof.
  intros HD (Hl & Hout & Hin). unfold scan_round.
  split; [by rewrite length_imap|]. split.
  - intros i Hi. rewrite list_lookup_imap.
    destruct (p !! i) as [x|] eqn:Hx; simpl.
    + rewrite decide_False by tauto. by rewrite <- Hx, Hout.
    + by rewrite <- Hout, Hx.
  - intros lane Hlane. rewrite list_lookup_imap, (Hin lane Hlane).
    cbn [fmap option_fmap option_map]. f_equal.
    assert ((32 * warpid + lane) / 32 = warpid) as ->
      by (symmetry; apply Nat.div_unique with lane; lia).
    assert ((32 * warpid + lane) mod 32 = lane) as ->
      by (symmetry; apply Nat.mod_unique with warpid; lia).
    destruct (decide (D ≤ lane)) as [Hge|Hlt].
    + rewrite decide_True by done.
      replace (32 * warpid + lane - D) with (32 * warpid + (lane - D)) by lia.
      rewrite Hin by lia. cbn [default]. unfold id.
      rewrite vid_wrap_add. f_equal.
      replace (D `min` S lane) with D by lia.
      replace ((2 * D) `min` S lane) with (D `min` S (lane - D) + D) by lia.
      rewrite range_sum_app. f_equal; f_equal; lia.
    + rewrite decide_False by lia.
      replace ((2 * D) `min` S lane) with (S lane) by lia.
      replace (D `min` S lane) with (S lane) by lia. done.
Qed.

Lemma scan_rounds_sum_window exclusive :
  window 32 (scan_warp exclusive warpid ptr).1.
Proof.
  unfold scan_warp. cbn [fst].
  exact (scan_round_sum_window 16 _ ltac:(lia)
    (scan_round_sum_window 8 _ ltac:(lia)
      (scan_round_sum_window 4 _ ltac:(lia)
        (scan_round_sum_window 2 _ ltac:(lia)
          (scan_round_sum_window 1 _ ltac:(lia) sum_window_start))))).
Qed.
End ScanSum.

(** X6: [scan_warp] computes the prefix sums of the 32 cells of its warp,
    modulo [2^32]: afterwards cell [lane] of the warp holds the sum of the
    cells [0 .. lane] of the warp before the call, and the other warps'
    cells are untouched.  The value returned to [lane] is that sum for the
    inclusive variant and the sum of the cells [0 .. lane - 1] for the
    exclusive one, converted to [int]: a sum of [2^31] or more, modulo
    [2^32], is returned negative. *)
Theorem scan_warp_prefix_sums (warpid : nat) (ptr : list Z) :
  32 * warpid + 32 ≤ length ptr →
  (∀ lane x, lane < 32 →
     ptr !! (32 * warpid + lane) = Some x → (0 ≤ x < vid_modulus)%Z) →
  ∀ exclusive,
    length (scan_warp exclusive warpid ptr).1 = length ptr ∧
    (∀ i, i / 32 ≠ warpid →
       (scan_warp exclusive warpid ptr).1 !! i = ptr !! i) ∧
    ∀ lane, lane < 32 →
      (scan_warp exclusive warpid ptr).1 !! (32 * warpid + lane) =
        Some (vid_wrap (range_sum ptr (32 * warpid) (S lane))) ∧
      (scan_warp exclusive warpid ptr).2 lane =
        to_int (vid_wrap (range_sum ptr (32 * warpid)
                            (if exclusive then lane else S lane))).
Proof.
  intros Hlen Hcells exclusive.
  destruct (scan_rounds_sum_window warpid ptr Hlen Hcells exclusive)
    as (Hl & Hout & Hin).
  split; [done|]. split; [done|]. intros lane Hlane.
  assert (Hcell : ∀ j, j < 32 →
            (scan_warp exclusive warpid ptr).1 !! (32 * warpid + j) =
              Some (vid_wrap (range_sum ptr (32 * warpid) (S j)))).
  { intros j Hj. rewrite Hin by done.
    replace (32 `min` S j) with (S j) by lia.
    by replace (32 * warpid + S j - S j) with (32 * warpid) by lia. }
  split; [by apply Hcell|].
  unfold scan_warp in *. cbn [fst snd] in *. cbv zeta.
  destruct exclusive.
  - destruct (decide (0 < lane)) as [Hpos|Hz].
    + replace (32 * warpid + lane - 1) with (32 * warpid + (lane - 1)) by lia.
      rewrite Hcell by lia. cbn [default]. unfold id.
      by replace (S (lane - 1)) with lane by lia.
    + replace lane with 0 by lia. done.
  - rewrite Hcell by done. done.
Qed.

Lemma scan_warp_prefix_sums_witness :
  let ptr := [2147483648; 3; 1; 4; 1; 5; 9; 2; 6; 5; 3; 5; 8; 9; 7; 9; 3;
              2; 3; 8; 4; 6; 2; 6; 4; 3; 3; 8; 3; 2; 7; 2147483647]%Z in
  32 * 0 + 32 ≤ length ptr ∧
  ∀ exclusive,
    length (scan_warp exclusive 0 ptr).1 = length ptr ∧
    (∀ i, i / 32 ≠ 0 → (scan_warp exclusive 0 ptr).1 !! i = ptr !! i) ∧
    ∀ lane, lane < 32 →
      (scan_warp exclusive 0 ptr).1 !! (32 * 0 + lane) =
        Some (vid_wrap (range_sum ptr (32 * 0) (S lane))) ∧
      (scan_warp exclusive 0 ptr).2 lane =
        to_int (vid_wrap (range_sum ptr (32 * 0)
                            (if exclusive then lane else S lane))).
Proof.
  intros ptr. split; [simpl; lia|]. apply (scan_warp_prefix_sums 0 ptr).
  - simpl. lia.
  - intros lane x Hlane Hx. apply list_elem_of_lookup_2 in Hx.
    unfold vid_modulus. subst ptr.
    repeat (apply elem_of_cons in Hx as [->|Hx]; [lia|]).
    by apply elem_of_nil in Hx.
Defined.

(** On the 32 cells above, which add up to [2^32 + 140]: lane [0] of the
    inclusive scan gets [2^31] as the negative [int] [-2^31], lane [30]
    gets [2^31 + 141] as [-2^31 + 141], and lane [31], where the sum has
    wrapped around, gets [140]; the cells themselves stay unsigned. *)
Example scan_warp_negative :
  let ptr := [2147483648; 3; 1; 4; 1; 5; 9; 2; 6; 5; 3; 5; 8; 9; 7; 9; 3;
              2; 3; 8; 4; 6; 2; 6; 4; 3; 3; 8; 3; 2; 7; 2147483647]%Z in
  (scan_warp false 0 ptr).2 0 = (-2147483648)%Z ∧
  (scan_warp true 0 ptr).2 1 = (-2147483648)%Z ∧
  (scan_warp false 0 ptr).2 30 = (-2147483507)%Z ∧
  (scan_warp false 0 ptr).2 31 = 140%Z ∧
  (scan_warp false 0 ptr).1 !! 30 = Some 2147483789%Z.
Proof. vm_compute. repeat split; reflexivity. Qed.


(** *** Overflow of the dense list *)

Lemma list_fill_overflow (a : nat) (queue : list Z) (c0 n : nat)
    (M : gmap nat (list Z)) (l : list Z) :
  n ≤ length queue → c0 ≤ length l → length l < c0 + n →
  for_each (λ idx m, x ← queue !! idx;
                     dev_store m a (Z.of_nat c0 + Z.of_nat idx)%Z x)
           (seq 0 n) (<[a := l]> M) = None.
Proof.
  intros Hq Hc0 Hover.
  set (j := length l - c0).
  replace n with (j + S (n - S j)) by lia.
  rewrite seq_app, for_each_app.
  destruct (list_fill a queue c0 j M l) as (l1 & -> & Hl1 & _); [lia..|].
  cbn [mbind option_bind]. rewrite Nat.add_0_l. cbn [seq for_each].
  destruct (lookup_lt_is_Some_2 queue j) as [x ->]; [lia|].
  cbn [mbind option_bind]. unfold dev_store. rewrite lookup_insert_eq.
  cbn [mbind option_bind]. unfold store.
  rewrite decide_False by lia. done.
Qed.

Section Overflow.
Variable warps : nat.
Variable sched : schedule.
Variable state : frontier_state_t.
Variable m : gmap nat (list Z).
Variables cur l0 : list Z.
Hypothesis Hok : frontier_ok state m cur l0.
Hypothesis Hwarps : ∀ block, warp_order sched block ≡ₚ seq 0 warps.

Local Abbreviation mem_of := (mem_at state m).
Local Abbreviation ids := (kernel_ids cur warps sched).

Lemma block_run_overflow block l n0 :
  length l = list_len state → n0 ≤ length l →
  length l <
    n0 + length (block_ids cur warps block (warp_order sched block)) →
  block_run warps sched state block (mem_of l (Z.of_nat n0)) = None.
Proof.
  intros Hll Hn0 Hover.
  pose proof (Hwarps block) as Hperm.
  set (ws := warp_order sched block) in *.
  set (L := block_ids cur warps block ws) in *.
  pose proof Hok as (Hnd & Hcur & Hlcur & Hl & Hl0 & Hcnt & Hfit).
  unfold block_run. cbv zeta. fold ws.
  rewrite (mem_at_current state m cur l0 Hok).
  cbn [mbind option_bind]. rewrite <- Hlcur.
  match goal with
  | |- context [for_each _ _ ?s ≫= _] => set (sh0 := s)
  end.
  destruct (warps_run cur warps block ws sh0 0) as (sh & Hrun & Hsh & Htake);
    [..|rewrite Hrun].
  { intros w. rewrite Hperm, elem_of_seq. lia. }
  { unfold shared_ok, sh0. cbn [queue_l count_b count_w count_l].
    by rewrite !length_fmap, !length_seq. }
  { rewrite Hperm, length_seq. unfold WARP_WIDTH. lia. }
  cbn [mbind option_bind]. rewrite Nat.add_0_l in Hsh, Htake.
  fold L in Hsh, Htake. destruct Hsh as (Hq & _ & _ & Hcl). rewrite Hcl.
  rewrite (writers_seq cur warps block ws (length L)) by done.
  replace (seq 0 (length L)) with (0 :: seq 1 (length L - 1))
    by (destruct (length L); [lia|]; simpl; by rewrite Nat.sub_0_r).
  rewrite decide_True by set_solver.
  replace (0 :: seq 1 (length L - 1)) with (seq 0 (length L))
    by (destruct (length L); [lia|]; simpl; by rewrite Nat.sub_0_r).
  rewrite (mem_at_count_load state m cur l0 Hok). cbn [mbind option_bind].
  rewrite (mem_at_count_store state m cur l0 Hok). cbn [mbind option_bind].
  pose proof (block_ids_fit cur warps block ws Hperm) as Hfits. fold L in Hfits.
  unfold mem_at. apply list_fill_overflow; lia.
Qed.

Lemma blocks_run_overflow bs : ∀ l n0,
  length l = list_len state → n0 ≤ length l →
  length l < n0 + length (ids bs) →
  for_each (block_run warps sched state) bs (mem_of l (Z.of_nat n0)) = None.
Proof.
  induction bs as [|b bs IH]; intros l n0 Hl Hn0 Hover.
  - unfold kernel_ids in Hover. cbn [mbind list_bind length] in Hover. lia.
  - unfold kernel_ids in *. rewrite bind_cons, length_app in Hover.
    cbn [for_each].
    destruct (decide (n0 + length (block_ids cur warps b (warp_order sched b))
                      ≤ length l)) as [Hfits|Hno].
    + destruct (block_run_ok warps sched state m cur l0 Hok b l n0)
        as (l1 & -> & Hl1 & _); [done|done|done|].
      cbn [mbind option_bind]. apply IH; lia.
    + rewrite block_run_overflow; [done|done|done|lia].
Qed.
End Overflow.

(** *** The list buffer and the field [list_len] *)


Lemma short_state_ok : list_buffer_ok short_state short_mem [3]%Z [7; 7]%Z.
Proof.
  split; [|repeat split; try reflexivity; by eexists].
  simpl. repeat (apply NoDup_cons; split; [set_solver|]). apply NoDup_nil_2.
Qed.

Lemma single_warp_ok len : len ≤ 32 → schedule_ok 1 len single_warp.
Proof.
  intros Hlen. exists 1. split; [unfold WARP_WIDTH; lia|].
  split; [done|]. by intros block.
Qed.


(** The counter of [short_state] ends above its [list_len]. *)
Example frontier_update_list_past_capacity :
  (frontier_update_list_gpu 1 single_warp short_state short_mem
     ≫= λ m1, m1 !! count short_state) = Some [2%Z] ∧
  list_len short_state = 1.
Proof. split; [vm_compute|]; reflexivity. Qed.

(** X8: whenever the bitmap holds more set bits than the list buffer has
    cells, the build kernel stores past the end of the buffer, whatever
    the order of its blocks and warps. *)
Theorem frontier_update_list_overflows (warps : nat) (sched : schedule)
    (state : frontier_state_t) (m : gmap nat (list Z)) (cur l : list Z) :
  list_buffer_ok state m cur l →
  schedule_ok warps (len state) sched →
  length l < length (set_bits cur) →
  frontier_update_list_gpu warps sched state m = None.
Proof.
  intros Hok Hsched Hover.
  change (frontier_update_list_gpu warps sched
            (with_list_len (length l) state) m = None).
  unfold list_buffer_ok in Hok.
  change (len state) with (len (with_list_len (length l) state)) in Hsched.
  revert Hok Hsched. generalize (with_list_len (length l) state).
  clear state. intros state Hok Hsched.
  pose proof Hok as (Hnd & Hcur & Hlcur & Hl & Hl0 & [c Hcnt] & Hfit).
  pose proof (kernel_ids_set_bits warps sched cur (len state) Hlcur Hsched)
    as Hperm%Permutation_length.
  rewrite length_fmap in Hperm.
  destruct Hsched as (nblocks & _ & _ & Hwarps).
  apply NoDup_cons in Hnd as [H1 _].
  assert (frontier_list state ≠ count state) by set_solver.
  unfold frontier_update_list_gpu, dev_store. rewrite Hcnt.
  cbn [mbind option_bind]. rewrite store_is_Some by (simpl; lia).
  cbn [mbind option_bind].
  replace (<[count state := <[Z.to_nat 0 := 0%Z]> [c]]> m)
    with (mem_at state m l (Z.of_nat 0)).
  2:{ unfold mem_at. rewrite insert_id; [done|].
      by rewrite lookup_insert_ne. }
  unfold frontier_build_kernel.
  apply (blocks_run_overflow warps sched state m cur l Hok Hwarps); lia.
Qed.

Lemma frontier_update_list_overflows_witness :
  frontier_update_list_gpu 1 single_warp cramped_state cramped_mem = None.
Proof.
  apply (frontier_update_list_overflows 1 single_warp cramped_state
           cramped_mem [3]%Z [0]%Z).
  - split; [|repeat split; try reflexivity; by eexists].
    simpl. repeat (apply NoDup_cons; split; [set_solver|]). apply NoDup_nil_2.
  - apply single_warp_ok. simpl. lia.
  - vm_compute. lia.
Defined.

(** *** Blocks and warps in index order *)

Lemma sorted_filter_seq (P : nat → Prop) `{∀ x, Decision (P x)} n : ∀ a,
  StronglySorted lt (filter P (seq a n)).
Proof.
  induction n as [|n IH]; intros a; [constructor|].
  cbn [seq]. rewrite filter_cons.
  assert (Forall (lt a) (filter P (seq (S a) n))).
  { apply Forall_forall. intros x [_ Hx%elem_of_seq]%list_elem_of_filter. lia. }
  case_decide; [constructor; [apply IH|done]|apply IH].
Qed.

Lemma bind_nil_const {A B : Type} (l : list A) : l ≫= (λ _, @nil B) = [].
Proof. induction l; [done|by rewrite bind_cons]. Qed.



(** *** Degree boundaries: independence of the schedule *)

Lemma first_in_bucket_unique deg cnt b x x' :
  first_in_bucket deg cnt b x → first_in_bucket deg cnt b x' → x = x'.
Proof.
  intros [[->|(i & -> & Hi & Hb)] Hmin] [[->|(i' & -> & Hi' & Hb')] Hmin'].
  - done.
  - pose proof (Hmin i' Hi' Hb'). lia.
  - pose proof (Hmin' i Hi Hb). lia.
  - pose proof (Hmin i' Hi' Hb'). pose proof (Hmin' i Hi Hb). lia.
Qed.

(** X10: the boundary array that the update leaves behind does not depend on
    the order in which the threads of the update kernel run, nor on the
    sizes of the two grids. *)
Theorem frontier_boundaries_any_order (state : frontier_state_t)
    (vertices : list Z) (m : gmap nat (list Z)) (cnt : nat) (deg : nat → Z)
    (B : list Z) (threads1 threads2 : nat) (order1 order2 : list nat)
    (n1 n2 : nat) :
  boundaries_ok state vertices m cnt deg B →
  FRONTIER_BOUNDARY_COUNT ≤ threads1 → FRONTIER_BOUNDARY_COUNT ≤ threads2 →
  order1 ≡ₚ seq 0 n1 → cnt ≤ n1 →
  order2 ≡ₚ seq 0 n2 → cnt ≤ n2 →
  is_Some (frontier_update_boundaries_gpu true threads1 order1 state
             vertices m) ∧
  frontier_update_boundaries_gpu true threads1 order1 state vertices m =
  frontier_update_boundaries_gpu true threads2 order2 state vertices m.
Proof.
  intros Hok Ht1 Ht2 Ho1 Hn1 Ho2 Hn2.
  destruct (update_boundaries_run state vertices m cnt deg B threads1 order1
              n1 Hok Ht1 Ho1 Hn1) as (B1 & d1 & Hrun1 & H01 & Hp1 & Hall1).
  destruct (update_boundaries_run state vertices m cnt deg B threads2 order2
              n2 Hok Ht2 Ho2 Hn2) as (B2 & d2 & Hrun2 & H02 & Hp2 & Hall2).
  rewrite Hrun1, Hrun2. split; [by eexists|]. do 2 f_equal.
  destruct Hp1 as [Hl1 Hp1]. destruct Hp2 as [Hl2 Hp2].
  apply list_eq. intros b.
  destruct (decide (b = 0)) as [->|Hb0]; [congruence|].
  destruct (decide (b ≤ FRONTIER_BOUNDARY_COUNT)) as [Hb|Hb].
  - destruct (Hp1 b) as (x1 & -> & Hx1); [lia|].
    destruct (Hp2 b) as (x2 & -> & Hx2); [lia|]. f_equal.
    apply (first_in_bucket_unique deg cnt b);
      [by apply (partial_first_all cnt deg d1)
      |by apply (partial_first_all cnt deg d2)].
  - rewrite !lookup_ge_None_2; [done|lia..].
Qed.

Lemma frontier_boundaries_any_order_witness :
  is_Some (frontier_update_boundaries_gpu true 6 [1; 0; 2] degree_state
             offsets_2_40 degree_mem_built) ∧
  frontier_update_boundaries_gpu true 6 [1; 0; 2] degree_state offsets_2_40
    degree_mem_built =
  frontier_update_boundaries_gpu true 8 [0; 1] degree_state offsets_2_40
    degree_mem_built.
Proof.
  apply (frontier_boundaries_any_order degree_state offsets_2_40
           degree_mem_built 2 degrees_2_40 (replicate 7 0%Z) 6 8
           [1; 0; 2] [0; 1] 3 2).
  - apply degree_built_ok_2_40.
  - unfold FRONTIER_BOUNDARY_COUNT. lia.
  - unfold FRONTIER_BOUNDARY_COUNT. lia.
  - apply perm_swap.
  - lia.
  - reflexivity.
  - lia.
Defined.


(** *** From the visited set to the dense list *)

Lemma bitmap_test_ldiff (V L : list Z) (v : nat) :
  length L = length V →
  bitmap_test (zip_with Z.ldiff V L) v =
    bitmap_test V v && negb (bitmap_test L v).
Proof.
  intros Hlen. unfold bitmap_test. rewrite lookup_zip_with.
  destruct (V !! (v / 32)) as [x|] eqn:Hx; [|done].
  destruct (lookup_lt_is_Some_2 L (v / 32)) as [y Hy].
  { rewrite Hlen. by eapply lookup_lt_Some. }
  rewrite Hy. cbn [mbind option_bind]. unfold bitmap_is_set.
  apply Z.ldiff_spec.
Qed.

Lemma set_bits_ldiff (V L : list Z) :
  length L = length V → set_bits (zip_with Z.ldiff V L) = new_bits V L.
Proof.
  intros Hlen. unfold set_bits, new_bits.
  rewrite length_zip_with, Hlen, Nat.min_id.
  apply filter_ext_in. intros v _. rewrite bitmap_test_ldiff by done.
  destruct (bitmap_test V v), (bitmap_test L v); simpl; naive_solver.
Qed.



(** *** Set-up and tear-down *)

Lemma totem_free_alloc (contents : list Z) (m : gmap nat (list Z)) :
  totem_free (alloc contents m).1 (alloc contents m).2 = Some m.
Proof.
  unfold totem_free, alloc. cbn [fst snd].
  rewrite decide_True by (rewrite lookup_insert_eq; by eexists).
  f_equal. apply delete_insert_id, not_elem_of_dom, is_fresh.
Qed.

Lemma alloc_fresh (contents : list Z) (m : gmap nat (list Z)) :
  m !! (alloc contents m).1 = None ∧
  (alloc contents m).2 !! (alloc contents m).1 = Some contents ∧
  ∀ a, a ≠ (alloc contents m).1 → (alloc contents m).2 !! a = m !! a.
Proof.
  unfold alloc. cbn [fst snd]. split; [apply not_elem_of_dom, is_fresh|].
  split; [apply lookup_insert_eq|]. intros a Ha. by apply lookup_insert_ne.
Qed.

(** X12: tearing a frontier down releases exactly the blocks that setting it up
    allocated: the device memory is as it was before, for the accelerator
    and for the host variant, whether or not the engine is sorted. *)
Theorem frontier_init_finalize (sorted_asc engine_sorted : bool)
    (max_frontier_len : nat → nat) (init : nat → Z)
    (state : frontier_state_t) (vertex_count : nat)
    (m : gmap nat (list Z)) :
  (let '(s, m') := frontier_init_gpu sorted_asc engine_sorted
                     max_frontier_len init state vertex_count m in
   frontier_finalize_gpu engine_sorted s m' = Some m) ∧
  (let '(s, m') := frontier_init_cpu init state vertex_count m in
   frontier_finalize_cpu s m' = Some m).
Proof.
  assert (∀ contents M a M', alloc contents M = (a, M') →
            totem_free a M' = Some M) as Hfree.
  { intros contents M a M' HM.
    pose proof (totem_free_alloc contents M) as Hf.
    by rewrite HM in Hf. }
  unfold frontier_init_gpu, frontier_init_cpu, frontier_finalize_gpu,
    frontier_finalize_cpu, bitmap_init, bitmap_finalize, totem_calloc.
  split.
  - destruct (alloc _ m) as [cur m1] eqn:H1.
    destruct (alloc _ m1) as [last m2] eqn:H2.
    destruct (alloc _ m2) as [cnt m3] eqn:H3.
    destruct (alloc _ m3) as [lst m4] eqn:H4.
    destruct engine_sorted.
    + destruct (alloc _ m4) as [bnd m5] eqn:H5. cbn.
      rewrite (Hfree _ _ _ _ H5). cbn. rewrite (Hfree _ _ _ _ H4). cbn.
      rewrite (Hfree _ _ _ _ H3). cbn. rewrite (Hfree _ _ _ _ H2). cbn.
      apply (Hfree _ _ _ _ H1).
    + cbn. rewrite (Hfree _ _ _ _ H4). cbn.
      rewrite (Hfree _ _ _ _ H3). cbn. rewrite (Hfree _ _ _ _ H2). cbn.
      apply (Hfree _ _ _ _ H1).
  - destruct (alloc _ m) as [cur m1] eqn:H1.
    destruct (alloc _ m1) as [last m2] eqn:H2. cbn.
    rewrite (Hfree _ _ _ _ H2). cbn. apply (Hfree _ _ _ _ H1).
Qed.

(** X13: setting a frontier up leaves every block that was in use as it was
    and produces a state that the list update accepts: two bitmaps of
    [bitmap_bits_to_words vertex_count] words, a counter cell holding
    zero and a zeroed list of [vertex_count] cells, all in blocks of their
    own; the list has [vertex_count] cells also when [list_len] is
    reduced. *)
Theorem frontier_init_gpu_ok (sorted_asc engine_sorted : bool)
    (max_frontier_len : nat → nat) (init : nat → Z)
    (state : frontier_state_t) (vertex_count : nat)
    (m : gmap nat (list Z)) :
  (Z.of_nat vertex_count < vid_modulus)%Z →
  let '(s, m') := frontier_init_gpu sorted_asc engine_sorted
                    max_frontier_len init state vertex_count m in
  m ⊆ m' ∧
  len s = vertex_count ∧
  list_len s =
    (if sorted_asc then max_frontier_len vertex_count else vertex_count) ∧
  list_buffer_ok s m' (init <$> seq 0 (bitmap_bits_to_words vertex_count))
    (replicate vertex_count 0%Z) ∧
  m' !! count s = Some [0%Z] ∧
  m' !! visited_last s =
    Some (init <$> seq 0 (bitmap_bits_to_words vertex_count)) ∧
  current s ≠ visited_last s ∧
  (engine_sorted = true →
     m' !! boundaries s = Some (replicate (S FRONTIER_BOUNDARY_COUNT) 0%Z) ∧
     boundaries s ∉ [frontier_list s; count s; current s; visited_last s]).
Proof.
  intros Hfit.
  unfold frontier_init_gpu, bitmap_init, totem_calloc.
  pose proof (alloc_fresh (init <$> seq 0 (bitmap_bits_to_words vertex_count))
                m) as (Hn1 & Hs1 & Ho1).
  destruct (alloc _ m) as [cur m1]. cbn [fst snd] in *.
  pose proof (alloc_fresh (init <$> seq 0 (bitmap_bits_to_words vertex_count))
                m1) as (Hn2 & Hs2 & Ho2).
  destruct (alloc _ m1) as [last m2]. cbn [fst snd] in *.
  pose proof (alloc_fresh (replicate 1 0%Z) m2) as (Hn3 & Hs3 & Ho3).
  destruct (alloc _ m2) as [cnt m3]. cbn [fst snd] in *.
  pose proof (alloc_fresh (replicate vertex_count 0%Z) m3)
    as (Hn4 & Hs4 & Ho4).
  destruct (alloc _ m3) as [lst m4]. cbn [fst snd] in *.
  assert (last ≠ cur) by (intros ->; congruence).
  assert (cnt ≠ last) by (intros ->; congruence).
  assert (cnt ≠ cur).
  { intros ->. rewrite Ho2 in Hn3 by done. congruence. }
  assert (lst ≠ cnt) by (intros ->; congruence).
  assert (lst ≠ last).
  { intros ->. rewrite Ho3 in Hn4 by done. congruence. }
  assert (lst ≠ cur).
  { intros ->. rewrite Ho3, Ho2 in Hn4 by done. congruence. }
  assert (m !! last = None) as Hm2 by (by rewrite <- Ho1).
  assert (m !! cnt = None) as Hm3 by (by rewrite <- Ho1, <- Ho2).
  assert (m !! lst = None) as Hm4 by (by rewrite <- Ho1, <- Ho2, <- Ho3).
  assert (Hsub4 : m ⊆ m4).
  { apply map_subseteq_spec. intros a x Ha.
    rewrite Ho4, Ho3, Ho2, Ho1; [done|intros ->; congruence..]. }
  assert (Hfields :
    m4 !! cur = Some (init <$> seq 0 (bitmap_bits_to_words vertex_count)) ∧
    m4 !! last = Some (init <$> seq 0 (bitmap_bits_to_words vertex_count)) ∧
    m4 !! cnt = Some [0%Z] ∧ m4 !! lst = Some (replicate vertex_count 0%Z)).
  { rewrite !Ho4, !Ho3, Ho2 by done. done. }
  destruct Hfields as (Hc & Hl & Hcn & Hls).
  assert (Hnd : NoDup [lst; cnt; cur]).
  { repeat (apply NoDup_cons; split; [set_solver|]). apply NoDup_nil_2. }
  destruct engine_sorted.
  - pose proof (alloc_fresh (replicate (FRONTIER_BOUNDARY_COUNT + 1) 0%Z) m4)
      as (Hn5 & Hs5 & Ho5).
    destruct (alloc _ m4) as [bnd m5]. cbn [fst snd] in *.
    assert (bnd ≠ lst ∧ bnd ≠ cnt ∧ bnd ≠ cur ∧ bnd ≠ last)
      as (? & ? & ? & ?) by (repeat split; intros ->; congruence).
    split.
    { etrans; [exact Hsub4|]. apply map_subseteq_spec. intros a x Ha.
      rewrite Ho5; [done|intros ->; congruence]. }
    split; [done|]. split; [done|]. split.
    { split; [exact Hnd|]. cbn. rewrite !Ho5 by done.
      split; [done|]. split; [by rewrite length_fmap, length_seq|].
      split; [done|]. split; [done|]. split; [by eexists|].
      by rewrite length_replicate. }
    cbn. rewrite !Ho5 by done. split; [done|]. split; [done|].
    split; [done|]. intros _. split; [by rewrite Hs5, Nat.add_1_r|].
    set_solver.
  - split; [done|]. split; [done|]. split; [done|]. split.
    { split; [exact Hnd|]. cbn.
      split; [done|]. split; [by rewrite length_fmap, length_seq|].
      split; [done|]. split; [done|]. split; [by eexists|].
      by rewrite length_replicate. }
    cbn. split; [done|]. split; [done|]. split; [done|]. done.
Qed.

Lemma frontier_init_gpu_ok_witness :
  let '(s, m') := frontier_init_gpu true true (λ n, n / 2) (λ _, 0%Z)
                    short_state 40 short_mem in
  short_mem ⊆ m' ∧
  len s = 40 ∧
  list_len s = 20 ∧
  list_buffer_ok s m' ((λ _, 0%Z) <$> seq 0 (bitmap_bits_to_words 40))
    (replicate 40 0%Z) ∧
  m' !! count s = Some [0%Z] ∧
  m' !! visited_last s =
    Some ((λ _, 0%Z) <$> seq 0 (bitmap_bits_to_words 40)) ∧
  current s ≠ visited_last s ∧
  (true = true →
     m' !! boundaries s = Some (replicate (S FRONTIER_BOUNDARY_COUNT) 0%Z) ∧
     boundaries s ∉ [frontier_list s; count s; current s; visited_last s]).
Proof.
  apply (frontier_init_gpu_ok true true (λ n, n / 2) (λ _, 0%Z) short_state
           40 short_mem).
  vm_compute. reflexivity.
Defined.

End FrontierFacts.

(* ===================================================================== *)
(** ** Engine: destination lookup                                         *)
(* ===================================================================== *)

Module EngineFacts.
Import Engine.
Local Open Scope Z_scope.

(** C5: over an outbox table with one box per peer partition,
    [ENGINE_FETCH_DST] resolves every neighbour reference and leaves the
    allocator state as it was.  A neighbour of the current partition
    resolves to [pstate[GET_VERTEX_ID(nbr)]].  A neighbour of another
    partition resolves to entry [GET_VERTEX_ID(nbr)] of the values array
    of the box that the outbox table holds at
    [GROOVES_BOX_INDEX(nbr_pid, pid, pcount)], an array other than
    [pstate].  That box is the one outbox of the pair: two neighbours
    resolve into the same array exactly when they belong to the same
    partition. *)
Theorem engine_fetch_dst_resolves
    (GET_PARTITION_ID GET_VERTEX_ID : Z → Z)
    (GROOVES_BOX_INDEX : Z → Z → Z → Z)
    (pid : Z) (outbox : list grooves_box_table_t) (pstate : nat)
    (pcount : Z) (h : heap) :
  outbox_table_ok GROOVES_BOX_INDEX pid outbox pstate pcount →
  let fetch := ENGINE_FETCH_DST GET_PARTITION_ID GET_VERTEX_ID
                 GROOVES_BOX_INDEX pid in
  ∀ nbr,
    (GET_PARTITION_ID nbr = pid →
       fetch nbr outbox pstate pcount h =
         Some (Addr pstate (GET_VERTEX_ID nbr), h)) ∧
    (GET_PARTITION_ID nbr ≠ pid → 0 ≤ GET_PARTITION_ID nbr < pcount →
       ∃ box,
         outbox !! Z.to_nat
           (GROOVES_BOX_INDEX (GET_PARTITION_ID nbr) pid pcount) = Some box ∧
         fetch nbr outbox pstate pcount h =
           Some (Addr (values box) (GET_VERTEX_ID nbr), h) ∧
         values box ≠ pstate) ∧
    (∀ nbr' a a' h1 h2,
       0 ≤ GET_PARTITION_ID nbr < pcount →
       0 ≤ GET_PARTITION_ID nbr' < pcount →
       fetch nbr outbox pstate pcount h = Some (a, h1) →
       fetch nbr' outbox pstate pcount h = Some (a', h2) →
       (addr_block a = addr_block a' ↔
        GET_PARTITION_ID nbr = GET_PARTITION_ID nbr')).
Proof.
  intros (Hrange & Hinj & Hnd) fetch nbr. subst fetch.
  assert (Hremote : ∀ n, GET_PARTITION_ID n ≠ pid →
            0 ≤ GET_PARTITION_ID n < pcount →
            ∃ box,
              outbox !! Z.to_nat
                (GROOVES_BOX_INDEX (GET_PARTITION_ID n) pid pcount) =
                Some box ∧
              ENGINE_FETCH_DST GET_PARTITION_ID GET_VERTEX_ID
                GROOVES_BOX_INDEX pid n outbox pstate pcount h =
                Some (Addr (values box) (GET_VERTEX_ID n), h) ∧
              values box ≠ pstate).
  { intros n Hp Hr. pose proof (Hrange _ Hr Hp) as Hi.
    destruct (lookup_lt_is_Some_2 outbox
                (Z.to_nat (GROOVES_BOX_INDEX (GET_PARTITION_ID n) pid pcount)))
      as [box Hbox]; [lia|].
    exists box. split; [done|]. split.
    - unfold ENGINE_FETCH_DST, box_at.
      rewrite decide_True by done. rewrite decide_True by lia.
      by rewrite Hbox.
    - apply NoDup_cons in Hnd as [Hps _]. intros Heq. apply Hps.
      rewrite <- Heq. apply list_elem_of_fmap. exists box. split; [done|].
      by eapply list_elem_of_lookup_2. }
  assert (Hlocal : ∀ n, GET_PARTITION_ID n = pid →
            ENGINE_FETCH_DST GET_PARTITION_ID GET_VERTEX_ID
              GROOVES_BOX_INDEX pid n outbox pstate pcount h =
              Some (Addr pstate (GET_VERTEX_ID n), h)).
  { intros n Hp. unfold ENGINE_FETCH_DST.
    by rewrite decide_False by (intros ?; done). }
  split; [apply Hlocal|]. split; [apply Hremote|].
  intros nbr' a a' h1 h2 Hr Hr'.
  destruct (decide (GET_PARTITION_ID nbr = pid)) as [Hp|Hp];
    destruct (decide (GET_PARTITION_ID nbr' = pid)) as [Hp'|Hp'].
  - rewrite (Hlocal _ Hp), (Hlocal _ Hp').
    intros [= <- <-] [= <- <-]. simpl. split; [congruence|done].
  - destruct (Hremote _ Hp' Hr') as (box' & _ & -> & Hne').
    rewrite (Hlocal _ Hp). intros [= <- <-] [= <- <-]. simpl.
    split; [congruence|congruence].
  - destruct (Hremote _ Hp Hr) as (box & _ & -> & Hne).
    rewrite (Hlocal _ Hp'). intros [= <- <-] [= <- <-]. simpl.
    split; [congruence|congruence].
  - destruct (Hremote _ Hp Hr) as (box & Hbox & -> & _).
    destruct (Hremote _ Hp' Hr') as (box' & Hbox' & -> & _).
    intros [= <- <-] [= <- <-]. simpl. split.
    + intros Heq. apply Hinj; try done.
      pose proof (Hrange _ Hr Hp). pose proof (Hrange _ Hr' Hp').
      apply NoDup_cons in Hnd as [_ Hnd].
      assert (Z.to_nat (GROOVES_BOX_INDEX (GET_PARTITION_ID nbr) pid pcount) =
              Z.to_nat (GROOVES_BOX_INDEX (GET_PARTITION_ID nbr') pid pcount));
        [|lia].
      apply (NoDup_lookup _ _ _ (values box) Hnd);
        rewrite list_lookup_fmap; [rewrite Hbox|rewrite Hbox']; simpl;
        congruence.
    + intros Heq. rewrite Heq in Hbox. congruence.
Qed.

Lemma example_box_index_inj r r' :
  0 ≤ r < 3 → 0 ≤ r' < 3 → r ≠ 0 → r' ≠ 0 →
  example_box_index r 0 3 = example_box_index r' 0 3 → r = r'.
Proof.
  intros Hr Hr' H0 H0'.
  assert (r = 1 ∨ r = 2) as [-> | ->] by lia;
    assert (r' = 1 ∨ r' = 2) as [-> | ->] by lia;
    vm_compute; congruence.
Qed.

Lemma example_outbox_ok :
  outbox_table_ok example_box_index 0 example_outbox 9%nat 3.
Proof.
  split; [|split].
  - intros r Hr H0. assert (r = 1 ∨ r = 2) as [-> | ->] by lia;
      vm_compute; split; congruence.
  - apply example_box_index_inj.
  - simpl. repeat (apply NoDup_cons; split; [set_solver|]). apply NoDup_nil_2.
Qed.

(** Seen from partition [0] of three: the neighbour [(0, 7)] is local and
    resolves to [pstate[7]]; the neighbours [(1, 4)] and [(2, 5)] resolve
    to the entries [4] and [5] of the first and the second outbox. *)
Lemma engine_fetch_dst_resolves_witness :
  let fetch := ENGINE_FETCH_DST example_partition_id example_vertex_id
                 example_box_index 0 in
  (∀ nbr,
    (example_partition_id nbr = 0 →
       fetch nbr example_outbox 9%nat 3 ∅ =
         Some (Addr 9 (example_vertex_id nbr), ∅)) ∧
    (example_partition_id nbr ≠ 0 → 0 ≤ example_partition_id nbr < 3 →
       ∃ box,
         example_outbox !! Z.to_nat
           (example_box_index (example_partition_id nbr) 0 3) = Some box ∧
         fetch nbr example_outbox 9%nat 3 ∅ =
           Some (Addr (values box) (example_vertex_id nbr), ∅) ∧
         values box ≠ 9%nat) ∧
    (∀ nbr' a a' h1 h2,
       0 ≤ example_partition_id nbr < 3 →
       0 ≤ example_partition_id nbr' < 3 →
       fetch nbr example_outbox 9%nat 3 ∅ = Some (a, h1) →
       fetch nbr' example_outbox 9%nat 3 ∅ = Some (a', h2) →
       (addr_block a = addr_block a' ↔
        example_partition_id nbr = example_partition_id nbr'))) ∧
  fetch 7 example_outbox 9%nat 3 ∅ = Some (Addr 9 7, ∅) ∧
  fetch (Z.lor (Z.shiftl 1 29) 4) example_outbox 9%nat 3 ∅ =
    Some (Addr 10 4, ∅) ∧
  fetch (Z.lor (Z.shiftl 2 29) 5) example_outbox 9%nat 3 ∅ =
    Some (Addr 11 5, ∅).
Proof.
  intros fetch.
  pose proof (engine_fetch_dst_resolves example_partition_id
                example_vertex_id example_box_index 0 example_outbox
                9%nat 3 ∅ example_outbox_ok) as H.
  split; [exact H|]. split; [|split].
  - exact (proj1 (H 7) eq_refl).
  - destruct (proj1 (proj2 (H (Z.lor (Z.shiftl 1 29) 4))))
      as (box & Hbox & Hfetch & _); [by vm_compute|by vm_compute|].
    vm_compute in Hbox. injection Hbox as <-. exact Hfetch.
  - destruct (proj1 (proj2 (H (Z.lor (Z.shiftl 2 29) 5))))
      as (box & Hbox & Hfetch & _); [by vm_compute|by vm_compute|].
    vm_compute in Hbox. injection Hbox as <-. exact Hfetch.
Defined.

(** The neighbour [(2, 5)] seen from partition [0] resolves to entry [5] of
    the second outbox. *)
Example engine_fetch_dst_remote :
  ENGINE_FETCH_DST example_partition_id example_vertex_id example_box_index
    0 (Z.lor (Z.shiftl 2 29) 5) example_outbox 9%nat 3 ∅ =
  Some (Addr 11 5, ∅).
Proof. reflexivity. Qed.

(** ** Engine: no two neighbours share a cell *)

Lemma box_at_values (outbox : list grooves_box_table_t) (pstate : nat)
    i j box box' :
  NoDup (pstate :: (values <$> outbox)) →
  box_at outbox i = Some box → box_at outbox j = Some box' →
  values box ≠ pstate ∧ (values box = values box' → i = j).
Proof.
  intros [Hps Hnd]%NoDup_cons Hi Hj. unfold box_at in *.
  case_decide; [|done]. case_decide; [|done]. split.
  - intros Heq. apply Hps. rewrite <- Heq.
    apply list_elem_of_fmap. exists box. split; [done|].
    by eapply list_elem_of_lookup_2.
  - intros Heq. assert (Z.to_nat i = Z.to_nat j); [|lia].
    apply (NoDup_lookup _ _ _ (values box) Hnd);
      rewrite list_lookup_fmap; [rewrite Hi|rewrite Hj]; simpl; congruence.
Qed.

(** X14: two neighbour references that [ENGINE_FETCH_DST] resolves to the same
    cell are the same reference: distinct destination vertices never share
    a cell, whether they are local or remote. *)
Theorem engine_fetch_dst_injective
    (GET_PARTITION_ID GET_VERTEX_ID : Z → Z)
    (GROOVES_BOX_INDEX : Z → Z → Z → Z)
    (pid nbr nbr' : Z) (outbox : list grooves_box_table_t) (pstate : nat)
    (pcount : Z) (h h1 h2 : heap) (a : address) :
  (∀ r r', 0 ≤ r < pcount → 0 ≤ r' < pcount → r ≠ pid → r' ≠ pid →
     GROOVES_BOX_INDEX r pid pcount = GROOVES_BOX_INDEX r' pid pcount →
     r = r') →
  NoDup (pstate :: (values <$> outbox)) →
  (∀ n n', GET_PARTITION_ID n = GET_PARTITION_ID n' →
           GET_VERTEX_ID n = GET_VERTEX_ID n' → n = n') →
  0 ≤ GET_PARTITION_ID nbr < pcount →
  0 ≤ GET_PARTITION_ID nbr' < pcount →
  ENGINE_FETCH_DST GET_PARTITION_ID GET_VERTEX_ID GROOVES_BOX_INDEX
    pid nbr outbox pstate pcount h = Some (a, h1) →
  ENGINE_FETCH_DST GET_PARTITION_ID GET_VERTEX_ID GROOVES_BOX_INDEX
    pid nbr' outbox pstate pcount h = Some (a, h2) →
  nbr = nbr'.
Proof.
  intros Hinj Hnd Hdec Hr Hr'. unfold ENGINE_FETCH_DST.
  destruct (decide (GET_PARTITION_ID nbr ≠ pid)) as [Hp|Hp];
    destruct (decide (GET_PARTITION_ID nbr' ≠ pid)) as [Hp'|Hp'].
  - destruct (box_at outbox _) as [box|] eqn:Hb; [|done].
    destruct (box_at outbox (GROOVES_BOX_INDEX (GET_PARTITION_ID nbr') _ _))
      as [box'|] eqn:Hb'; [|done].
    simpl. intros [= <- <-] [= Hv Hid _].
    destruct (box_at_values outbox pstate _ _ _ _ Hnd Hb Hb') as [_ Hsame].
    apply Hdec; [|done]. apply Hinj; try done. by apply Hsame.
  - destruct (box_at outbox _) as [box|] eqn:Hb; [|done].
    simpl. intros [= <- <-] [= Hv _ _].
    by destruct (box_at_values outbox pstate _ _ _ _ Hnd Hb Hb) as [Hne _].
  - destruct (box_at outbox _) as [box'|] eqn:Hb'; [|done].
    simpl. intros [= <- <-] [= Hv _ _].
    by destruct (box_at_values outbox pstate _ _ _ _ Hnd Hb' Hb') as [Hne _].
  - intros [= <- <-] [= Hid _]. apply dec_stable in Hp, Hp'.
    apply Hdec; congruence.
Qed.

Lemma example_ids_decode n n' :
  example_partition_id n = example_partition_id n' →
  example_vertex_id n = example_vertex_id n' → n = n'.
Proof.
  unfold example_partition_id, example_vertex_id. intros Hp Hv.
  apply Z.bits_inj'. intros i Hi.
  destruct (decide (i < 29)) as [Hlt|Hge].
  - assert (Z.testbit (Z.land n (Z.ones 29)) i =
            Z.testbit (Z.land n' (Z.ones 29)) i) as Hb by by rewrite Hv.
    rewrite !Z.land_spec, Z.ones_spec_low in Hb by lia.
    by rewrite !andb_true_r in Hb.
  - assert (Z.testbit (Z.shiftr n 29) (i - 29) =
            Z.testbit (Z.shiftr n' 29) (i - 29)) as Hb by by rewrite Hp.
    rewrite !Z.shiftr_spec in Hb by lia.
    by replace (i - 29 + 29) with i in Hb by lia.
Qed.

Lemma engine_fetch_dst_injective_witness :
  Z.lor (Z.shiftl 2 29) 5 = 1073741829.
Proof.
  apply (engine_fetch_dst_injective example_partition_id example_vertex_id
           example_box_index 0 _ _ example_outbox 9%nat 3 ∅ ∅ ∅
           (Addr 11 5)).
  - apply example_box_index_inj.
  - cbn. repeat (apply NoDup_cons; split; [set_solver|]). apply NoDup_nil_2.
  - apply example_ids_decode.
  - by vm_compute.
  - by vm_compute.
  - vm_compute. reflexivity.
  - vm_compute. reflexivity.
Defined.

End EngineFacts.
